(** * A shallow embedding of the chess engine of [script.js]

    The class [ChessGame] keeps one mutable game object.  The embedding
    makes that object an explicit record [Game] and writes every method
    that can write to it as a computation in a small state monad [M];
    methods that only read are plain functions of the game.  A
    computation that ends with a JavaScript [TypeError], or a loop that
    does not end, has no result ([None]).

    [isSquareAttacked] and [canCastle] call each other; the embedding
    bounds the nesting of these calls by a number [n] and has no result
    when the bound is used up.  On an 8x8 board one level is enough for
    every call [isValidMove] makes and two for [isSquareAttacked] on any
    square (lemmas [isValidMoveN_steady], [isSquareAttackedN_steady]), so
    the statements below hold for every bound from there on. *)

From Stdlib Require Import ZArith Lia Bool.
From stdpp Require Import base option list sorting.

Local Open Scope Z_scope.

(** ** Data model *)

Inductive Color := white | black.

Inductive PieceType := pawn | knight | bishop | rook | queen | king.

(** A board cell holds [null] or an object [{type, color, hasMoved}]. *)
Record Piece := mkPiece {
  ptype : PieceType;
  pcolor : Color;
  hasMoved : bool
}.

(** [this.board]: an array of eight arrays of eight cells. *)
Abbreviation Board := (list (list (option Piece))).

Definition Square : Type := Z * Z.

(** An object [{white: ..., black: ...}]. *)
Record ByColor (A : Type) := mkByColor {
  ofWhite : A;
  ofBlack : A
}.
Arguments mkByColor {A} _ _.
Arguments ofWhite {A} _.
Arguments ofBlack {A} _.

Record CastlingSides := mkSides {
  kingside : bool;
  queenside : bool
}.

(** An entry of [this.moveHistory]. *)
Record MoveRecord := mkRecord {
  mrFrom : Square;
  mrTo : Square;
  mrPiece : PieceType;
  mrCaptured : option Piece;
  mrEnPassantTarget : option Square
}.

(** The fields of [ChessGame] that the rules read or write (the
    selection, the bot settings and the page are left out). *)
Record Game := mkGame {
  board : Board;
  currentPlayer : Color;
  capturedPieces : ByColor (list Piece);
  scores : ByColor Z;
  moveHistory : list MoveRecord;
  enPassantTarget : option Square;
  castlingRights : ByColor CastlingSides
}.

(** A candidate move [{from: [r, c], to: [r, c]}] of the bot. *)
Record Move := mkMove {
  mvFrom : Square;
  mvTo : Square
}.

Definition Color_eqb (a b : Color) : bool :=
  match a, b with
  | white, white | black, black => true
  | _, _ => false
  end.

Definition PieceType_eqb (a b : PieceType) : bool :=
  match a, b with
  | pawn, pawn | knight, knight | bishop, bishop
  | rook, rook | queen, queen | king, king => true
  | _, _ => false
  end.

(** [color === 'white' ? 'black' : 'white'] *)
Definition opposite (c : Color) : Color :=
  match c with white => black | black => white end.

Definition byColor {A} (o : ByColor A) (c : Color) : A :=
  match c with white => ofWhite o | black => ofBlack o end.

Definition setByColor {A} (o : ByColor A) (c : Color) (a : A) : ByColor A :=
  match c with
  | white => mkByColor a (ofBlack o)
  | black => mkByColor (ofWhite o) a
  end.

(** [this.pieceValues] *)
Definition pieceValues (t : PieceType) : Z :=
  match t with
  | pawn => 1
  | knight => 3
  | bishop => 3
  | rook => 5
  | queen => 9
  | king => 0
  end.

(** ** Board access

    [getSq b r c] is the value of [this.board[r][c]] as a truth value
    carrier: [None] for [null].  Off the board the model also answers
    [None]; JavaScript answers [undefined] for a column off the board and
    throws for a row off the board.  The program only indexes rows that
    are on the board. *)
Definition getSq (b : Board) (r c : Z) : option Piece :=
  if (0 <=? r) && (0 <=? c) then
    match b !! Z.to_nat r with
    | Some cells =>
        match cells !! Z.to_nat c with
        | Some cell => cell
        | None => None
        end
    | None => None
    end
  else None.

(** [this.board[r][c] = v].  Off the board the model leaves the board as
    it is (JavaScript would grow the row or throw); the program only
    assigns to squares on the board. *)
Definition setSq (b : Board) (r c : Z) (v : option Piece) : Board :=
  if (0 <=? r) && (0 <=? c) then
    match b !! Z.to_nat r with
    | Some cells => <[Z.to_nat r := <[Z.to_nat c := v]> cells]> b
    | None => b
    end
  else b.

Definition wf_board (b : Board) : Prop :=
  length b = 8%nat ∧ Forall (λ cells, length cells = 8%nat) b.

Definition on_board (r c : Z) : Prop :=
  0 <= r <= 7 ∧ 0 <= c <= 7.

(** The squares in the order of the nested loops
    [for (row = 0; row < 8; row++) for (col = 0; col < 8; col++)]. *)
Definition allSquares : list Square :=
  flat_map (λ r, map (λ c, (r, c)) (seqZ 0 8)) (seqZ 0 8).

Definition withBoard (g : Game) (b : Board) : Game :=
  mkGame b (currentPlayer g) (capturedPieces g) (scores g)
         (moveHistory g) (enPassantTarget g) (castlingRights g).

(** ** Read-only movement rules *)

(** [isPathClear]: the [while] loop, with a bound [k] on its iterations.
    [None] when the bound is used up (the loop of the source would run
    off the board). *)
Fixpoint isPathClear_loop (k : nat) (b : Board)
    (rowStep colStep toRow toCol currentRow currentCol : Z) : option bool :=
  if negb (currentRow =? toRow) || negb (currentCol =? toCol) then
    match k with
    | O => None
    | S k' =>
        match getSq b currentRow currentCol with
        | Some _ => Some false
        | None =>
            isPathClear_loop k' b rowStep colStep toRow toCol
              (currentRow + rowStep) (currentCol + colStep)
        end
    end
  else Some true.

Definition stepToward (from to : Z) : Z :=
  if to >? from then 1 else if to <? from then -1 else 0.

Definition isPathClear (b : Board) (fromRow fromCol toRow toCol : Z)
    : option bool :=
  let rowStep := stepToward fromRow toRow in
  let colStep := stepToward fromCol toCol in
  isPathClear_loop
    (Z.to_nat (Z.max (Z.abs (toRow - fromRow)) (Z.abs (toCol - fromCol))))
    b rowStep colStep toRow toCol (fromRow + rowStep) (fromCol + colStep).

Definition isRookMoveValid (b : Board) (fromRow fromCol toRow toCol : Z)
    : option bool :=
  if negb (fromRow =? toRow) && negb (fromCol =? toCol) then Some false
  else isPathClear b fromRow fromCol toRow toCol.

Definition isBishopMoveValid (b : Board) (fromRow fromCol toRow toCol : Z)
    : option bool :=
  let rowDiff := Z.abs (toRow - fromRow) in
  let colDiff := Z.abs (toCol - fromCol) in
  if negb (rowDiff =? colDiff) then Some false
  else isPathClear b fromRow fromCol toRow toCol.

(** The truth value of a cell: [null] is falsy, an object truthy. *)
Definition occupied (cell : option Piece) : bool :=
  match cell with Some _ => true | None => false end.

Definition isEnPassantTarget (g : Game) (r c : Z) : bool :=
  match enPassantTarget g with
  | Some (er, ec) => (er =? r) && (ec =? c)
  | None => false
  end.

Definition pawnDirection (c : Color) : Z :=
  match c with white => -1 | black => 1 end.

Definition pawnStartRow (c : Color) : Z :=
  match c with white => 6 | black => 1 end.

(** [isPawnMoveValid].  [None] when the origin is empty
    ([piece.color] of [null] throws). *)
Definition isPawnMoveValid (g : Game) (fromRow fromCol toRow toCol : Z)
    : option bool :=
  match getSq (board g) fromRow fromCol with
  | None => None
  | Some piece =>
      let direction := pawnDirection (pcolor piece) in
      let startRow := pawnStartRow (pcolor piece) in
      let rowDiff := toRow - fromRow in
      let colDiff := Z.abs (toCol - fromCol) in
      let target := getSq (board g) toRow toCol in
      if (colDiff =? 0) &&
         ((rowDiff =? direction) && negb (occupied target))
      then Some true
      else if (colDiff =? 0) &&
              ((fromRow =? startRow) && (rowDiff =? 2 * direction)
               && negb (occupied target))
      then Some true
      else if (colDiff =? 1) && (rowDiff =? direction) then
        match target with
        | Some targetPiece =>
            if negb (Color_eqb (pcolor targetPiece) (pcolor piece))
            then Some true
            else Some (isEnPassantTarget g toRow toCol)
        | None => Some (isEnPassantTarget g toRow toCol)
        end
      else Some false
  end.

(** [cell && cell.color === color] *)
Definition hasColor (cell : option Piece) (color : Color) : bool :=
  match cell with
  | Some piece => Color_eqb (pcolor piece) color
  | None => false
  end.

(** [findKing]: the first king of [color] in scan order. *)
Definition isKingOf (color : Color) (cell : option Piece) : bool :=
  match cell with
  | Some piece => PieceType_eqb (ptype piece) king
                  && Color_eqb (pcolor piece) color
  | None => false
  end.

Definition findKing (b : Board) (color : Color) : option Square :=
  find (λ sq, isKingOf color (getSq b sq.1 sq.2)) allSquares.

(** ** The state monad

    [M A]: a method that may write to the game and returns an [A], or
    does not return normally. *)
Definition M (A : Type) : Type := Game → option (A * Game).

Definition ret {A} (a : A) : M A := λ g, Some (a, g).

Definition bind {A B} (m : M A) (k : A → M B) : M B :=
  λ g, match m g with
       | Some (a, g') => k a g'
       | None => None
       end.

Notation "x <~ m ;; k" := (bind m (λ x, k))
  (at level 100, m at next level, right associativity,
   format "x  <~  m ;;  '/' k").

(** A [TypeError]. *)
Definition throw {A} : M A := λ _, None.

(** Reading the game. *)
Definition ask {A} (f : Game → A) : M A := λ g, Some (f g, g).

(** A read-only method that may not return. *)
Definition askOpt {A} (f : Game → option A) : M A :=
  λ g, match f g with Some a => Some (a, g) | None => None end.

Definition readBoard (r c : Z) : M (option Piece) :=
  ask (λ g, getSq (board g) r c).

Definition writeBoard (r c : Z) (v : option Piece) : M unit :=
  λ g, Some (tt, withBoard g (setSq (board g) r c v)).

(** A loop that returns [true] at the first element that passes the
    test and [false] when none does. *)
Fixpoint existsM {A} (test : A → M bool) (l : list A) : M bool :=
  match l with
  | [] => ret false
  | x :: rest =>
      hit <~ test x;;
      if hit then ret true else existsM test rest
  end.

(** A loop that collects the elements that pass the test
    ([if (test) result.push(x)]). *)
Fixpoint filterM {A} (test : A → M bool) (l : list A) : M (list A) :=
  match l with
  | [] => ret []
  | x :: rest =>
      keep <~ test x;;
      kept <~ filterM test rest;;
      ret (if keep then x :: kept else kept)
  end.

(** ** Attack detection and move validation

    [isSquareAttacked] calls [isPieceMovementValid], which for a king
    calls [canCastle], which calls [isInCheck] and [wouldBeInCheck],
    which call [isSquareAttacked] again.  The methods are written over
    the inner call [attacked]; [isSquareAttackedN] below ties the knot
    with a bound on the nesting. *)
Section Rules.

Variable attacked : Z → Z → Color → M bool.

Definition isInCheckWith (color : Color) : M bool :=
  kingPosition <~ ask (λ g, findKing (board g) color);;
  match kingPosition with
  | None => ret false
  | Some (kingRow, kingCol) => attacked kingRow kingCol (opposite color)
  end.

(** The king placed on the square is [{type: 'king', color: color}]: its
    [hasMoved] is [undefined], which every test reads as false. *)
Definition wouldBeInCheckWith (color : Color) (kingRow kingCol : Z) : M bool :=
  originalPiece <~ readBoard kingRow kingCol;;
  _ <~ writeBoard kingRow kingCol (Some (mkPiece king color false));;
  inCheck <~ attacked kingRow kingCol (opposite color);;
  _ <~ writeBoard kingRow kingCol originalPiece;;
  ret inCheck.

Definition rookReady (cell : option Piece) : bool :=
  match cell with
  | Some r => PieceType_eqb (ptype r) rook && negb (hasMoved r)
  | None => false
  end.

Definition castlingRight (g : Game) (color : Color) (isKingside : bool) : bool :=
  let sides := byColor (castlingRights g) color in
  if isKingside then kingside sides else queenside sides.

Definition canCastleWith (fromRow fromCol toRow toCol : Z) : M bool :=
  cell <~ readBoard fromRow fromCol;;
  match cell with
  | None => throw
  | Some piece =>
      if hasMoved piece then ret false else
      let isKingside := toCol >? fromCol in
      let rookCol := if isKingside then 7 else 0 in
      rookCell <~ readBoard fromRow rookCol;;
      if negb (rookReady rookCell) then ret false else
      right <~ ask (λ g, castlingRight g (pcolor piece) isKingside);;
      if negb right then ret false else
      let startCol := Z.min fromCol rookCol in
      let endCol := Z.max fromCol rookCol in
      blocked <~ existsM (λ col, c <~ readBoard fromRow col;; ret (occupied c))
                         (seqZ (startCol + 1) (endCol - (startCol + 1)));;
      if blocked then ret false else
      inCheck <~ isInCheckWith (pcolor piece);;
      if inCheck then ret false else
      let step := if isKingside then 1 else -1 in
      through <~ existsM (λ i, wouldBeInCheckWith (pcolor piece) fromRow
                                 (fromCol + i * step))
                         (seqZ 1 2);;
      if through then ret false else ret true
  end.

Definition isKingMoveValidWith (fromRow fromCol toRow toCol : Z) : M bool :=
  let rowDiff := Z.abs (toRow - fromRow) in
  let colDiff := Z.abs (toCol - fromCol) in
  if (rowDiff <=? 1) && (colDiff <=? 1) then ret true
  else if (rowDiff =? 0) && (colDiff =? 2)
  then canCastleWith fromRow fromCol toRow toCol
  else ret false.

Definition isPieceMovementValidWith (pieceType : PieceType)
    (fromRow fromCol toRow toCol : Z) : M bool :=
  let absRowDiff := Z.abs (toRow - fromRow) in
  let absColDiff := Z.abs (toCol - fromCol) in
  match pieceType with
  | pawn => askOpt (λ g, isPawnMoveValid g fromRow fromCol toRow toCol)
  | rook => askOpt (λ g, isRookMoveValid (board g) fromRow fromCol toRow toCol)
  | knight =>
      ret ((absRowDiff =? 2) && (absColDiff =? 1)
           || (absRowDiff =? 1) && (absColDiff =? 2))
  | bishop =>
      askOpt (λ g, isBishopMoveValid (board g) fromRow fromCol toRow toCol)
  | queen =>
      straight <~ askOpt (λ g, isRookMoveValid (board g)
                                 fromRow fromCol toRow toCol);;
      if straight then ret true
      else askOpt (λ g, isBishopMoveValid (board g)
                          fromRow fromCol toRow toCol)
  | king => isKingMoveValidWith fromRow fromCol toRow toCol
  end.

(** The body of [isSquareAttacked]. *)
Definition attackFrom (row col : Z) (byColor : Color) (from : Square) : M bool :=
  cell <~ readBoard from.1 from.2;;
  match cell with
  | Some piece =>
      if Color_eqb (pcolor piece) byColor
      then isPieceMovementValidWith (ptype piece) from.1 from.2 row col
      else ret false
  | None => ret false
  end.

Definition isSquareAttackedBody (row col : Z) (byColor : Color) : M bool :=
  existsM (attackFrom row col byColor) allSquares.

Definition wouldLeaveKingInCheckWith (fromRow fromCol toRow toCol : Z)
    : M bool :=
  cell <~ readBoard fromRow fromCol;;
  capturedPiece <~ readBoard toRow toCol;;
  _ <~ writeBoard toRow toCol cell;;
  _ <~ writeBoard fromRow fromCol None;;
  match cell with
  | None => throw
  | Some piece =>
      inCheck <~ isInCheckWith (pcolor piece);;
      _ <~ writeBoard fromRow fromCol cell;;
      _ <~ writeBoard toRow toCol capturedPiece;;
      ret inCheck
  end.

Definition isValidMoveWith (fromRow fromCol toRow toCol : Z) : M bool :=
  cell <~ readBoard fromRow fromCol;;
  player <~ ask currentPlayer;;
  match cell with
  | None => ret false
  | Some piece =>
      if negb (Color_eqb (pcolor piece) player) then ret false else
      if (toRow <? 0) || (toRow >? 7) || (toCol <? 0) || (toCol >? 7)
      then ret false else
      targetPiece <~ readBoard toRow toCol;;
      if hasColor targetPiece (pcolor piece) then ret false else
      okShape <~ isPieceMovementValidWith (ptype piece)
                   fromRow fromCol toRow toCol;;
      if negb okShape then ret false else
      leaves <~ wouldLeaveKingInCheckWith fromRow fromCol toRow toCol;;
      if leaves then ret false else ret true
  end.

End Rules.

(** [isSquareAttacked], with at most [n] nested calls of itself. *)
Fixpoint isSquareAttackedN (n : nat) (row col : Z) (byColor : Color) : M bool :=
  match n with
  | O => throw
  | S n' => isSquareAttackedBody (isSquareAttackedN n') row col byColor
  end.

Definition isInCheck (n : nat) : Color → M bool :=
  isInCheckWith (isSquareAttackedN n).

Definition wouldBeInCheck (n : nat) : Color → Z → Z → M bool :=
  wouldBeInCheckWith (isSquareAttackedN n).

Definition canCastle (n : nat) : Z → Z → Z → Z → M bool :=
  canCastleWith (isSquareAttackedN n).

Definition isPieceMovementValid (n : nat)
    : PieceType → Z → Z → Z → Z → M bool :=
  isPieceMovementValidWith (isSquareAttackedN n).

Definition wouldLeaveKingInCheck (n : nat) : Z → Z → Z → Z → M bool :=
  wouldLeaveKingInCheckWith (isSquareAttackedN n).

Definition isValidMove (n : nat) : Z → Z → Z → Z → M bool :=
  isValidMoveWith (isSquareAttackedN n).

(** [getValidMoves].  The source throws for a [row] off the board
    ([this.board[row]] is [undefined]), where this definition answers
    [[]]; the statements take [row] on the board. *)
Definition getValidMoves (n : nat) (row col : Z) : M (list Square) :=
  cell <~ readBoard row col;;
  match cell with
  | None => ret []
  | Some _ => filterM (λ to, isValidMove n row col to.1 to.2) allSquares
  end.

(** The test of the loops of [isCheckmate], [isStalemate]: a piece of
    [color] on the square with [validMoves.length > 0]. *)
Definition hasValidMove (n : nat) (color : Color) (from : Square) : M bool :=
  cell <~ readBoard from.1 from.2;;
  if hasColor cell color then
    validMoves <~ getValidMoves n from.1 from.2;;
    ret (negb (bool_decide (validMoves = [])))
  else ret false.

Definition isCheckmate (n : nat) (color : Color) : M bool :=
  inCheck <~ isInCheck n color;;
  if negb inCheck then ret false else
  escape <~ existsM (hasValidMove n color) allSquares;;
  if escape then ret false else ret true.

Definition isStalemate (n : nat) (color : Color) : M bool :=
  inCheck <~ isInCheck n color;;
  if inCheck then ret false else
  some <~ existsM (hasValidMove n color) allSquares;;
  if some then ret false else ret true.

(** [getAllValidMoves] *)
Fixpoint collectMoves (n : nat) (color : Color) (l : list Square)
    : M (list Move) :=
  match l with
  | [] => ret []
  | from :: rest =>
      cell <~ readBoard from.1 from.2;;
      here <~ (if hasColor cell color then
                 validMoves <~ getValidMoves n from.1 from.2;;
                 ret (map (mkMove from) validMoves)
               else ret []);;
      later <~ collectMoves n color rest;;
      ret (here ++ later)
  end.

Definition getAllValidMoves (n : nat) (color : Color) : M (list Move) :=
  collectMoves n color allSquares.

(** ** Executing a move *)

Definition modify (f : Game → Game) : M unit := λ g, Some (tt, f g).

(** [capturePiece] *)
Definition capturePiece (piece : Piece) : M unit :=
  modify (λ g,
    let key := opposite (pcolor piece) in
    mkGame (board g) (currentPlayer g)
      (setByColor (capturedPieces g) key
         (byColor (capturedPieces g) key ++ [piece]))
      (setByColor (scores g) key
         (byColor (scores g) key + pieceValues (ptype piece)))
      (moveHistory g) (enPassantTarget g) (castlingRights g)).

Definition markMoved (p : Piece) : Piece :=
  mkPiece (ptype p) (pcolor p) true.

(** [handleSpecialMoves] *)
Definition handleSpecialMoves (fromRow fromCol toRow toCol : Z) : M unit :=
  cell <~ readBoard fromRow fromCol;;
  match cell with
  | None => throw
  | Some piece =>
      _ <~ (if PieceType_eqb (ptype piece) king
               && (Z.abs (toCol - fromCol) =? 2) then
              let isKingside := toCol >? fromCol in
              let rookFromCol := if isKingside then 7 else 0 in
              let rookToCol := if isKingside then 5 else 3 in
              rookCell <~ readBoard fromRow rookFromCol;;
              _ <~ writeBoard fromRow rookToCol rookCell;;
              _ <~ writeBoard fromRow rookFromCol None;;
              match rookCell with
              | None => throw
              | Some r => writeBoard fromRow rookToCol (Some (markMoved r))
              end
            else ret tt);;
      isEp <~ ask (λ g, isEnPassantTarget g toRow toCol);;
      if PieceType_eqb (ptype piece) pawn && isEp then
        let capturedPawnRow :=
          match pcolor piece with white => toRow + 1 | black => toRow - 1 end in
        capturedPawn <~ readBoard capturedPawnRow toCol;;
        match capturedPawn with
        | None => throw
        | Some p =>
            _ <~ capturePiece p;;
            writeBoard capturedPawnRow toCol None
        end
      else ret tt
  end.

(** [updateCastlingRights] *)
Definition updateCastlingRights (piece : Piece) (fromRow fromCol : Z) : M unit :=
  modify (λ g,
    let sides := byColor (castlingRights g) (pcolor piece) in
    let sides' :=
      match ptype piece with
      | king => mkSides false false
      | rook =>
          if fromCol =? 0 then mkSides (kingside sides) false
          else if fromCol =? 7 then mkSides false (queenside sides)
          else sides
      | _ => sides
      end in
    mkGame (board g) (currentPlayer g) (capturedPieces g) (scores g)
      (moveHistory g) (enPassantTarget g)
      (setByColor (castlingRights g) (pcolor piece) sides')).

(** [updateEnPassantTarget] *)
Definition updateEnPassantTarget (piece : Piece)
    (fromRow fromCol toRow toCol : Z) : M unit :=
  modify (λ g,
    mkGame (board g) (currentPlayer g) (capturedPieces g) (scores g)
      (moveHistory g)
      (if PieceType_eqb (ptype piece) pawn && (Z.abs (toRow - fromRow) =? 2)
       then Some ((fromRow + toRow) / 2, toCol)
       else None)
      (castlingRights g)).

Definition pushHistory (r : MoveRecord) : M unit :=
  modify (λ g,
    mkGame (board g) (currentPlayer g) (capturedPieces g) (scores g)
      (moveHistory g ++ [r]) (enPassantTarget g) (castlingRights g)).

(** [makeMove] (the promotion dialog and the redrawing of the page are
    left out).  Pieces are copied by value: the moved piece, the castling
    rook, the piece on the destination and the passed pawn are taken to
    be four different objects, and a captured piece is taken to have left
    the board, so that later writes to the pieces on the board do not
    reach the lists of captured pieces.  Pieces on different squares are
    different objects; the one call in which two of the four are the same
    object is that of a pawn stepping straight onto the en-passant target
    from the square behind it ([fromCol = toCol]), where the source
    pushes onto the captured list the very object it then marks
    [hasMoved]; the statements about the captured lists leave that call
    out. *)
Definition makeMove (fromRow fromCol toRow toCol : Z) : M unit :=
  cell <~ readBoard fromRow fromCol;;
  capturedPiece <~ readBoard toRow toCol;;
  _ <~ handleSpecialMoves fromRow fromCol toRow toCol;;
  match cell with
  | None => throw
  | Some piece =>
      _ <~ match capturedPiece with
           | Some p => capturePiece p
           | None => ret tt
           end;;
      _ <~ writeBoard toRow toCol (Some (markMoved piece));;
      _ <~ writeBoard fromRow fromCol None;;
      _ <~ updateCastlingRights piece fromRow fromCol;;
      target <~ ask enPassantTarget;;
      _ <~ pushHistory (mkRecord (fromRow, fromCol) (toRow, toCol)
                          (ptype piece) capturedPiece target);;
      updateEnPassantTarget piece fromRow fromCol toRow toCol
  end.

(** [this.currentPlayer = this.currentPlayer === 'white' ? 'black' : 'white'] *)
Definition switchPlayer : M unit :=
  modify (λ g,
    mkGame (board g) (opposite (currentPlayer g)) (capturedPieces g)
      (scores g) (moveHistory g) (enPassantTarget g) (castlingRights g)).

(** [this.board[row][col].type = pieceType] of [handlePawnPromotion] and
    of the bot. *)
Definition promote (row col : Z) (pieceType : PieceType) : M unit :=
  cell <~ readBoard row col;;
  match cell with
  | None => throw
  | Some p => writeBoard row col (Some (mkPiece pieceType (pcolor p) (hasMoved p)))
  end.

(** The test for the end of the game that [handleSquareClick] and
    [makeBotMove] make after a move, on [this.currentPlayer] as it is
    then. *)
Definition endsGame (n : nat) : M bool :=
  player <~ ask currentPlayer;;
  inCheck <~ isInCheck n player;;
  if inCheck then isCheckmate n player else isStalemate n player.

(** A turn as [handleSquareClick] and [makeBotMove] play it, for a move
    that is no promotion: the move is made only when [isValidMove]
    accepts it, and the player switches unless the game has ended.  No
    result when the move is refused or the game is over. *)
Definition playMove (n : nat) (fromRow fromCol toRow toCol : Z) : M unit :=
  ok <~ isValidMove n fromRow fromCol toRow toCol;;
  if ok then
    _ <~ makeMove fromRow fromCol toRow toCol;;
    over <~ endsGame n;;
    if over then throw else switchPlayer
  else throw.

Fixpoint playMoves (n : nat) (l : list Move) : M unit :=
  match l with
  | [] => ret tt
  | move :: rest =>
      _ <~ playMove n (mvFrom move).1 (mvFrom move).2
                      (mvTo move).1 (mvTo move).2;;
      playMoves n rest
  end.

(** ** The bot at difficulty [hard] *)

(** [Array.prototype.sort] with a comparator: a stable sort, as
    ECMAScript 2019 requires ([x] goes before [y] when [cmp x y <= 0] and
    [x] came first).  The comparator may throw.  Every stable sort gives
    the same array for a comparator that compares by a key, as the one of
    [getHardMove] does. *)
Fixpoint insertBy {A} (cmp : A → A → option Z) (x : A) (l : list A)
    : option (list A) :=
  match l with
  | [] => Some [x]
  | y :: rest =>
      match cmp x y with
      | None => None
      | Some d =>
          if d <=? 0 then Some (x :: l)
          else match insertBy cmp x rest with
               | Some s => Some (y :: s)
               | None => None
               end
      end
  end.

Fixpoint sortBy {A} (cmp : A → A → option Z) (l : list A) : option (list A) :=
  match l with
  | [] => Some []
  | x :: rest =>
      match sortBy cmp rest with
      | Some s => insertBy cmp x s
      | None => None
      end
  end.

(** [this.pieceValues[this.board[m.to[0]][m.to[1]].type]] *)
Definition capturedValue (g : Game) (m : Move) : option Z :=
  match getSq (board g) (mvTo m).1 (mvTo m).2 with
  | Some p => Some (pieceValues (ptype p))
  | None => None
  end.

(** The comparator [(a, b) => value(capB) - value(capA)]. *)
Definition compareCaptures (g : Game) (a b : Move) : option Z :=
  match capturedValue g a, capturedValue g b with
  | Some va, Some vb => Some (vb - va)
  | _, _ => None
  end.

(** The loop of [getHardMove] that fills [captures] and [checks]. *)
Fixpoint classifyMoves (n : nat) (moves captures checks : list Move)
    : M (list Move * list Move) :=
  match moves with
  | [] => ret (captures, checks)
  | move :: rest =>
      let toRow := (mvTo move).1 in
      let toCol := (mvTo move).2 in
      capturedPiece <~ readBoard toRow toCol;;
      if occupied capturedPiece then
        classifyMoves n rest (captures ++ [move]) checks
      else
        let fromRow := (mvFrom move).1 in
        let fromCol := (mvFrom move).2 in
        piece <~ readBoard fromRow fromCol;;
        originalPiece <~ readBoard toRow toCol;;
        _ <~ writeBoard toRow toCol piece;;
        _ <~ writeBoard fromRow fromCol None;;
        gives <~ isInCheck n white;;
        _ <~ writeBoard fromRow fromCol piece;;
        _ <~ writeBoard toRow toCol originalPiece;;
        classifyMoves n rest captures
          (if gives then checks ++ [move] else checks)
  end.

(** [getHardMove].  [random] stands for the draw
    [Math.floor(Math.random() * moves.length)]; the result is [None]
    for [undefined]. *)
Definition getHardMove (n : nat) (random : nat) (moves : list Move)
    : M (option Move) :=
  lists <~ classifyMoves n moves [] [];;
  let captures := lists.1 in
  let checks := lists.2 in
  if (0 <? Z.of_nat (length captures)) then
    sorted <~ askOpt (λ g, sortBy (compareCaptures g) captures);;
    ret (head sorted)
  else if (0 <? Z.of_nat (length checks)) then
    ret (head checks)
  else ret (moves !! (random mod length moves)%nat).

(** ** The starting position *)

Definition startingRank (c : Color) : list (option Piece) :=
  map (λ t, Some (mkPiece t c false))
      [rook; knight; bishop; queen; king; bishop; knight; rook].

Definition pawnRank (c : Color) : list (option Piece) :=
  replicate 8 (Some (mkPiece pawn c false)).

Definition emptyRank : list (option Piece) := replicate 8 None.

(** [initializeBoard]: rows 0 and 1 are black, rows 6 and 7 white. *)
Definition initialBoard : Board :=
  [startingRank black; pawnRank black;
   emptyRank; emptyRank; emptyRank; emptyRank;
   pawnRank white; startingRank white].

(** The game the constructor and [resetGame] build. *)
Definition initialGame : Game :=
  mkGame initialBoard white (mkByColor [] []) (mkByColor 0 0) [] None
         (mkByColor (mkSides true true) (mkSides true true)).

Definition mv (fr fc tr tc : Z) : Move := mkMove (fr, fc) (tr, tc).

(** The game after the moves of [l], each accepted by [isValidMove]. *)
Definition gameAfter (l : list Move) : option Game :=
  match playMoves 1 l initialGame with
  | Some (_, g) => Some g
  | None => None
  end.

(** A game in which White has played the knight to (5,5) and Black a
    pawn move: the pawn on (6,5) now has the knight in front of it. *)
Definition knightInFront : list Move :=
  [mv 7 6 5 5; mv 1 0 2 0].

(** A game that ends with Black's pawn advance (1,4) to (3,4) next to
    the white pawn on (3,3), with the white king on (3,0) and a black
    rook on (3,6) on the same row. *)
Definition pinnedEnPassant : list Move :=
  [mv 6 3 4 3; mv 1 7 3 7;
   mv 7 4 6 3; mv 0 7 2 7;
   mv 6 3 5 2; mv 2 7 2 6;
   mv 5 2 4 1; mv 2 6 3 6;
   mv 4 3 3 3; mv 1 6 2 6;
   mv 4 1 3 0; mv 1 4 3 4].

(** White takes a pawn: (6,4) to (4,4), (1,3) to (3,3), then the
    capture (4,4) to (3,3). *)
Definition pawnTrade : list Move :=
  [mv 6 4 4 4; mv 1 3 3 3; mv 4 4 3 3].

(** The game a computation leaves (the game itself when it does not
    return). *)
Definition execute {A} (m : M A) (g : Game) : Game :=
  match m g with Some (_, g') => g' | None => g end.

Definition theGame (l : list Move) : Game :=
  execute (playMoves 1 l) initialGame.

(** ** Games the program can reach *)

(** The sum of [this.pieceValues] over a list of captured pieces. *)
Definition capturedSum (l : list Piece) : Z :=
  foldr (λ p acc, pieceValues (ptype p) + acc) 0 l.

(** What the handlers do to the game: a move that [isValidMove] accepts,
    a change of player, a promotion. *)
Inductive reachable : Game → Prop :=
| reach_start : reachable initialGame
| reach_move g n fromRow fromCol toRow toCol g' :
    reachable g →
    isValidMove (S n) fromRow fromCol toRow toCol g = Some (true, g) →
    makeMove fromRow fromCol toRow toCol g = Some (tt, g') →
    reachable g'
| reach_switch g g' :
    reachable g → switchPlayer g = Some (tt, g') → reachable g'
| reach_promote g row col pieceType g' :
    reachable g → promote row col pieceType g = Some (tt, g') →
    reachable g'.

(** ** The first element with the greatest key *)

Fixpoint firstMax {A} (key : A → Z) (l : list A) : option A :=
  match l with
  | [] => None
  | x :: rest =>
      match firstMax key rest with
      | None => Some x
      | Some y => if key y - key x <=? 0 then Some x else Some y
      end
  end.

(** A move of the bot counts as a capture when its destination is
    occupied ([if (capturedPiece)]). *)
Definition isCapture (g : Game) (m : Move) : bool :=
  occupied (getSq (board g) (mvTo m).1 (mvTo m).2).

Definition captureKey (g : Game) (m : Move) : Z :=
  match capturedValue g m with Some v => v | None => 0 end.

(** ** Notions used in the statements *)

(** Every member of the family [m] returns the same value and the game
    unchanged. *)
Definition steady {I A} (m : I → M A) (g : Game) : Prop :=
  ∃ a, ∀ i, m i g = Some (a, g).

(** The score of each color is the value of the pieces in its list, and
    every piece in the list of a color has the other color. *)
Definition tally (g : Game) : Prop :=
  ∀ C, byColor (scores g) C = capturedSum (byColor (capturedPieces g) C)
       ∧ Forall (λ p, pcolor p = opposite C) (byColor (capturedPieces g) C).

(** What a step leaves alone: the en-passant target and the history,
    and the shape of the board. *)
Definition sameTrack (g g' : Game) : Prop :=
  enPassantTarget g' = enPassantTarget g ∧
  moveHistory g' = moveHistory g ∧
  (wf_board (board g) → wf_board (board g')).

(** ** The bot at difficulty [easy] and [medium] *)

(** [getRandomMove].  [prefer] stands for the outcome of
    [Math.random() > 0.3] and [draw] for the random index
    [Math.floor(Math.random() * length)]; the filter
    [this.board[toRow][toCol] !== null] keeps, on the board, the moves
    with an occupied destination. *)
Definition getRandomMove (prefer : bool) (draw : nat) (moves : list Move)
    : M (option Move) :=
  captures <~ ask (λ g, List.filter (isCapture g) moves);;
  if (0 <? Z.of_nat (length captures)) && prefer
  then ret (captures !! (draw mod length captures)%nat)
  else ret (moves !! (draw mod length moves)%nat).

(** [getMediumMove]: the loop of [getHardMove], then [takeCapture] for
    the outcome of [Math.random() > 0.2], [takeCheck] for that of
    [Math.random() > 0.4] and [draw] for the random index. *)
Definition getMediumMove (n : nat) (takeCapture takeCheck : bool)
    (draw : nat) (moves : list Move) : M (option Move) :=
  lists <~ classifyMoves n moves [] [];;
  let captures := lists.1 in
  let checks := lists.2 in
  if (0 <? Z.of_nat (length captures)) && takeCapture then
    sorted <~ askOpt (λ g, sortBy (compareCaptures g) captures);;
    ret (head sorted)
  else if (0 <? Z.of_nat (length checks)) && takeCheck then
    ret (checks !! (draw mod length checks)%nat)
  else ret (moves !! (draw mod length moves)%nat).

(** ** Further notions used in the statements *)

(** The board on which the bots test a move for check: the piece of the
    origin set on the destination, the origin emptied. *)
Definition simulated (g : Game) (fromRow fromCol toRow toCol : Z) : Game :=
  withBoard g (setSq (setSq (board g) toRow toCol
                        (getSq (board g) fromRow fromCol))
                     fromRow fromCol None).

Definition afterMove (g : Game) (m : Move) : Game :=
  simulated g (mvFrom m).1 (mvFrom m).2 (mvTo m).1 (mvTo m).2.

(** Whether [isInCheck('white')] answers true on that board. *)
Definition givesCheck (g : Game) (m : Move) : bool :=
  match isInCheck 1 white (afterMove g m) with
  | Some (b, _) => b
  | None => false
  end.

(** What attack detection on a king's square looks at: the type and the
    color of the piece on each square. *)
Definition cellShape (cell : option Piece) : option (PieceType * Color) :=
  match cell with
  | Some p => Some (ptype p, pcolor p)
  | None => None
  end.

Definition sameShape (b b' : Board) : Prop :=
  ∀ r c, cellShape (getSq b r c) = cellShape (getSq b' r c).

(** A game in which White can castle on the king's side: knight and
    bishop have left, king and rook have not moved. *)
Definition readyToCastle : list Move :=
  [mv 6 4 4 4; mv 1 4 3 4;
   mv 7 6 5 5; mv 0 1 2 2;
   mv 7 5 4 2; mv 0 5 3 2].

(** A game after which Black's queen can give check from (4,7). *)
Definition openKingside : list Move :=
  [mv 6 5 5 5; mv 1 4 3 4; mv 6 6 4 6].

(** Fool's mate: after Black's queen has gone to (4,7) the white king
    on (7,4) is attacked along the diagonal and White has no move. *)
Definition foolsMate : list Move :=
  [mv 6 5 5 5; mv 1 4 3 4; mv 6 6 4 6; mv 0 3 4 7].

(** A game after which Black can take a pawn, a bishop or a knight: the
    black pawn on (2,7) takes the white pawn on (3,6), the black pawn on
    (3,3) the white bishop on (4,2) or the white knight on (4,4). *)
Definition captureChoice : list Move :=
  [mv 6 4 5 4; mv 1 7 2 7;
   mv 6 6 4 6; mv 1 0 2 0;
   mv 4 6 3 6; mv 2 0 3 0;
   mv 7 1 5 2; mv 1 1 2 1;
   mv 5 2 4 4; mv 1 3 3 3;
   mv 7 5 4 2].

(** Six of Black's moves in that game, in the order in which
    getAllValidMoves lists them. *)
Definition captureCandidates : list Move :=
  [mv 0 1 2 2; mv 2 7 3 6; mv 2 7 3 7; mv 3 3 4 2; mv 3 3 4 3; mv 3 3 4 4].

(** A game that ends with Black's pawn advance (1,3) to (3,3) next to
    the white pawn on (3,4). *)
Definition plainEnPassant : list Move :=
  [mv 6 4 4 4; mv 1 0 2 0; mv 4 4 3 4; mv 1 3 3 3].

(** * Properties *)

(** ** The board as an array *)

Lemma getSq_Some_present (b : Board) r c p :
  getSq b r c = Some p →
  0 <= r ∧ 0 <= c ∧
  ∃ cells, b !! Z.to_nat r = Some cells ∧ cells !! Z.to_nat c = Some (Some p).
Proof.
  unfold getSq. intros H.
  destruct (0 <=? r) eqn:Hr; destruct (0 <=? c) eqn:Hc; simpl in H; try done.
  destruct (b !! Z.to_nat r) as [cells|] eqn:Hb; [|done].
  destruct (cells !! Z.to_nat c) as [cell|] eqn:Hcell; [|done].
  subst cell. split; [lia|]. split; [lia|]. eauto.
Qed.

Lemma getSq_Some_on_board (b : Board) r c p :
  wf_board b → getSq b r c = Some p → on_board r c.
Proof.
  intros [Hlen Hrows] H.
  destruct (getSq_Some_present _ _ _ _ H) as (Hr & Hc & cells & Hb & Hcell).
  pose proof (lookup_lt_Some _ _ _ Hb) as Hlt.
  pose proof (lookup_lt_Some _ _ _ Hcell) as Hlt'.
  pose proof (Forall_lookup_1 _ _ _ _ Hrows Hb) as Hl. simpl in Hl.
  unfold on_board. lia.
Qed.

Lemma wf_setSq (b : Board) r c v : wf_board b → wf_board (setSq b r c v).
Proof.
  intros [Hlen Hrows]. unfold setSq.
  destruct ((0 <=? r) && (0 <=? c)); [|done].
  destruct (b !! Z.to_nat r) as [cells|] eqn:Hb; [|done].
  split.
  - by rewrite length_insert.
  - apply Forall_lookup. intros i x Hi.
    destruct (decide (i = Z.to_nat r)) as [->|Hne].
    + rewrite list_lookup_insert_eq in Hi by (eapply lookup_lt_Some; eauto).
      injection Hi as <-. rewrite length_insert.
      apply (Forall_lookup_1 _ _ _ _ Hrows Hb).
    + rewrite list_lookup_insert_ne in Hi by done.
      apply (Forall_lookup_1 _ _ _ _ Hrows Hi).
Qed.

Lemma getSq_setSq_same (b : Board) r c v :
  wf_board b → on_board r c → getSq (setSq b r c v) r c = v.
Proof.
  intros [Hlen Hrows] [Hr Hc]. unfold getSq, setSq.
  replace (0 <=? r) with true by lia. replace (0 <=? c) with true by lia.
  simpl.
  destruct (b !! Z.to_nat r) as [cells|] eqn:Hb.
  - rewrite list_lookup_insert_eq by (eapply lookup_lt_Some; eauto).
    pose proof (Forall_lookup_1 _ _ _ _ Hrows Hb) as Hl. simpl in Hl.
    rewrite list_lookup_insert_eq by lia. done.
  - apply lookup_ge_None in Hb. lia.
Qed.

Lemma getSq_setSq_other (b : Board) r c r' c' v :
  r ≠ r' ∨ c ≠ c' → getSq (setSq b r c v) r' c' = getSq b r' c'.
Proof.
  intros Hne. unfold getSq, setSq.
  destruct (0 <=? r) eqn:Hr; destruct (0 <=? c) eqn:Hc; simpl; try done.
  destruct (0 <=? r') eqn:Hr'; destruct (0 <=? c') eqn:Hc'; simpl; try done.
  destruct (b !! Z.to_nat r) as [cells|] eqn:Hb; [|done].
  destruct (decide (Z.to_nat r = Z.to_nat r')) as [Heq|Hneq].
  - rewrite <- Heq.
    rewrite list_lookup_insert_eq by (eapply lookup_lt_Some; eauto).
    rewrite Hb.
    rewrite list_lookup_insert_ne by lia. done.
  - rewrite list_lookup_insert_ne by done. done.
Qed.

Lemma setSq_setSq (b : Board) r c v w :
  setSq (setSq b r c v) r c w = setSq b r c w.
Proof.
  unfold setSq.
  destruct ((0 <=? r) && (0 <=? c)); [|done].
  destruct (b !! Z.to_nat r) as [cells|] eqn:Hb.
  - rewrite list_lookup_insert_eq by (eapply lookup_lt_Some; eauto).
    rewrite list_insert_insert_eq. f_equal.
    apply list_insert_insert_eq.
  - by rewrite Hb.
Qed.

Lemma setSq_getSq (b : Board) r c : setSq b r c (getSq b r c) = b.
Proof.
  unfold setSq, getSq.
  destruct ((0 <=? r) && (0 <=? c)); [|done].
  destruct (b !! Z.to_nat r) as [cells|] eqn:Hb; [|done].
  apply list_insert_id. rewrite Hb. f_equal. symmetry.
  destruct (cells !! Z.to_nat c) as [cell|] eqn:Hcell.
  - by apply list_insert_id.
  - apply list_insert_ge. by apply lookup_ge_None.
Qed.

Lemma setSq_comm (b : Board) r c v r' c' w :
  r ≠ r' ∨ c ≠ c' →
  setSq (setSq b r c v) r' c' w = setSq (setSq b r' c' w) r c v.
Proof.
  intros Hne. unfold setSq.
  destruct (0 <=? r) eqn:Hr; destruct (0 <=? c) eqn:Hc; simpl; try done;
  destruct (0 <=? r') eqn:Hr'; destruct (0 <=? c') eqn:Hc'; simpl; try done.
  destruct (decide (Z.to_nat r = Z.to_nat r')) as [Heq|Hneq].
  - rewrite <- Heq.
    destruct (b !! Z.to_nat r) as [cells|] eqn:Hb.
    + rewrite !list_lookup_insert_eq by (eapply lookup_lt_Some; eauto).
      rewrite !list_insert_insert_eq. f_equal.
      apply list_insert_insert_ne. lia.
    + by rewrite Hb.
  - destruct (b !! Z.to_nat r) as [cells|] eqn:Hb;
    destruct (b !! Z.to_nat r') as [cells'|] eqn:Hb';
    rewrite ?list_lookup_insert_ne by done; rewrite ?Hb, ?Hb'; try done.
    by apply list_insert_insert_ne.
Qed.

Lemma wf_initialBoard : wf_board initialBoard.
Proof. split; [done|]. repeat constructor. Qed.

(** ** The read-only rules return *)

Lemma isPathClear_loop_Some (k : nat) (b : Board) rs cs tr tc :
  ∀ cr cc m, 0 <= m <= Z.of_nat k →
    tr = cr + m * rs → tc = cc + m * cs →
    ∃ v, isPathClear_loop k b rs cs tr tc cr cc = Some v.
Proof.
  induction k as [|k IH]; intros cr cc m Hm Hr Hc; simpl.
  - assert (m = 0) as -> by lia.
    replace (cr =? tr) with true by lia. replace (cc =? tc) with true by lia.
    simpl. eauto.
  - destruct (negb (cr =? tr) || negb (cc =? tc)) eqn:Hcond; [|eauto].
    destruct (getSq b cr cc); [eauto|].
    assert (m ≠ 0) as Hm0.
    { intros ->.
      replace (cr =? tr) with true in Hcond by lia.
      replace (cc =? tc) with true in Hcond by lia. done. }
    apply (IH _ _ (m - 1)); lia.
Qed.

Lemma isPathClear_Some (b : Board) fr fc tr tc :
  fr = tr ∨ fc = tc ∨ Z.abs (tr - fr) = Z.abs (tc - fc) →
  ∃ v, isPathClear b fr fc tr tc = Some v.
Proof.
  intros Hal. unfold isPathClear.
  set (d := Z.max (Z.abs (tr - fr)) (Z.abs (tc - fc))).
  destruct (decide (d = 0)) as [Hd|Hd].
  - apply (isPathClear_loop_Some _ _ _ _ _ _ _ _ 0); unfold stepToward;
      repeat case_match; lia.
  - apply (isPathClear_loop_Some _ _ _ _ _ _ _ _ (d - 1)); unfold stepToward;
      repeat case_match; lia.
Qed.

Lemma isRookMoveValid_Some (b : Board) fr fc tr tc :
  ∃ v, isRookMoveValid b fr fc tr tc = Some v.
Proof.
  unfold isRookMoveValid.
  destruct (negb (fr =? tr) && negb (fc =? tc)) eqn:H; [eauto|].
  apply isPathClear_Some.
  destruct (fr =? tr) eqn:H1; [left; lia|].
  destruct (fc =? tc) eqn:H2; [right; left; lia|]. done.
Qed.

Lemma isBishopMoveValid_Some (b : Board) fr fc tr tc :
  ∃ v, isBishopMoveValid b fr fc tr tc = Some v.
Proof.
  unfold isBishopMoveValid.
  destruct (negb (Z.abs (tr - fr) =? Z.abs (tc - fc))) eqn:H; [eauto|].
  apply isPathClear_Some. right; right.
  apply negb_false_iff in H. lia.
Qed.

Lemma isPawnMoveValid_Some (g : Game) fr fc tr tc p :
  getSq (board g) fr fc = Some p →
  ∃ v, isPawnMoveValid g fr fc tr tc = Some v.
Proof.
  intros H. unfold isPawnMoveValid. rewrite H.
  repeat case_match; eauto.
Qed.

(** ** Computations that leave the game as it was *)

Lemma steady_ret {I A} (a : A) g : steady (λ _ : I, ret a) g.
Proof. by exists a. Qed.

Lemma steady_ask {I A} (f : Game → A) g : steady (λ _ : I, ask f) g.
Proof. by exists (f g). Qed.

Lemma steady_askOpt {I A} (f : Game → option A) g :
  (∃ a, f g = Some a) → steady (λ _ : I, askOpt f) g.
Proof. intros [a Ha]. exists a. intros _. unfold askOpt. by rewrite Ha. Qed.

Lemma steady_bind {I A B} (m : I → M A) (k : I → A → M B) g :
  steady m g → (∀ a, steady (λ i, k i a) g) →
  steady (λ i, bind (m i) (k i)) g.
Proof.
  intros [a Ha] Hk. destruct (Hk a) as [b Hb].
  exists b. intros i. unfold bind. by rewrite Ha.
Qed.

Lemma steady_ask_bind {I A B} (f : Game → A) (k : I → A → M B) g :
  steady (λ i, k i (f g)) g →
  steady (λ i, bind (ask f) (k i)) g.
Proof. intros [b Hb]. exists b. intros i. apply Hb. Qed.

Lemma steady_existsM {I X} (test : I → X → M bool) (l : list X) g :
  (∀ x, x ∈ l → steady (λ i, test i x) g) →
  steady (λ i, existsM (test i) l) g.
Proof.
  induction l as [|x l IH]; intros H; simpl.
  - apply steady_ret.
  - apply steady_bind.
    + apply H. left.
    + intros [|]; [apply steady_ret|]. apply IH. intros y Hy. apply H. by right.
Qed.

Lemma steady_filterM {I X} (test : I → X → M bool) (l : list X) g :
  (∀ x, x ∈ l → steady (λ i, test i x) g) →
  steady (λ i, filterM (test i) l) g.
Proof.
  induction l as [|x l IH]; intros H; simpl.
  - apply steady_ret.
  - apply steady_bind.
    + apply H. left.
    + intros keep. apply steady_bind.
      * apply IH. intros y Hy. apply H. by right.
      * intros kept. apply steady_ret.
Qed.

Lemma withBoard_withBoard g b b' : withBoard (withBoard g b) b' = withBoard g b'.
Proof. done. Qed.

Lemma result_inj {A} (a a' : A) (g g' : Game) :
  Some (a, g) = Some (a', g') → a = a'.
Proof. congruence. Qed.

Lemma withBoard_board g : withBoard g (board g) = g.
Proof. by destruct g. Qed.

(** ** Attack detection returns, and the nesting is bounded *)

Lemma existsM_occupied (g : Game) (r : Z) (l : list Z) :
  existsM (λ col, c <~ readBoard r col;; ret (occupied c)) l g
  = Some (existsb (λ col, occupied (getSq (board g) r col)) l, g).
Proof.
  induction l as [|x l IH]; simpl; [done|].
  unfold bind at 1. unfold bind at 1. unfold readBoard, ask, ret at 1.
  simpl. destruct (occupied (getSq (board g) r x)); simpl; [done|apply IH].
Qed.

(** [canCastle] towards a square that holds a king answers [false]
    before it asks for any attack: that square is the rook's corner or
    lies between the king and the corner. *)
Lemma canCastle_king_target att (g : Game) fr fc tr tc pc p :
  wf_board (board g) →
  getSq (board g) fr fc = Some pc →
  getSq (board g) fr tc = Some p → ptype p = king →
  Z.abs (tc - fc) = 2 →
  canCastleWith att fr fc tr tc g = Some (false, g).
Proof.
  intros Hwf Hpc Hp Hking Hd.
  destruct (getSq_Some_on_board _ _ _ _ Hwf Hp) as [_ Htc].
  unfold canCastleWith. unfold bind at 1. unfold readBoard at 1, ask. simpl.
  rewrite Hpc. destruct (hasMoved pc); [done|].
  unfold bind at 1. unfold readBoard at 1, ask. simpl.
  destruct (negb (rookReady (getSq (board g) fr (if tc >? fc then 7 else 0))))
    eqn:Hrook; [done|].
  unfold bind at 1. simpl.
  destruct (negb (castlingRight g (pcolor pc) (tc >? fc))); [done|].
  unfold bind at 1. rewrite existsM_occupied.
  match goal with |- (if ?b then _ else _) _ = _ =>
    assert (b = true) as -> end; [|done].
  apply existsb_exists. exists tc. split.
  - apply list_elem_of_In, elem_of_seqZ.
    assert (tc ≠ (if tc >? fc then 7 else 0)) as Hne.
    { intros Heq. rewrite <- Heq, Hp in Hrook. simpl in Hrook.
      rewrite Hking in Hrook. done. }
    destruct (tc >? fc) eqn:Hks; lia.
  - by rewrite Hp.
Qed.

Section Steady.

Context {I : Type}.
Variable at_ : I → Z → Z → Color → M bool.

(** The movement test of a piece returns once [canCastle] does. *)
Lemma isPieceMovementValid_steady (g : Game) t fr fc tr tc pc :
  getSq (board g) fr fc = Some pc →
  (t = king → tr = fr → Z.abs (tc - fc) = 2 →
   steady (λ i, canCastleWith (at_ i) fr fc tr tc) g) →
  steady (λ i, isPieceMovementValidWith (at_ i) t fr fc tr tc) g.
Proof.
  intros Hpc Hcastle. unfold isPieceMovementValidWith. destruct t.
  - apply steady_askOpt. by eapply isPawnMoveValid_Some.
  - apply steady_ret.
  - apply steady_askOpt, isBishopMoveValid_Some.
  - apply steady_askOpt, isRookMoveValid_Some.
  - apply steady_bind; [apply steady_askOpt, isRookMoveValid_Some|].
    intros [|]; [apply steady_ret|apply steady_askOpt, isBishopMoveValid_Some].
  - unfold isKingMoveValidWith.
    destruct ((Z.abs (tr - fr) <=? 1) && (Z.abs (tc - fc) <=? 1));
      [apply steady_ret|].
    destruct ((Z.abs (tr - fr) =? 0) && (Z.abs (tc - fc) =? 2)) eqn:H;
      [|apply steady_ret].
    apply Hcastle; [done|lia|lia].
Qed.

Lemma attackFrom_steady (g : Game) row col by_ from :
  (∀ pc, getSq (board g) from.1 from.2 = Some pc → ptype pc = king →
     row = from.1 → Z.abs (col - from.2) = 2 →
     steady (λ i, canCastleWith (at_ i) from.1 from.2 row col) g) →
  steady (λ i, attackFrom (at_ i) row col by_ from) g.
Proof.
  intros Hcastle. unfold attackFrom. apply steady_ask_bind.
  destruct (getSq (board g) from.1 from.2) as [pc|] eqn:Hpc;
    [|apply steady_ret].
  destruct (Color_eqb (pcolor pc) by_); [|apply steady_ret].
  eapply isPieceMovementValid_steady; eauto.
Qed.

End Steady.

Lemma attacked_king_target {I} (at_ : I → Z → Z → Color → M bool)
    (g : Game) row col by_ p :
  wf_board (board g) →
  getSq (board g) row col = Some p → ptype p = king →
  steady (λ i, isSquareAttackedBody (at_ i) row col by_) g.
Proof.
  intros Hwf Hp Hking. unfold isSquareAttackedBody.
  apply steady_existsM. intros from _. apply attackFrom_steady.
  intros pc Hpc _ -> Hd. exists false. intros i.
  by eapply canCastle_king_target.
Qed.

Lemma findKing_Some (b : Board) color r c :
  findKing b color = Some (r, c) →
  ∃ p, getSq b r c = Some p ∧ ptype p = king ∧ pcolor p = color.
Proof.
  unfold findKing. intros H. apply find_some in H as [_ H]. simpl in H.
  unfold isKingOf in H. destruct (getSq b r c) as [p|]; [|done].
  exists p. apply andb_prop in H as [H1 H2].
  destruct (ptype p); try done. destruct (pcolor p), color; done.
Qed.

Lemma findKing_None (b : Board) color r c p :
  findKing b color = None → on_board r c →
  getSq b r c = Some p → ptype p = king → pcolor p ≠ color.
Proof.
  unfold findKing. intros H [Hr Hc] Hp Hk Hcol.
  pose proof (find_none _ _ H (r, c)) as Hn. simpl in Hn.
  rewrite Hp in Hn. simpl in Hn. rewrite Hk, Hcol in Hn.
  assert (Color_eqb color color = true) as Hcc by (by destruct color).
  rewrite Hcc in Hn. simpl in Hn.
  assert (In (r, c) allSquares) as Hin.
  { unfold allSquares. apply in_flat_map. exists r. split.
    - apply list_elem_of_In, elem_of_seqZ. lia.
    - apply in_map. apply list_elem_of_In, elem_of_seqZ. lia. }
  specialize (Hn Hin). done.
Qed.

Lemma restore_move (b : Board) fr fc tr tc :
  setSq (setSq (setSq (setSq b tr tc (getSq b fr fc)) fr fc None)
               fr fc (getSq b fr fc))
        tr tc (getSq b tr tc) = b.
Proof.
  rewrite setSq_setSq.
  destruct (decide (tr = fr ∧ tc = fc)) as [[-> ->]|Hne].
  - rewrite !setSq_setSq. apply setSq_getSq.
  - rewrite (setSq_comm _ tr tc) by (destruct (decide (tr = fr)); [right|left]; naive_solver).
    rewrite setSq_getSq, setSq_setSq. apply setSq_getSq.
Qed.

Section Bounded.

Context {I : Type}.
Variable at_ : I → Z → Z → Color → M bool.

(** The inner call returns on a square that holds a king. *)
Hypothesis at_king : ∀ (g : Game) row col by_ p,
  wf_board (board g) →
  getSq (board g) row col = Some p → ptype p = king →
  steady (λ i, at_ i row col by_) g.

Lemma isInCheck_steady (g : Game) color :
  wf_board (board g) → steady (λ i, isInCheckWith (at_ i) color) g.
Proof.
  intros Hwf. unfold isInCheckWith. apply steady_ask_bind.
  destruct (findKing (board g) color) as [[r c]|] eqn:Hk; [|apply steady_ret].
  destruct (findKing_Some _ _ _ _ Hk) as (p & Hp & Hking & _).
  by eapply at_king.
Qed.

Lemma wouldBeInCheck_steady (g : Game) color kr kc :
  wf_board (board g) → on_board kr kc →
  steady (λ i, wouldBeInCheckWith (at_ i) color kr kc) g.
Proof.
  intros Hwf Hon.
  set (g1 := withBoard g (setSq (board g) kr kc (Some (mkPiece king color false)))).
  destruct (at_king g1 kr kc (opposite color) (mkPiece king color false))
    as [b Hb].
  - by apply wf_setSq.
  - simpl. by apply getSq_setSq_same.
  - done.
  - exists b. intros i. unfold wouldBeInCheckWith, bind, readBoard, writeBoard, ask.
    simpl. fold g1. rewrite Hb. unfold ret. simpl.
    rewrite setSq_setSq, setSq_getSq. unfold g1.
    by rewrite withBoard_withBoard, withBoard_board.
Qed.

Lemma canCastle_steady (g : Game) fr fc tr tc pc :
  wf_board (board g) →
  getSq (board g) fr fc = Some pc →
  0 <= tc <= 7 → Z.abs (tc - fc) = 2 →
  steady (λ i, canCastleWith (at_ i) fr fc tr tc) g.
Proof.
  intros Hwf Hpc Htc Hd.
  destruct (getSq_Some_on_board _ _ _ _ Hwf Hpc) as [Hfr Hfc].
  unfold canCastleWith. apply steady_ask_bind. rewrite Hpc.
  destruct (hasMoved pc); [apply steady_ret|].
  apply steady_ask_bind.
  destruct (negb (rookReady _)); [apply steady_ret|].
  apply steady_ask_bind.
  destruct (negb (castlingRight _ _ _)); [apply steady_ret|].
  apply steady_bind.
  { eexists. intros _. apply existsM_occupied. }
  intros [|]; [apply steady_ret|].
  apply steady_bind; [by apply isInCheck_steady|].
  intros [|]; [apply steady_ret|].
  apply steady_bind.
  - apply steady_existsM. intros i Hi. apply elem_of_seqZ in Hi.
    apply wouldBeInCheck_steady; [done|].
    split; [done|]. destruct (tc >? fc) eqn:Hks; lia.
  - intros [|]; apply steady_ret.
Qed.

Lemma isSquareAttacked_steady (g : Game) row col by_ :
  wf_board (board g) → on_board row col →
  steady (λ i, isSquareAttackedBody (at_ i) row col by_) g.
Proof.
  intros Hwf [Hr Hc]. unfold isSquareAttackedBody.
  apply steady_existsM. intros from _. apply attackFrom_steady.
  intros pc Hpc _ -> Hd. by eapply canCastle_steady.
Qed.

Lemma wouldLeaveKingInCheck_steady (g : Game) fr fc tr tc pc :
  wf_board (board g) →
  getSq (board g) fr fc = Some pc →
  steady (λ i, wouldLeaveKingInCheckWith (at_ i) fr fc tr tc) g.
Proof.
  intros Hwf Hpc.
  set (g2 := withBoard g (setSq (setSq (board g) tr tc (Some pc)) fr fc None)).
  destruct (isInCheck_steady g2 (pcolor pc)) as [b Hb].
  { simpl. by do 2 apply wf_setSq. }
  exists b. intros i.
  unfold wouldLeaveKingInCheckWith, bind, readBoard, writeBoard, ask.
  simpl. rewrite Hpc. fold g2. rewrite Hb. unfold ret. simpl.
  rewrite <- Hpc. rewrite restore_move. unfold g2.
  by rewrite !withBoard_withBoard, withBoard_board.
Qed.

Lemma isValidMove_steady (g : Game) fr fc tr tc :
  wf_board (board g) →
  steady (λ i, isValidMoveWith (at_ i) fr fc tr tc) g.
Proof.
  intros Hwf. unfold isValidMoveWith.
  apply steady_ask_bind. apply steady_ask_bind.
  destruct (getSq (board g) fr fc) as [pc|] eqn:Hpc; [|apply steady_ret].
  destruct (negb (Color_eqb _ _)); [apply steady_ret|].
  destruct ((tr <? 0) || (tr >? 7) || (tc <? 0) || (tc >? 7)) eqn:Hrange;
    [apply steady_ret|].
  apply steady_ask_bind.
  destruct (hasColor _ _); [apply steady_ret|].
  apply steady_bind.
  - eapply isPieceMovementValid_steady; [done|].
    intros _ _ Hd. eapply canCastle_steady; eauto. lia.
  - intros [|]; simpl; [|apply steady_ret].
    apply steady_bind; [by eapply wouldLeaveKingInCheck_steady|].
    intros [|]; apply steady_ret.
Qed.

End Bounded.

(** One level of nesting is enough on a square that holds a king, two
    levels on every square of the board. *)
Lemma isSquareAttackedN_king (g : Game) row col by_ p :
  wf_board (board g) →
  getSq (board g) row col = Some p → ptype p = king →
  steady (λ n, isSquareAttackedN (S n) row col by_) g.
Proof.
  intros Hwf Hp Hk. simpl.
  by eapply (attacked_king_target isSquareAttackedN).
Qed.

Lemma isSquareAttackedN_steady (g : Game) row col by_ :
  wf_board (board g) → on_board row col →
  steady (λ n, isSquareAttackedN (S (S n)) row col by_) g.
Proof.
  intros Hwf Hon.
  apply (isSquareAttacked_steady (λ n, isSquareAttackedN (S n))); [|done..].
  intros. by eapply isSquareAttackedN_king.
Qed.

Lemma isInCheckN_steady (g : Game) color :
  wf_board (board g) → steady (λ n, isInCheck (S n) color) g.
Proof.
  intros Hwf.
  apply (isInCheck_steady (λ n, isSquareAttackedN (S n))); [|done].
  intros. by eapply isSquareAttackedN_king.
Qed.

Lemma wouldBeInCheckN_steady (g : Game) color kr kc :
  wf_board (board g) → on_board kr kc →
  steady (λ n, wouldBeInCheck (S n) color kr kc) g.
Proof.
  intros Hwf Hon.
  apply (wouldBeInCheck_steady (λ n, isSquareAttackedN (S n))); [|done..].
  intros. by eapply isSquareAttackedN_king.
Qed.

Lemma canCastleN_steady (g : Game) fr fc tr tc pc :
  wf_board (board g) →
  getSq (board g) fr fc = Some pc →
  0 <= tc <= 7 → Z.abs (tc - fc) = 2 →
  steady (λ n, canCastle (S n) fr fc tr tc) g.
Proof.
  intros Hwf Hpc Htc Hd.
  eapply (canCastle_steady (λ n, isSquareAttackedN (S n))); [|done..].
  intros. by eapply isSquareAttackedN_king.
Qed.

Lemma isValidMoveN_steady (g : Game) fr fc tr tc :
  wf_board (board g) → steady (λ n, isValidMove (S n) fr fc tr tc) g.
Proof.
  intros Hwf.
  apply (isValidMove_steady (λ n, isSquareAttackedN (S n))); [|done].
  intros. by eapply isSquareAttackedN_king.
Qed.

Lemma getValidMoves_steady (g : Game) row col :
  wf_board (board g) → steady (λ n, getValidMoves (S n) row col) g.
Proof.
  intros Hwf. unfold getValidMoves. apply steady_ask_bind.
  destruct (getSq (board g) row col); [|apply steady_ret].
  apply steady_filterM. intros to _. by apply isValidMoveN_steady.
Qed.


Lemma on_board_allSquares r c : on_board r c → (r, c) ∈ allSquares.
Proof.
  intros [Hr Hc]. apply list_elem_of_In. unfold allSquares.
  apply in_flat_map. exists r. split.
  - apply list_elem_of_In, elem_of_seqZ. lia.
  - apply in_map. apply list_elem_of_In, elem_of_seqZ. lia.
Qed.

Lemma allSquares_on_board sq : sq ∈ allSquares → on_board sq.1 sq.2.
Proof.
  intros H. apply list_elem_of_In in H. unfold allSquares in H.
  apply in_flat_map in H as (r & Hr & H).
  apply in_map_iff in H as (c & <- & Hc).
  apply list_elem_of_In, elem_of_seqZ in Hr.
  apply list_elem_of_In, elem_of_seqZ in Hc.
  unfold on_board. simpl. lia.
Qed.

(** ** Claims *)

(** C5. Evaluating isValidMove on a game with an 8x8 board returns, for
    every origin in a row of the board, every destination (on the board
    or not) and any bound of at least one on the nesting, one and the
    same answer and the game exactly as it was before the call: board,
    player, castling rights, en-passant target, scores, captured pieces
    and history.  The simulations inside the call restore the board, and
    a rejected move leaves the whole game unchanged. *)
Theorem isValidMove_restores_game (g : Game) (fromRow fromCol toRow toCol : Z) :
  wf_board (board g) → 0 <= fromRow <= 7 →
  ∃ answer, ∀ n,
    isValidMove (S n) fromRow fromCol toRow toCol g = Some (answer, g).
Proof. intros Hwf _. by apply isValidMoveN_steady. Qed.

Lemma isValidMove_restores_game_witness :
  ∃ answer, ∀ n,
    isValidMove (S n) 3 3 2 4 (theGame pinnedEnPassant)
    = Some (answer, theGame pinnedEnPassant).
Proof.
  apply (isValidMove_restores_game (theGame pinnedEnPassant) 3 3 2 4).
  - split; [reflexivity|]. vm_compute. repeat constructor.
  - lia.
Defined.

(** C3. canCastle, called as isKingMoveValid calls it (two columns
    aside, destination on the board), returns false whenever the moving
    piece has moved, or the corner of that side holds no rook or a rook
    that has moved, or the castling right of that side is false, or a
    square strictly between king and corner is occupied, or isInCheck
    finds the king attacked (as it does when the moving piece is the king
    that findKing finds and its square is attacked by the other color),
    or wouldBeInCheck finds the king attacked on the first or on the
    second square it crosses. *)
Theorem canCastle_rejects (n : nat) (g : Game)
    (fromRow fromCol toRow toCol : Z) (piece : Piece) :
  wf_board (board g) →
  getSq (board g) fromRow fromCol = Some piece →
  0 <= toCol <= 7 → Z.abs (toCol - fromCol) = 2 →
  let isKingside := toCol >? fromCol in
  let rookCol := if isKingside then 7 else 0 in
  let step := if isKingside then 1 else -1 in
  hasMoved piece = true
  ∨ getSq (board g) fromRow rookCol = None
  ∨ (∃ r, getSq (board g) fromRow rookCol = Some r
          ∧ (ptype r ≠ rook ∨ hasMoved r = true))
  ∨ castlingRight g (pcolor piece) isKingside = false
  ∨ (∃ col, Z.min fromCol rookCol < col < Z.max fromCol rookCol
            ∧ occupied (getSq (board g) fromRow col) = true)
  ∨ isInCheck (S n) (pcolor piece) g = Some (true, g)
  ∨ (findKing (board g) (pcolor piece) = Some (fromRow, fromCol)
     ∧ isSquareAttackedN (S n) fromRow fromCol (opposite (pcolor piece)) g
       = Some (true, g))
  ∨ wouldBeInCheck (S n) (pcolor piece) fromRow (fromCol + step) g
    = Some (true, g)
  ∨ wouldBeInCheck (S n) (pcolor piece) fromRow (fromCol + 2 * step) g
    = Some (true, g)
  →
  canCastle (S n) fromRow fromCol toRow toCol g = Some (false, g).
Proof.
  intros Hwf Hpc Htc Hd isKingside rookCol step Hcond.
  destruct (getSq_Some_on_board _ _ _ _ Hwf Hpc) as [Hfr Hfc].
  destruct (isInCheckN_steady g (pcolor piece) Hwf) as [chk Hchk].
  destruct (wouldBeInCheckN_steady g (pcolor piece) fromRow (fromCol + step))
    as [w1 Hw1]; [done|split; [done|subst step isKingside; case_match; lia]|].
  destruct (wouldBeInCheckN_steady g (pcolor piece) fromRow (fromCol + 2 * step))
    as [w2 Hw2]; [done|split; [done|subst step isKingside; case_match; lia]|].
  specialize (Hchk n). specialize (Hw1 n). specialize (Hw2 n).
  unfold isInCheck in Hchk. unfold wouldBeInCheck in Hw1, Hw2.
  unfold canCastle, canCastleWith.
  unfold bind at 1. unfold readBoard at 1, ask. cbv beta iota. rewrite Hpc.
  destruct (hasMoved piece) eqn:Hmoved; [done|].
  unfold bind at 1. unfold readBoard at 1, ask. cbv beta iota.
  fold isKingside. fold rookCol.
  destruct (negb (rookReady (getSq (board g) fromRow rookCol))) eqn:Hrook;
    [done|].
  unfold bind at 1. cbv beta iota.
  destruct (negb (castlingRight g (pcolor piece) isKingside)) eqn:Hright;
    [done|].
  unfold bind at 1. rewrite existsM_occupied.
  match goal with |- (if ?b then _ else _) _ = _ =>
    destruct b eqn:Hblocked end; [done|].
  unfold bind at 1. rewrite Hchk.
  destruct chk; [done|].
  unfold bind at 1. change (seqZ 1 2) with [1; 2]. cbn [existsM].
  unfold bind at 1. fold step.
  replace (fromCol + 1 * step) with (fromCol + step) by lia.
  rewrite Hw1. destruct w1; [done|].
  unfold bind at 1. rewrite Hw2. destruct w2; [done|].
  exfalso.
  apply negb_false_iff in Hrook. apply negb_false_iff in Hright.
  destruct Hcond as [H|[H|[H|[H|[H|[H|[H|[H|H]]]]]]]].
  - done.
  - rewrite H in Hrook. done.
  - destruct H as (r & Hr & Hbad). rewrite Hr in Hrook. simpl in Hrook.
    apply andb_prop in Hrook as [Ht Hm].
    destruct Hbad as [Hbad|Hbad].
    + destruct (ptype r); done.
    + rewrite Hbad in Hm. done.
  - congruence.
  - destruct H as (col & Hcol & Hocc).
    assert (existsb (λ col, occupied (getSq (board g) fromRow col))
              (seqZ (Z.min fromCol rookCol + 1)
                    (Z.max fromCol rookCol - (Z.min fromCol rookCol + 1)))
            = true) as Hex.
    { apply existsb_exists. exists col. split; [|done].
      apply list_elem_of_In, elem_of_seqZ. lia. }
    congruence.
  - unfold isInCheck in H. congruence.
  - destruct H as [Hk Ha]. unfold isInCheckWith, bind, ask in Hchk.
    rewrite Hk in Hchk. congruence.
  - unfold wouldBeInCheck in H. congruence.
  - unfold wouldBeInCheck in H. congruence.
Qed.

Lemma canCastle_rejects_witness :
  canCastle 1 7 4 7 6 initialGame = Some (false, initialGame).
Proof.
  apply (canCastle_rejects 0 initialGame 7 4 7 6 (mkPiece king white false)).
  - split; [reflexivity|]. repeat constructor.
  - reflexivity.
  - lia.
  - reflexivity.
  - do 4 right. left. exists 5. split; [simpl; lia|reflexivity].
Defined.

(** The two loops over the pieces of a color see the same moves:
    the loop of isCheckmate and isStalemate finds a piece with a valid
    move exactly when getAllValidMoves collects some move. *)
Lemma moves_scan (g : Game) (color : Color) (l : list Square) :
  wf_board (board g) →
  ∃ (some : bool) (ms : list Move),
    (∀ n, existsM (hasValidMove (S n) color) l g = Some (some, g)) ∧
    (∀ n, collectMoves (S n) color l g = Some (ms, g)) ∧
    (some = false ↔ ms = []).
Proof.
  intros Hwf. induction l as [|from rest IH].
  - exists false, []. done.
  - destruct IH as (some' & ms' & Hsome & Hms & Hiff).
    destruct (getValidMoves_steady g from.1 from.2 Hwf) as [vm Hvm].
    destruct (hasColor (getSq (board g) from.1 from.2) color) eqn:Hcol.
    + exists (if negb (bool_decide (vm = [])) then true else some'),
             (map (mkMove from) vm ++ ms').
      split; [|split].
      * intros n. simpl. unfold hasValidMove.
        unfold bind at 1. unfold bind at 1. unfold readBoard, ask.
        cbv beta iota. rewrite Hcol. unfold bind at 1. rewrite Hvm.
        unfold ret at 1. cbv beta iota.
        destruct (negb (bool_decide (vm = []))); [done|apply Hsome].
      * intros n. simpl.
        unfold bind at 1. unfold readBoard, ask. cbv beta iota.
        rewrite Hcol. unfold bind at 1. unfold bind at 1. rewrite Hvm.
        unfold ret at 1. cbv beta iota. unfold bind. rewrite Hms. done.
      * destruct vm as [|m vm]; simpl; [done|]. split; done.
    + exists some', ms'. split; [|split]; [| |done].
      * intros n. simpl. unfold hasValidMove.
        unfold bind at 1. unfold bind at 1. unfold readBoard, ask.
        cbv beta iota. rewrite Hcol. unfold ret at 1. cbv beta iota.
        apply Hsome.
      * intros n. simpl.
        unfold bind at 1. unfold readBoard, ask. cbv beta iota.
        rewrite Hcol. unfold bind at 1. unfold ret at 1. cbv beta iota.
        unfold bind. rewrite Hms. done.
Qed.

(** C4. On a game with an 8x8 board and for every color c,
    isCheckmate(c), isStalemate(c) and getAllValidMoves(c) return and
    leave the game as it was; isCheckmate(c) and isStalemate(c) are not
    both true; and when either is true, getAllValidMoves(c) is the empty
    list. *)
Theorem checkmate_stalemate_exclusive (g : Game) (c : Color) :
  wf_board (board g) →
  ∃ (mate stale : bool) (moves : list Move),
    (∀ n, isCheckmate (S n) c g = Some (mate, g)) ∧
    (∀ n, isStalemate (S n) c g = Some (stale, g)) ∧
    (∀ n, getAllValidMoves (S n) c g = Some (moves, g)) ∧
    ¬ (mate = true ∧ stale = true) ∧
    (mate = true ∨ stale = true → moves = []).
Proof.
  intros Hwf.
  destruct (isInCheckN_steady g c Hwf) as [chk Hchk].
  destruct (moves_scan g c allSquares Hwf) as (some & ms & Hsome & Hms & Hiff).
  exists (if negb chk then false else if some then false else true),
         (if chk then false else if some then false else true), ms.
  split; [|split; [|split; [|split]]].
  - intros n. unfold isCheckmate, bind. rewrite Hchk.
    destruct chk; cbn [negb]; [|done]. rewrite Hsome. by destruct some.
  - intros n. unfold isStalemate, bind. rewrite Hchk.
    destruct chk; [done|]. rewrite Hsome. by destruct some.
  - intros n. apply Hms.
  - destruct chk, some; simpl; intros [? ?]; done.
  - destruct chk, some; simpl; intros [?|?]; try done; by apply Hiff.
Qed.

Lemma checkmate_stalemate_exclusive_witness :
  (∀ n, isCheckmate (S n) white (theGame foolsMate)
        = Some (true, theGame foolsMate)) ∧
  (∀ n, isStalemate (S n) white (theGame foolsMate)
        = Some (false, theGame foolsMate)) ∧
  (∀ n, getAllValidMoves (S n) white (theGame foolsMate)
        = Some ([], theGame foolsMate)).
Proof.
  destruct (checkmate_stalemate_exclusive (theGame foolsMate) white)
    as (mate & stale & moves & Hmate & Hstale & Hmoves & Hexcl & Hempty).
  { split; [reflexivity|]. vm_compute. repeat constructor. }
  assert (isCheckmate 1 white (theGame foolsMate)
          = Some (true, theGame foolsMate)) as Hrun
    by (vm_compute; reflexivity).
  rewrite Hmate in Hrun. apply result_inj in Hrun as ->.
  rewrite (Hempty (or_introl eq_refl)) in Hmoves.
  destruct stale; [exfalso; by apply Hexcl|].
  split; [exact Hmate|]. split; [exact Hstale|exact Hmoves].
Defined.

Lemma attackFromN_steady (g : Game) row col by_ from :
  wf_board (board g) → on_board row col →
  steady (λ n, attackFrom (isSquareAttackedN (S n)) row col by_ from) g.
Proof.
  intros Hwf [Hr Hc]. apply attackFrom_steady.
  intros pc Hpc _ -> Hd.
  eapply (canCastle_steady (λ n, isSquareAttackedN (S n))); [|done..].
  intros. by eapply isSquareAttackedN_king.
Qed.


Lemma Color_eqb_refl c : Color_eqb c c = true.
Proof. by destruct c. Qed.




(** ** Executing moves *)

Lemma bind_Some {A B} (m : M A) (k : A → M B) g b g' :
  bind m k g = Some (b, g') →
  ∃ a g1, m g = Some (a, g1) ∧ k a g1 = Some (b, g').
Proof.
  unfold bind. destruct (m g) as [[a g1]|]; [|done]. eauto.
Qed.

Ltac bind_inv H :=
  let a := fresh "a" in
  let g := fresh "g" in
  let Hm := fresh "Hm" in
  apply bind_Some in H as (a & g & Hm & H);
  first [ progress unfold readBoard, ask in Hm
        | progress unfold ask in Hm
        | progress unfold writeBoard in Hm
        | idtac ];
  try (injection Hm as <- <-).

Lemma sameTrack_refl g : sameTrack g g.
Proof. done. Qed.

Lemma sameTrack_trans g1 g2 g3 :
  sameTrack g1 g2 → sameTrack g2 g3 → sameTrack g1 g3.
Proof.
  intros (He & Hh & Hw) (He' & Hh' & Hw').
  split; [congruence|]. split; [congruence|auto].
Qed.

Lemma sameTrack_withBoard g r c v :
  sameTrack g (withBoard g (setSq (board g) r c v)).
Proof. split; [done|]. split; [done|]. apply wf_setSq. Qed.

Lemma sameTrack_capture g g' p :
  capturePiece p g = Some (tt, g') → sameTrack g g'.
Proof. unfold capturePiece, modify. intros H. by simplify_eq. Qed.

Lemma handleSpecialMoves_inv (g g' : Game) fr fc tr tc :
  handleSpecialMoves fr fc tr tc g = Some (tt, g') →
  ∃ g1, sameTrack g g1 ∧
        scores g1 = scores g ∧ capturedPieces g1 = capturedPieces g ∧
        ((∃ p, capturePiece p g1 = Some (tt, g') ∨
               ∃ g2, capturePiece p g1 = Some (tt, g2) ∧
                     ∃ r c, g' = withBoard g2 (setSq (board g2) r c None))
         ∨ g' = g1).
Proof.
  intros H. unfold handleSpecialMoves in H.
  bind_inv H.
  destruct (getSq (board g) fr fc) as [piece|]; [|done].
  apply bind_Some in H as ([] & g1 & Hcastle & H).
  assert (sameTrack g g1 ∧ scores g1 = scores g
          ∧ capturedPieces g1 = capturedPieces g) as (Ht & Hs & Hc).
  { destruct (PieceType_eqb (ptype piece) king && (Z.abs (tc - fc) =? 2)).
    - bind_inv Hcastle. bind_inv Hcastle. bind_inv Hcastle.
      destruct (getSq (board g) fr _) as [r|]; [|done].
      unfold writeBoard in Hcastle. injection Hcastle as <-.
      split; [|done].
      eapply sameTrack_trans; [apply sameTrack_withBoard|].
      eapply sameTrack_trans; [apply sameTrack_withBoard|].
      apply sameTrack_withBoard.
    - unfold ret in Hcastle. injection Hcastle as <-. done. }
  exists g1. split; [done|]. split; [done|]. split; [done|].
  bind_inv H.
  destruct (PieceType_eqb (ptype piece) pawn && isEnPassantTarget g1 tr tc).
  - bind_inv H.
    destruct (getSq (board g1) _ tc) as [p|]; [|done].
    apply bind_Some in H as ([] & g2 & Hcap & H).
    unfold writeBoard in H. injection H as <-.
    left. exists p. right. exists g2. split; [done|]. eauto.
  - unfold ret in H. injection H as <-. by right.
Qed.

Lemma sameTrack_handleSpecialMoves (g g' : Game) fr fc tr tc :
  handleSpecialMoves fr fc tr tc g = Some (tt, g') → sameTrack g g'.
Proof.
  intros H. apply handleSpecialMoves_inv in H
    as (g1 & Ht & _ & _ & [(p & [Hc|(g2 & Hc & r & c & ->)])| ->]).
  - eapply sameTrack_trans; [done|]. by eapply sameTrack_capture.
  - eapply sameTrack_trans; [done|].
    eapply sameTrack_trans; [by eapply sameTrack_capture|].
    apply sameTrack_withBoard.
  - done.
Qed.

(** The steps of makeMove after the special moves. *)
Lemma makeMove_inv (g g' : Game) fr fc tr tc :
  makeMove fr fc tr tc g = Some (tt, g') →
  ∃ piece g3 g4,
    getSq (board g) fr fc = Some piece ∧
    handleSpecialMoves fr fc tr tc g = Some (tt, g3) ∧
    match getSq (board g) tr tc with
    | Some p => capturePiece p g3 = Some (tt, g4)
    | None => g4 = g3
    end ∧
    board g' = setSq (setSq (board g4) tr tc (Some (markMoved piece))) fr fc None ∧
    scores g' = scores g4 ∧
    capturedPieces g' = capturedPieces g4 ∧
    moveHistory g' =
      moveHistory g4 ++ [mkRecord (fr, fc) (tr, tc) (ptype piece)
                           (getSq (board g) tr tc) (enPassantTarget g4)] ∧
    enPassantTarget g' =
      (if PieceType_eqb (ptype piece) pawn && (Z.abs (tr - fr) =? 2)
       then Some ((fr + tr) / 2, tc) else None).
Proof.
  intros H. unfold makeMove in H.
  bind_inv H. bind_inv H.
  apply bind_Some in H as ([] & g3 & Hspecial & H).
  destruct (getSq (board g) fr fc) as [piece|]; [|done].
  apply bind_Some in H as ([] & g4 & Htake & H).
  exists piece, g3, g4. split; [done|]. split; [done|].
  split.
  { destruct (getSq (board g) tr tc); [done|].
    unfold ret in Htake. by injection Htake as <-. }
  bind_inv H. bind_inv H.
  apply bind_Some in H as ([] & g7 & Hrights & H).
  unfold updateCastlingRights, modify in Hrights. injection Hrights as <-.
  bind_inv H.
  apply bind_Some in H as ([] & g8 & Hpush & H).
  unfold pushHistory, modify in Hpush. injection Hpush as <-.
  unfold updateEnPassantTarget, modify in H. injection H as <-.
  done.
Qed.

Lemma makeMove_wf (g g' : Game) fr fc tr tc :
  wf_board (board g) → makeMove fr fc tr tc g = Some (tt, g') →
  wf_board (board g').
Proof.
  intros Hwf H.
  apply makeMove_inv in H
    as (piece & g3 & g4 & _ & Hsp & Htake & -> & _).
  apply sameTrack_handleSpecialMoves in Hsp as (_ & _ & Hw3).
  do 2 apply wf_setSq.
  destruct (getSq (board g) tr tc).
  - apply sameTrack_capture in Htake as (_ & _ & Hw4). auto.
  - subst g4. auto.
Qed.

(** C6. After a makeMove to a square of the board that returns, with
    [piece] the piece that stood on the origin: the en-passant target is the square
    ((fromRow + toRow) / 2, toCol) when [piece] is a pawn and the move
    spans exactly two rows, and null otherwise; for a two-row move that
    the pawn rule accepts this is the square of the pawn's own column
    just in front of its origin, the one it skipped; and the history has
    one more record, which holds the en-passant target that was in force
    before the move. *)
Theorem makeMove_enPassantTarget (g g' : Game) (fromRow fromCol toRow toCol : Z) :
  on_board toRow toCol →
  makeMove fromRow fromCol toRow toCol g = Some (tt, g') →
  ∃ piece captured,
    getSq (board g) fromRow fromCol = Some piece ∧
    (enPassantTarget g' = Some ((fromRow + toRow) / 2, toCol)
       ∧ ptype piece = pawn ∧ Z.abs (toRow - fromRow) = 2
     ∨ enPassantTarget g' = None
       ∧ ¬ (ptype piece = pawn ∧ Z.abs (toRow - fromRow) = 2)) ∧
    (isPawnMoveValid g fromRow fromCol toRow toCol = Some true →
     Z.abs (toRow - fromRow) = 2 →
     toCol = fromCol ∧
     (fromRow + toRow) / 2 = fromRow + pawnDirection (pcolor piece) ∧
     toRow = fromRow + 2 * pawnDirection (pcolor piece)) ∧
    moveHistory g' =
      moveHistory g ++ [mkRecord (fromRow, fromCol) (toRow, toCol)
                          (ptype piece) captured (enPassantTarget g)].
Proof.
  intros _ H.
  apply makeMove_inv in H
    as (piece & g3 & g4 & Hpiece & Hsp & Htake & _ & _ & _ & Hhist & Hep).
  assert (sameTrack g g4) as (Hep4 & Hhist4 & _).
  { eapply sameTrack_trans; [by eapply sameTrack_handleSpecialMoves|].
    destruct (getSq (board g) toRow toCol).
    - by eapply sameTrack_capture.
    - subst g4. apply sameTrack_refl. }
  exists piece, (getSq (board g) toRow toCol).
  split; [done|]. split; [|split].
  - rewrite Hep.
    destruct (PieceType_eqb (ptype piece) pawn
              && (Z.abs (toRow - fromRow) =? 2)) eqn:Hc.
    + left. apply andb_prop in Hc as [Hc1 Hc2].
      split; [done|]. split; [by destruct (ptype piece)|lia].
    + right. split; [done|]. intros [Hp Hd]. rewrite Hp in Hc.
      cbn [PieceType_eqb andb] in Hc. lia.
  - intros Hvalid Hd. unfold isPawnMoveValid in Hvalid.
    rewrite Hpiece in Hvalid.
    assert (pawnDirection (pcolor piece) = 1 ∨ pawnDirection (pcolor piece) = -1)
      as Hdir by (destruct (pcolor piece); simpl; lia).
    assert (toCol = fromCol ∧
            toRow = fromRow + 2 * pawnDirection (pcolor piece)) as [Hcol Hrow].
    { cbv zeta in Hvalid.
      destruct (Z.abs (toCol - fromCol) =? 0) eqn:Hc0;
      destruct (toRow - fromRow =? pawnDirection (pcolor piece)) eqn:Hr1;
      destruct (toRow - fromRow =? 2 * pawnDirection (pcolor piece)) eqn:Hr2;
      try lia;
      rewrite ?andb_false_r in Hvalid; cbn [andb] in Hvalid;
      rewrite ?andb_false_r in Hvalid; done. }
    split; [done|]. split; [|done]. rewrite Hrow.
    destruct Hdir as [-> | ->].
    + replace (fromRow + (fromRow + 2 * 1)) with ((fromRow + 1) * 2) by lia.
      by rewrite Z.div_mul.
    + replace (fromRow + (fromRow + 2 * -1)) with ((fromRow + -1) * 2) by lia.
      by rewrite Z.div_mul.
  - by rewrite Hhist, Hhist4, Hep4.
Qed.

Lemma makeMove_enPassantTarget_witness :
  ∃ g', makeMove 6 4 4 4 initialGame = Some (tt, g') ∧
    ∃ piece captured,
      getSq (board initialGame) 6 4 = Some piece ∧
      (enPassantTarget g' = Some ((6 + 4) / 2, 4)
         ∧ ptype piece = pawn ∧ Z.abs (4 - 6) = 2
       ∨ enPassantTarget g' = None
         ∧ ¬ (ptype piece = pawn ∧ Z.abs (4 - 6) = 2)) ∧
      (isPawnMoveValid initialGame 6 4 4 4 = Some true →
       Z.abs (4 - 6) = 2 →
       4 = 4 ∧
       (6 + 4) / 2 = 6 + pawnDirection (pcolor piece) ∧
       4 = 6 + 2 * pawnDirection (pcolor piece)) ∧
      moveHistory g' =
        moveHistory initialGame ++ [mkRecord (6, 4) (4, 4)
                            (ptype piece) captured (enPassantTarget initialGame)].
Proof.
  eexists. split.
  - vm_compute. reflexivity.
  - apply (makeMove_enPassantTarget initialGame _ 6 4 4 4).
    + unfold on_board. lia.
    + vm_compute. reflexivity.
Defined.

(** ** Scores and captured pieces *)

Lemma capturedSum_app l p :
  capturedSum (l ++ [p]) = capturedSum l + pieceValues (ptype p).
Proof.
  induction l as [|q l IH]; simpl; [lia|]. unfold capturedSum in *. lia.
Qed.

Lemma tally_same (g g' : Game) :
  scores g' = scores g → capturedPieces g' = capturedPieces g →
  tally g → tally g'.
Proof. intros Hs Hc H C. rewrite Hs, Hc. apply H. Qed.

Lemma tally_capture (g g' : Game) p :
  tally g → capturePiece p g = Some (tt, g') → tally g'.
Proof.
  intros H Hc. unfold capturePiece, modify in Hc. injection Hc as <-.
  intros C. cbn [scores capturedPieces].
  destruct (H C) as [Hs Hf].
  destruct (pcolor p) eqn:Hp, C;
    cbn [opposite setByColor byColor ofWhite ofBlack] in *; try done.
  - rewrite capturedSum_app. split; [lia|].
    apply Forall_app. split; [done|]. by repeat constructor.
  - rewrite capturedSum_app. split; [lia|].
    apply Forall_app. split; [done|]. by repeat constructor.
Qed.

Lemma tally_handleSpecialMoves (g g' : Game) fr fc tr tc :
  tally g → handleSpecialMoves fr fc tr tc g = Some (tt, g') → tally g'.
Proof.
  intros H Hm. apply handleSpecialMoves_inv in Hm
    as (g1 & _ & Hs & Hc & [(p & [Hcap|(g2 & Hcap & r & c & ->)])| ->]).
  - eapply tally_capture; [|done]. by apply (tally_same g).
  - apply (tally_same g2); [done..|].
    eapply tally_capture; [|done]. by apply (tally_same g).
  - by apply (tally_same g).
Qed.

Lemma tally_makeMove (g g' : Game) fr fc tr tc :
  tally g → makeMove fr fc tr tc g = Some (tt, g') → tally g'.
Proof.
  intros H Hm. apply makeMove_inv in Hm
    as (piece & g3 & g4 & _ & Hsp & Htake & _ & Hs & Hc & _).
  apply (tally_same g4); [done..|].
  pose proof (tally_handleSpecialMoves _ _ _ _ _ _ H Hsp) as H3.
  destruct (getSq (board g) tr tc).
  - by eapply tally_capture.
  - by subst g4.
Qed.

(** C7 (amended). In every game the program can reach, the score of each
    color C is the sum of the piece values of the pieces in
    capturedPieces[C], and every piece in capturedPieces[C] has the color
    opposite to C: a captured piece is recorded, and scored, under the
    color that took it. *)
Theorem score_matches_captured (g : Game) :
  reachable g →
  ∀ C, byColor (scores g) C = capturedSum (byColor (capturedPieces g) C)
       ∧ Forall (λ p, pcolor p = opposite C) (byColor (capturedPieces g) C).
Proof.
  intros Hreach. change (tally g).
  induction Hreach as [|g n fr fc tr tc g' _ IH _ Hmove
                       |g g' _ IH Hswitch|g row col t g' _ IH Hprom].
  - intros []; by split.
  - by eapply tally_makeMove.
  - unfold switchPlayer, modify in Hswitch. injection Hswitch as <-.
    by apply (tally_same g).
  - unfold promote in Hprom. bind_inv Hprom.
    destruct (getSq (board g) row col); [|done].
    unfold writeBoard in Hprom. injection Hprom as <-.
    by apply (tally_same g).
Qed.

(** ** Playing from the start *)

Lemma reachable_wf (g : Game) : reachable g → wf_board (board g).
Proof.
  induction 1 as [|g n fr fc tr tc g' _ IH _ Hmove
                  |g g' _ IH Hswitch|g row col t g' _ IH Hprom].
  - apply wf_initialBoard.
  - by eapply makeMove_wf.
  - unfold switchPlayer, modify in Hswitch. by injection Hswitch as <-.
  - unfold promote in Hprom. bind_inv Hprom.
    destruct (getSq (board g) row col); [|done].
    unfold writeBoard in Hprom. injection Hprom as <-.
    by apply wf_setSq.
Qed.

Lemma endsGame_steady (g : Game) :
  wf_board (board g) → steady (λ n, endsGame (S n)) g.
Proof.
  intros Hwf. unfold endsGame. apply steady_ask_bind.
  destruct (moves_scan g (currentPlayer g) allSquares Hwf)
    as (some & ms & Hsome & _).
  apply steady_bind; [by apply isInCheckN_steady|].
  intros [|].
  - unfold isCheckmate. apply steady_bind; [by apply isInCheckN_steady|].
    intros [|]; cbn [negb]; [|apply steady_ret].
    apply steady_bind; [by exists some|]. intros [|]; apply steady_ret.
  - unfold isStalemate. apply steady_bind; [by apply isInCheckN_steady|].
    intros [|]; [apply steady_ret|].
    apply steady_bind; [by exists some|]. intros [|]; apply steady_ret.
Qed.

Lemma playMove_reachable (n : nat) (g g' : Game) fr fc tr tc :
  reachable g → playMove (S n) fr fc tr tc g = Some (tt, g') → reachable g'.
Proof.
  intros Hreach Hplay. pose proof (reachable_wf _ Hreach) as Hwf.
  unfold playMove in Hplay.
  apply bind_Some in Hplay as (ok & g0 & Hok & Hplay).
  destruct (isValidMoveN_steady g fr fc tr tc Hwf) as [b Hb].
  rewrite Hb in Hok. injection Hok as <- <-. destruct b; [|done].
  apply bind_Some in Hplay as ([] & g1 & Hmove & Hplay).
  apply bind_Some in Hplay as (over & g2 & Hover & Hplay).
  destruct (endsGame_steady g1) as [o Ho]; [by eapply makeMove_wf|].
  rewrite Ho in Hover. injection Hover as <- <-. destruct o; [done|].
  eapply reach_switch; [|done].
  eapply (reach_move _ 0%nat); [done|apply Hb|done].
Qed.

Lemma playMoves_reachable (n : nat) (l : list Move) (g g' : Game) :
  reachable g → playMoves (S n) l g = Some (tt, g') → reachable g'.
Proof.
  revert g. induction l as [|m l IH]; intros g Hreach Hplay;
    cbn [playMoves] in Hplay.
  - unfold ret in Hplay. by injection Hplay as <-.
  - apply bind_Some in Hplay as ([] & g1 & Hfirst & Hplay).
    eapply IH; [|done]. by eapply playMove_reachable.
Qed.

Lemma gameAfter_reachable (l : list Move) (g : Game) :
  gameAfter l = Some g → reachable g.
Proof.
  unfold gameAfter. intros H.
  destruct (playMoves 1 l initialGame) as [[[] g1]|] eqn:Hplay; [|done].
  injection H as <-. eapply playMoves_reachable; [apply reach_start|done].
Qed.

Lemma score_matches_captured_witness :
  gameAfter pawnTrade = Some (theGame pawnTrade) ∧
  ∀ C, byColor (scores (theGame pawnTrade)) C
       = capturedSum (byColor (capturedPieces (theGame pawnTrade)) C)
       ∧ Forall (λ p, pcolor p = opposite C)
                (byColor (capturedPieces (theGame pawnTrade)) C).
Proof.
  split.
  - vm_compute. reflexivity.
  - apply (score_matches_captured (theGame pawnTrade)).
    apply (gameAfter_reachable pawnTrade).
    vm_compute. reflexivity.
Defined.

(** C7 as stated fails: after White has taken a black pawn (the game
    pawnTrade, every move accepted by isValidMove), the pawn lies in
    capturedPieces.white and capturedPieces.black is empty: the captured
    piece is recorded under the color that took it, not under the color
    that lost it. *)
Lemma captured_under_loser_fails :
  gameAfter pawnTrade = Some (theGame pawnTrade) ∧
  reachable (theGame pawnTrade) ∧
  byColor (capturedPieces (theGame pawnTrade)) white = [mkPiece pawn black true] ∧
  byColor (capturedPieces (theGame pawnTrade)) black = [] ∧
  byColor (scores (theGame pawnTrade)) white = 1 ∧
  ¬ (∀ C p, p ∈ byColor (capturedPieces (theGame pawnTrade)) C → pcolor p = C).
Proof.
  assert (byColor (capturedPieces (theGame pawnTrade)) white
          = [mkPiece pawn black true]) as Hw by (vm_compute; reflexivity).
  split; [vm_compute; reflexivity|].
  split; [apply (gameAfter_reachable pawnTrade); vm_compute; reflexivity|].
  split; [done|].
  split; [vm_compute; reflexivity|].
  split; [vm_compute; reflexivity|].
  intros H. specialize (H white (mkPiece pawn black true)).
  rewrite Hw in H.
  assert (black = white) as Habs by (apply H; left). discriminate Habs.
Qed.

(** What the test of isValidMove does establish: on the board with only
    the moving piece set on its destination (no rook moved, no passed
    pawn removed) the mover's king is not attacked. *)
Lemma isValidMove_simulation_safe (n : nat) (g : Game) fr fc tr tc :
  wf_board (board g) →
  isValidMove (S n) fr fc tr tc g = Some (true, g) →
  ∃ piece,
    getSq (board g) fr fc = Some piece ∧
    pcolor piece = currentPlayer g ∧
    on_board tr tc ∧
    let simulated :=
      withBoard g (setSq (setSq (board g) tr tc (Some piece)) fr fc None) in
    isInCheck (S n) (pcolor piece) simulated = Some (false, simulated).
Proof.
  intros Hwf H. unfold isValidMove, isValidMoveWith in H.
  bind_inv H. bind_inv H.
  destruct (getSq (board g) fr fc) as [piece|] eqn:Hpc; [|done].
  destruct (Color_eqb (pcolor piece) (currentPlayer g)) eqn:Hcol; [|done].
  cbn [negb] in H.
  destruct ((tr <? 0) || (tr >? 7) || (tc <? 0) || (tc >? 7)) eqn:Hrange;
    [done|].
  bind_inv H.
  destruct (hasColor (getSq (board g) tr tc) (pcolor piece)); [done|].
  apply bind_Some in H as (ok & g1 & Hshape & H).
  destruct (isPieceMovementValid_steady (λ k, isSquareAttackedN (S k))
              g (ptype piece) fr fc tr tc piece Hpc) as [b Hb].
  { intros _ _ Hd.
    eapply (canCastle_steady (λ k, isSquareAttackedN (S k))); [|done..|lia|done].
    intros. by eapply isSquareAttackedN_king. }
  rewrite (Hb n) in Hshape. injection Hshape as <- <-.
  destruct b; [|done]. cbn [negb] in H.
  apply bind_Some in H as (leaves & g2 & Hleave & H).
  destruct leaves; [done|].
  exists piece. split; [done|]. split; [by destruct (pcolor piece), (currentPlayer g)|].
  split; [unfold on_board; lia|].
  intros simulated.
  unfold wouldLeaveKingInCheckWith in Hleave.
  bind_inv Hleave. bind_inv Hleave. bind_inv Hleave. bind_inv Hleave.
  rewrite Hpc in Hleave.
  apply bind_Some in Hleave as (inCheck & g3 & Hcheck & Hleave).
  cbn [board withBoard] in Hcheck. rewrite withBoard_withBoard in Hcheck.
  fold simulated in Hcheck.
  destruct (isInCheckN_steady simulated (pcolor piece)) as [c Hc].
  { cbn [simulated board withBoard]. by do 2 apply wf_setSq. }
  unfold isInCheck in Hc. rewrite (Hc n) in Hcheck.
  injection Hcheck as <- <-.
  bind_inv Hleave. bind_inv Hleave.
  unfold ret in Hleave. injection Hleave as -> _.
  unfold isInCheck. apply Hc.
Qed.

(** C1 fails on the code: in the game pinnedEnPassant (every move
    accepted by isValidMove) the en-passant target is (2,4); isValidMove
    accepts the capture (3,3) to (2,4) by the white pawn; makeMove then
    removes the black pawn on (3,4), and the white king on (3,0) is
    attacked along the row by the black rook on (3,6). *)
Theorem en_passant_exposes_king :
  let g := theGame pinnedEnPassant in
  let g' := execute (makeMove 3 3 2 4) g in
  gameAfter pinnedEnPassant = Some g ∧ reachable g ∧
  currentPlayer g = white ∧
  enPassantTarget g = Some (2, 4) ∧
  getSq (board g) 3 3 = Some (mkPiece pawn white true) ∧
  getSq (board g) 3 4 = Some (mkPiece pawn black true) ∧
  isValidMove 1 3 3 2 4 g = Some (true, g) ∧
  makeMove 3 3 2 4 g = Some (tt, g') ∧
  getSq (board g') 3 4 = None ∧
  findKing (board g') white = Some (3, 0) ∧
  getSq (board g') 3 6 = Some (mkPiece rook black true) ∧
  isSquareAttackedN 1 3 0 black g' = Some (true, g') ∧
  isInCheck 1 white g' = Some (true, g').
Proof.
  intros g g'.
  split; [vm_compute; reflexivity|].
  split; [apply (gameAfter_reachable pinnedEnPassant); vm_compute; reflexivity|].
  split; [vm_compute; reflexivity|].
  split; [vm_compute; reflexivity|].
  split; [vm_compute; reflexivity|].
  split; [vm_compute; reflexivity|].
  split; [vm_compute; reflexivity|].
  split; [vm_compute; reflexivity|].
  split; [vm_compute; reflexivity|].
  split; [vm_compute; reflexivity|].
  split; [vm_compute; reflexivity|].
  split; vm_compute; reflexivity.
Qed.

(** C2 fails on the code: in the game knightInFront (every move accepted
    by isValidMove) the white knight stands on (5,5), in front of the
    white pawn on (6,5), and isValidMove accepts the pawn's two-square
    advance (6,5) to (4,5) over it. *)
Theorem pawn_jumps_over_piece :
  let g := theGame knightInFront in
  gameAfter knightInFront = Some g ∧ reachable g ∧
  currentPlayer g = white ∧
  getSq (board g) 6 5 = Some (mkPiece pawn white false) ∧
  getSq (board g) 5 5 = Some (mkPiece knight white true) ∧
  getSq (board g) 4 5 = None ∧
  isValidMove 1 6 5 4 5 g = Some (true, g).
Proof.
  intros g.
  split; [vm_compute; reflexivity|].
  split; [apply (gameAfter_reachable knightInFront); vm_compute; reflexivity|].
  split; [vm_compute; reflexivity|].
  split; [vm_compute; reflexivity|].
  split; [vm_compute; reflexivity|].
  split; vm_compute; reflexivity.
Qed.

(** ** Sorting by a key *)

Section SortByKey.

Context {A : Type}.
Variable key : A → Z.
Variable cmp : A → A → option Z.
Variable P : A → Prop.
Hypothesis cmp_key : ∀ a b, P a → P b → cmp a b = Some (key b - key a).

Lemma insertBy_head (x : A) (s : list A) :
  P x → Forall P s →
  ∃ s', insertBy cmp x s = Some s' ∧ Forall P s' ∧
        head s' = Some (match head s with
                        | None => x
                        | Some y => if key y - key x <=? 0 then x else y
                        end).
Proof.
  intros Hx Hs. induction s as [|y rest IH]; simpl.
  - exists [x]. split; [done|]. split; [by constructor|done].
  - apply Forall_cons in Hs as [Hy Hrest].
    rewrite (cmp_key x y Hx Hy).
    destruct (key y - key x <=? 0).
    + eexists. split; [done|]. split; [by repeat constructor|done].
    + destruct (IH Hrest) as (s' & -> & Hs' & _).
      eexists. split; [done|]. split; [by constructor|done].
Qed.

Lemma sortBy_head (l : list A) :
  Forall P l →
  ∃ s, sortBy cmp l = Some s ∧ Forall P s ∧ head s = firstMax key l.
Proof.
  induction l as [|x rest IH]; intros Hl; simpl.
  - by exists [].
  - apply Forall_cons in Hl as [Hx Hrest].
    destruct (IH Hrest) as (s & -> & Hs & Hhead).
    destruct (insertBy_head x s Hx Hs) as (s' & -> & Hs' & Hhead').
    exists s'. split; [done|]. split; [done|].
    rewrite Hhead', Hhead.
    destruct (firstMax key rest) as [y|]; [destruct (key y - key x <=? 0)|]; done.
Qed.

Lemma firstMax_split (l : list A) (best : A) :
  firstMax key l = Some best →
  ∃ l1 l2, l = l1 ++ best :: l2 ∧
    (∀ y, y ∈ l1 → key y < key best) ∧
    (∀ y, y ∈ l2 → key y <= key best).
Proof.
  revert best. induction l as [|x rest IH]; intros best H; simpl in H; [done|].
  destruct (firstMax key rest) as [y|] eqn:Hrest.
  - destruct (IH y eq_refl) as (r1 & r2 & -> & H1 & H2).
    destruct (key y - key x <=? 0) eqn:Hle; injection H as <-.
    + exists [], (r1 ++ y :: r2). split; [done|]. split.
      * intros z Hz. inversion Hz.
      * intros z Hz. apply elem_of_app in Hz as [Hz|Hz].
        -- specialize (H1 z Hz). lia.
        -- apply elem_of_cons in Hz as [->|Hz]; [lia|].
           specialize (H2 z Hz). lia.
    + exists (x :: r1), r2. split; [done|]. split; [|done].
      intros z Hz. apply elem_of_cons in Hz as [->|Hz]; [lia|by apply H1].
  - injection H as <-.
    destruct rest as [|z rest].
    + exists [], []. split; [done|]. split; intros z Hz; inversion Hz.
    + simpl in Hrest. destruct (firstMax key rest); [|done].
      by destruct (_ <=? 0).
Qed.

Lemma firstMax_Some (l : list A) : l ≠ [] → ∃ best, firstMax key l = Some best.
Proof.
  destruct l as [|x rest]; [done|]. intros _. simpl.
  destruct (firstMax key rest); [case_match|]; eauto.
Qed.

End SortByKey.

Lemma filter_split {A} (f : A → bool) (l a b : list A) (x : A) :
  List.filter f l = a ++ x :: b →
  ∃ l1 l2, l = l1 ++ x :: l2 ∧ List.filter f l1 = a ∧ List.filter f l2 = b.
Proof.
  revert a. induction l as [|y l IH]; intros a H; simpl in H.
  - by destruct a.
  - destruct (f y) eqn:Hy.
    + destruct a as [|a0 a]; simpl in H; injection H as -> H.
      * exists [], l. done.
      * destruct (IH a H) as (l1 & l2 & -> & <- & <-).
        exists (a0 :: l1), l2. simpl. by rewrite Hy.
    + destruct (IH a H) as (l1 & l2 & -> & <- & <-).
      exists (y :: l1), l2. simpl. by rewrite Hy.
Qed.

(** ** The bot at difficulty hard *)

Lemma classifyMoves_captures (g : Game) (moves : list Move) :
  wf_board (board g) →
  ∀ captures checks, ∃ checks',
    ∀ n, classifyMoves (S n) moves captures checks g
         = Some ((captures ++ List.filter (isCapture g) moves, checks'), g).
Proof.
  intros Hwf. induction moves as [|move rest IH]; intros captures checks.
  - exists checks. intros n. cbn [classifyMoves List.filter].
    by rewrite app_nil_r.
  - cbn [List.filter]. unfold isCapture at 1.
    destruct (occupied (getSq (board g) (mvTo move).1 (mvTo move).2)) eqn:Hocc.
    + destruct (IH (captures ++ [move]) checks) as [checks' Hrest].
      exists checks'. intros n. cbn [classifyMoves].
      unfold bind at 1. unfold readBoard at 1, ask. cbv beta iota.
      rewrite Hocc. rewrite Hrest. by rewrite <- app_assoc.
    + set (fr := (mvFrom move).1). set (fc := (mvFrom move).2).
      set (tr := (mvTo move).1). set (tc := (mvTo move).2).
      set (g2 := withBoard g (setSq (setSq (board g) tr tc (getSq (board g) fr fc))
                                    fr fc None)).
      destruct (isInCheckN_steady g2 white) as [gives Hgives].
      { cbn [g2 board withBoard]. by do 2 apply wf_setSq. }
      destruct (IH captures (if gives then checks ++ [move] else checks))
        as [checks' Hrest].
      exists checks'. intros n. cbn [classifyMoves].
      unfold bind at 1. unfold readBoard at 1, ask. cbv beta iota.
      rewrite Hocc.
      unfold bind at 1. unfold readBoard at 1, ask. cbv beta iota.
      unfold bind at 1. unfold readBoard at 1, ask. cbv beta iota.
      unfold bind at 1. unfold writeBoard at 1. cbv beta iota.
      unfold bind at 1. unfold writeBoard at 1. cbv beta iota.
      cbn [board withBoard]. rewrite withBoard_withBoard.
      fold fr fc tr tc. fold g2.
      unfold bind at 1. rewrite Hgives.
      unfold bind at 1. unfold writeBoard at 1. cbv beta iota.
      unfold bind at 1. unfold writeBoard at 1. cbv beta iota.
      unfold g2. cbn [board withBoard]. rewrite !withBoard_withBoard.
      rewrite restore_move, withBoard_board. apply Hrest.
Qed.

Lemma compareCaptures_key (g : Game) (a b : Move) :
  isCapture g a = true → isCapture g b = true →
  compareCaptures g a b = Some (captureKey g b - captureKey g a).
Proof.
  unfold isCapture, compareCaptures, captureKey, capturedValue.
  destruct (getSq (board g) (mvTo a).1 (mvTo a).2); [|done].
  destruct (getSq (board g) (mvTo b).1 (mvTo b).2); done.
Qed.

(** C8. On a game with an 8x8 board and for candidate moves between
    squares of the board, when some candidate has an occupied
    destination, getHardMove returns, for every draw of the
    random number and every bound of at least one on the nesting, one
    and the same move [best] and the game as it was; [best] is a capture;
    every capture listed before it takes a piece of strictly smaller
    value, and every capture listed after it a piece of at most that
    value, where the values are pawn 1, knight 3, bishop 3, rook 5 and
    queen 9. *)
Theorem getHardMove_best_capture (g : Game) (moves : list Move) :
  wf_board (board g) →
  Forall (λ m, on_board (mvFrom m).1 (mvFrom m).2
               ∧ on_board (mvTo m).1 (mvTo m).2) moves →
  (∃ m, m ∈ moves ∧ occupied (getSq (board g) (mvTo m).1 (mvTo m).2) = true) →
  ∃ best before after p,
    moves = before ++ best :: after ∧
    getSq (board g) (mvTo best).1 (mvTo best).2 = Some p ∧
    (∀ m q, m ∈ before →
       getSq (board g) (mvTo m).1 (mvTo m).2 = Some q →
       pieceValues (ptype q) < pieceValues (ptype p)) ∧
    (∀ m q, m ∈ after →
       getSq (board g) (mvTo m).1 (mvTo m).2 = Some q →
       pieceValues (ptype q) <= pieceValues (ptype p)) ∧
    (pieceValues pawn = 1 ∧ pieceValues knight = 3 ∧ pieceValues bishop = 3 ∧
     pieceValues rook = 5 ∧ pieceValues queen = 9) ∧
    ∀ n random, getHardMove (S n) random moves g = Some (Some best, g).
Proof.
  intros Hwf _ (m0 & Hm0 & Hocc0).
  destruct (classifyMoves_captures g moves Hwf [] []) as [checks Hclass].
  set (captures := List.filter (isCapture g) moves) in *.
  assert (Forall (λ m, isCapture g m = true) captures) as Hcaps.
  { apply Forall_forall. intros m Hm. apply list_elem_of_In in Hm.
    unfold captures in Hm. by apply filter_In in Hm as [_ Hm]. }
  assert (captures ≠ []) as Hne.
  { intros Hnil. assert (In m0 captures) as Hin.
    { apply filter_In. split; [by apply list_elem_of_In|done]. }
    rewrite Hnil in Hin. done. }
  destruct (sortBy_head (captureKey g) (compareCaptures g)
              (λ m, isCapture g m = true) (compareCaptures_key g) captures Hcaps)
    as (sorted & Hsort & _ & Hhead).
  destruct (firstMax_Some (captureKey g) captures Hne) as [best Hbest].
  destruct (firstMax_split (captureKey g) captures best Hbest)
    as (c1 & c2 & Hsplit & Hlt & Hle).
  destruct (filter_split _ _ _ _ _ Hsplit) as (before & after & Hmoves & Hc1 & Hc2).
  assert (isCapture g best = true) as Hcap.
  { rewrite Forall_forall in Hcaps. apply Hcaps. rewrite Hsplit.
    apply elem_of_app. right. left. }
  unfold isCapture in Hcap.
  destruct (getSq (board g) (mvTo best).1 (mvTo best).2) as [p|] eqn:Hp; [|done].
  assert (captureKey g best = pieceValues (ptype p)) as Hkey.
  { unfold captureKey, capturedValue. by rewrite Hp. }
  exists best, before, after, p.
  split; [done|]. split; [done|]. split; [|split; [|split; [done|]]].
  - intros m q Hm Hq. rewrite <- Hkey.
    assert (captureKey g m = pieceValues (ptype q)) as <-.
    { unfold captureKey, capturedValue. by rewrite Hq. }
    apply Hlt. rewrite <- Hc1. apply list_elem_of_In, filter_In.
    split; [by apply list_elem_of_In|]. unfold isCapture. by rewrite Hq.
  - intros m q Hm Hq. rewrite <- Hkey.
    assert (captureKey g m = pieceValues (ptype q)) as <-.
    { unfold captureKey, capturedValue. by rewrite Hq. }
    apply Hle. rewrite <- Hc2. apply list_elem_of_In, filter_In.
    split; [by apply list_elem_of_In|]. unfold isCapture. by rewrite Hq.
  - intros n random. unfold getHardMove.
    unfold bind at 1. rewrite Hclass. cbn [fst snd app].
    assert ((0 <? Z.of_nat (length captures)) = true) as ->.
    { apply Z.ltb_lt. destruct captures; [done|]. cbn [length]. lia. }
    unfold bind, askOpt. rewrite Hsort. unfold ret.
    by rewrite Hhead, Hbest.
Qed.

Lemma getHardMove_best_capture_witness :
  getSq (board (theGame captureChoice)) 3 6 = Some (mkPiece pawn white true) ∧
  getSq (board (theGame captureChoice)) 4 2 = Some (mkPiece bishop white true) ∧
  getSq (board (theGame captureChoice)) 4 4 = Some (mkPiece knight white true) ∧
  ∃ before after p,
    captureCandidates = before ++ mv 3 3 4 2 :: after ∧
    getSq (board (theGame captureChoice)) 4 2 = Some p ∧
    (∀ m q, m ∈ before →
       getSq (board (theGame captureChoice)) (mvTo m).1 (mvTo m).2 = Some q →
       pieceValues (ptype q) < pieceValues (ptype p)) ∧
    (∀ m q, m ∈ after →
       getSq (board (theGame captureChoice)) (mvTo m).1 (mvTo m).2 = Some q →
       pieceValues (ptype q) <= pieceValues (ptype p)) ∧
    (pieceValues pawn = 1 ∧ pieceValues knight = 3 ∧ pieceValues bishop = 3 ∧
     pieceValues rook = 5 ∧ pieceValues queen = 9) ∧
    ∀ n random,
      getHardMove (S n) random captureCandidates (theGame captureChoice)
      = Some (Some (mv 3 3 4 2), theGame captureChoice).
Proof.
  split; [vm_compute; reflexivity|].
  split; [vm_compute; reflexivity|].
  split; [vm_compute; reflexivity|].
  destruct (getHardMove_best_capture (theGame captureChoice) captureCandidates)
    as (best & before & after & p & Hsplit & Hp & Hlt & Hle & Hvalues & Hrun).
  { split; [reflexivity|]. vm_compute. repeat constructor. }
  { unfold captureCandidates. repeat constructor; simpl; lia. }
  { exists (mv 2 7 3 6). split; [right; left|vm_compute; reflexivity]. }
  assert (getHardMove 1 0 captureCandidates (theGame captureChoice)
          = Some (Some (mv 3 3 4 2), theGame captureChoice)) as Hbest
    by (vm_compute; reflexivity).
  rewrite Hrun in Hbest. apply result_inj in Hbest. injection Hbest as ->.
  exists before, after, p.
  split; [exact Hsplit|]. split; [exact Hp|]. split; [exact Hlt|].
  split; [exact Hle|]. split; [exact Hvalues|exact Hrun].
Defined.

(** * Further properties *)

(** ** Paths of rooks and bishops *)

Lemma isPathClear_loop_spec (k : nat) (b : Board) rs cs tr tc :
  ∀ cr cc m, 0 <= m <= Z.of_nat k →
    tr = cr + m * rs → tc = cc + m * cs →
    (m = 0 ∨ rs ≠ 0 ∨ cs ≠ 0) →
    ∃ v, isPathClear_loop k b rs cs tr tc cr cc = Some v ∧
         (v = true ↔ ∀ j, 0 <= j < m → getSq b (cr + j * rs) (cc + j * cs) = None).
Proof.
  induction k as [|k IH]; intros cr cc m Hm Hr Hc Hstep; simpl.
  - assert (m = 0) as -> by lia.
    replace (cr =? tr) with true by lia. replace (cc =? tc) with true by lia.
    simpl. exists true. split; [done|]. split; [intros _ j Hj; lia|done].
  - destruct (decide (m = 0)) as [->|Hm0].
    + replace (cr =? tr) with true by lia. replace (cc =? tc) with true by lia.
      simpl. exists true. split; [done|]. split; [intros _ j Hj; lia|done].
    + assert (negb (cr =? tr) || negb (cc =? tc) = true) as ->.
      { apply orb_true_iff. destruct Hstep as [?|[Hs|Hs]]; [done|left|right];
          apply negb_true_iff, Z.eqb_neq; nia. }
      destruct (getSq b cr cc) as [p|] eqn:Hcell.
      * exists false. split; [done|]. split; [done|].
        intros Hall. specialize (Hall 0).
        replace (cr + 0 * rs) with cr in Hall by lia.
        replace (cc + 0 * cs) with cc in Hall by lia.
        rewrite Hcell in Hall. discriminate Hall. lia.
      * destruct (IH (cr + rs) (cc + cs) (m - 1)) as (v & Hv & Hiff);
          [lia|lia|lia|destruct Hstep as [?|[?|?]]; [lia|auto|auto]|].
        exists v. split; [done|]. rewrite Hiff. split.
        -- intros Hall j Hj. destruct (decide (j = 0)) as [->|Hj0].
           ++ replace (cr + 0 * rs) with cr by lia.
              by replace (cc + 0 * cs) with cc by lia.
           ++ specialize (Hall (j - 1)).
              replace (cr + rs + (j - 1) * rs) with (cr + j * rs) in Hall by lia.
              replace (cc + cs + (j - 1) * cs) with (cc + j * cs) in Hall by lia.
              apply Hall. lia.
        -- intros Hall j Hj. specialize (Hall (j + 1)).
           replace (cr + (j + 1) * rs) with (cr + rs + j * rs) in Hall by lia.
           replace (cc + (j + 1) * cs) with (cc + cs + j * cs) in Hall by lia.
           apply Hall. lia.
Qed.

Lemma stepToward_sgn from to : stepToward from to = Z.sgn (to - from).
Proof. unfold stepToward. repeat case_match; lia. Qed.

Lemma isPathClear_spec (b : Board) fr fc tr tc :
  fr = tr ∨ fc = tc ∨ Z.abs (tr - fr) = Z.abs (tc - fc) →
  ∃ v, isPathClear b fr fc tr tc = Some v ∧
       (v = true ↔
        ∀ k, 0 < k < Z.max (Z.abs (tr - fr)) (Z.abs (tc - fc)) →
             getSq b (fr + k * Z.sgn (tr - fr)) (fc + k * Z.sgn (tc - fc)) = None).
Proof.
  intros Hal. unfold isPathClear. rewrite !stepToward_sgn.
  set (d := Z.max (Z.abs (tr - fr)) (Z.abs (tc - fc))).
  set (rs := Z.sgn (tr - fr)). set (cs := Z.sgn (tc - fc)).
  destruct (decide (d = 0)) as [Hd|Hd].
  - destruct (isPathClear_loop_spec (Z.to_nat d) b rs cs tr tc
                (fr + rs) (fc + cs) 0) as (v & Hv & Hiff); [lia|lia|lia|by left|].
    exists v. split; [done|]. rewrite Hiff. split; intros _ j Hj; lia.
  - destruct (isPathClear_loop_spec (Z.to_nat d) b rs cs tr tc
                (fr + rs) (fc + cs) (d - 1)) as (v & Hv & Hiff).
    + lia.
    + subst d rs. lia.
    + subst d cs. lia.
    + right. subst d rs cs. lia.
    + exists v. split; [done|]. rewrite Hiff. split.
      * intros Hall k Hk. specialize (Hall (k - 1)).
        replace (fr + rs + (k - 1) * rs) with (fr + k * rs) in Hall by lia.
        replace (fc + cs + (k - 1) * cs) with (fc + k * cs) in Hall by lia.
        apply Hall. lia.
      * intros Hall j Hj. specialize (Hall (j + 1)).
        replace (fr + (j + 1) * rs) with (fr + rs + j * rs) in Hall by lia.
        replace (fc + (j + 1) * cs) with (fc + cs + j * cs) in Hall by lia.
        apply Hall. lia.
Qed.

(** X1. Between two squares of the board isRookMoveValid returns, and it
    returns true exactly when the squares share a row or a column and
    every square strictly between them is empty (for equal squares there
    is no square between). *)
Theorem isRookMoveValid_spec (b : Board) (fromRow fromCol toRow toCol : Z) :
  on_board fromRow fromCol → on_board toRow toCol →
  ∃ v, isRookMoveValid b fromRow fromCol toRow toCol = Some v ∧
       (v = true ↔
        (fromRow = toRow ∨ fromCol = toCol) ∧
        ∀ k, 0 < k < Z.max (Z.abs (toRow - fromRow)) (Z.abs (toCol - fromCol)) →
             getSq b (fromRow + k * Z.sgn (toRow - fromRow))
                     (fromCol + k * Z.sgn (toCol - fromCol)) = None).
Proof.
  intros _ _. unfold isRookMoveValid.
  destruct (negb (fromRow =? toRow) && negb (fromCol =? toCol)) eqn:Hal.
  - exists false. split; [done|]. split; [done|].
    intros [[?|?] _]; apply andb_prop in Hal as [H1 H2];
      apply negb_true_iff in H1, H2; lia.
  - assert (fromRow = toRow ∨ fromCol = toCol) as Hline.
    { apply andb_false_iff in Hal as [H|H]; apply negb_false_iff in H; lia. }
    destruct (isPathClear_spec b fromRow fromCol toRow toCol) as (v & Hv & Hiff).
    { destruct Hline; auto. }
    exists v. split; [done|]. rewrite Hiff. split; [by split|by intros [_ ?]].
Qed.

Lemma isRookMoveValid_spec_witness :
  ∃ v, isRookMoveValid initialBoard 7 0 4 0 = Some v ∧
       (v = true ↔
        (7 = 4 ∨ 0 = 0) ∧
        ∀ k, 0 < k < Z.max (Z.abs (4 - 7)) (Z.abs (0 - 0)) →
             getSq initialBoard (7 + k * Z.sgn (4 - 7))
                                (0 + k * Z.sgn (0 - 0)) = None).
Proof.
  apply (isRookMoveValid_spec initialBoard 7 0 4 0); unfold on_board; lia.
Defined.

(** X2. Between two squares of the board isBishopMoveValid returns, and
    it returns true exactly when the squares lie on one diagonal and
    every square strictly between them is empty. *)
Theorem isBishopMoveValid_spec (b : Board) (fromRow fromCol toRow toCol : Z) :
  on_board fromRow fromCol → on_board toRow toCol →
  ∃ v, isBishopMoveValid b fromRow fromCol toRow toCol = Some v ∧
       (v = true ↔
        Z.abs (toRow - fromRow) = Z.abs (toCol - fromCol) ∧
        ∀ k, 0 < k < Z.abs (toRow - fromRow) →
             getSq b (fromRow + k * Z.sgn (toRow - fromRow))
                     (fromCol + k * Z.sgn (toCol - fromCol)) = None).
Proof.
  intros _ _. unfold isBishopMoveValid.
  destruct (negb (Z.abs (toRow - fromRow) =? Z.abs (toCol - fromCol))) eqn:Hal.
  - exists false. split; [done|]. split; [done|].
    intros [? _]. apply negb_true_iff in Hal. lia.
  - apply negb_false_iff in Hal.
    assert (Z.abs (toRow - fromRow) = Z.abs (toCol - fromCol)) as Hd by lia.
    destruct (isPathClear_spec b fromRow fromCol toRow toCol) as (v & Hv & Hiff);
      [auto|].
    exists v. split; [done|]. rewrite Hiff.
    rewrite <- Hd, Z.max_id. split; [by split|by intros [_ ?]].
Qed.

Lemma isBishopMoveValid_spec_witness :
  ∃ v, isBishopMoveValid initialBoard 7 2 4 5 = Some v ∧
       (v = true ↔
        Z.abs (4 - 7) = Z.abs (5 - 2) ∧
        ∀ k, 0 < k < Z.abs (4 - 7) →
             getSq initialBoard (7 + k * Z.sgn (4 - 7))
                                (2 + k * Z.sgn (5 - 2)) = None).
Proof.
  apply (isBishopMoveValid_spec initialBoard 7 2 4 5); unfold on_board; lia.
Defined.

(** ** Attack detection *)

Lemma existsM_spec {X} (test : X → M bool) (l : list X) (g : Game) :
  (∀ y, y ∈ l → ∃ b, test y g = Some (b, g)) →
  ∃ v, existsM test l g = Some (v, g) ∧
       (v = true ↔ ∃ x, x ∈ l ∧ test x g = Some (true, g)).
Proof.
  induction l as [|y l IH]; intros Hall.
  - exists false. split; [done|]. split; [done|].
    intros (x & Hx & _). inversion Hx.
  - destruct (Hall y) as [b Hb]; [left|].
    destruct IH as (v & Hv & Hiff); [intros z Hz; apply Hall; by right|].
    cbn [existsM]. unfold bind. rewrite Hb. destruct b.
    + exists true. split; [done|]. split; [|done].
      intros _. exists y. split; [left|done].
    + exists v. split; [done|]. rewrite Hiff. split.
      * intros (x & Hx & Ht). exists x. split; [by right|done].
      * intros (x & Hx & Ht). apply elem_of_cons in Hx as [->|Hx].
        -- congruence.
        -- by exists x.
Qed.

(** X3. On an 8x8 board and for a square of the board, isSquareAttacked
    returns, leaves the game unchanged, and returns true exactly when
    some square holds a piece of the attacking color for which
    isPieceMovementValid accepts the move onto the square. *)
Theorem isSquareAttacked_spec (n : nat) (g : Game) (row col : Z) (by_ : Color) :
  wf_board (board g) → on_board row col →
  ∃ v, (∀ k, isSquareAttackedN (S (S k)) row col by_ g = Some (v, g)) ∧
       (v = true ↔
        ∃ fromRow fromCol p,
          getSq (board g) fromRow fromCol = Some p ∧ pcolor p = by_ ∧
          isPieceMovementValid (S n) (ptype p) fromRow fromCol row col g
          = Some (true, g)).
Proof.
  intros Hwf Hon.
  destruct (isSquareAttackedN_steady g row col by_ Hwf Hon) as [v Hv].
  exists v. split; [done|].
  destruct (existsM_spec (attackFrom (isSquareAttackedN (S n)) row col by_)
              allSquares g) as (v' & Hv' & Hiff).
  { intros from _.
    destruct (attackFromN_steady g row col by_ from Hwf Hon) as [b Hb].
    exists b. apply Hb. }
  change (isSquareAttackedN (S (S n)) row col by_ g = Some (v', g)) in Hv'.
  rewrite Hv in Hv'. injection Hv' as <-.
  rewrite Hiff. split.
  - intros ([fr fc] & _ & Hatt). unfold attackFrom, bind, readBoard, ask in Hatt.
    cbn [fst snd] in Hatt.
    destruct (getSq (board g) fr fc) as [p|] eqn:Hp; [|done].
    destruct (Color_eqb (pcolor p) by_) eqn:Hc; [|done].
    exists fr, fc, p. split; [done|].
    split; [by destruct (pcolor p), by_|done].
  - intros (fr & fc & p & Hp & Hc & Hmove). exists (fr, fc). split.
    + apply on_board_allSquares. by eapply getSq_Some_on_board.
    + unfold attackFrom, bind, readBoard, ask. cbn [fst snd].
      rewrite Hp, Hc, Color_eqb_refl. done.
Qed.

Lemma isSquareAttacked_spec_witness :
  ∃ v, (∀ k, isSquareAttackedN (S (S k)) 5 2 white initialGame
             = Some (v, initialGame)) ∧
       (v = true ↔
        ∃ fromRow fromCol p,
          getSq (board initialGame) fromRow fromCol = Some p ∧
          pcolor p = white ∧
          isPieceMovementValid 1 (ptype p) fromRow fromCol 5 2 initialGame
          = Some (true, initialGame)).
Proof.
  apply (isSquareAttacked_spec 0 initialGame 5 2 white).
  - split; [reflexivity|]. repeat constructor.
  - unfold on_board. lia.
Defined.

(** ** The king in check *)

Lemma find_first {A} (f : A → bool) (l : list A) (x : A) :
  find f l = Some x →
  ∃ l1 l2, l = l1 ++ x :: l2 ∧ Forall (λ y, f y = false) l1 ∧ f x = true.
Proof.
  induction l as [|y l IH]; simpl; [done|].
  destruct (f y) eqn:Hy.
  - intros [= ->]. exists [], l. done.
  - intros H. destruct (IH H) as (l1 & l2 & -> & Hl1 & Hx).
    exists (y :: l1), l2. split; [done|]. split; [by constructor|done].
Qed.

(** The nested loops visit the squares row by row, each row from
    column 0 on. *)
Lemma allSquares_sorted :
  StronglySorted (λ a b : Square, a.1 < b.1 ∨ (a.1 = b.1 ∧ a.2 < b.2))
                 allSquares.
Proof. apply (bool_decide_unpack _). vm_compute. exact I. Qed.

(** findKing returns the first square, in the order of its loops, that
    holds a king of the color. *)
Lemma findKing_first (b : Board) (c : Color) (row col : Z) :
  on_board row col →
  isKingOf c (getSq b row col) = true →
  (∀ r k, r < row ∨ (r = row ∧ k < col) → isKingOf c (getSq b r k) = false) →
  findKing b c = Some (row, col).
Proof.
  intros Hon Hking Hfirst. unfold findKing.
  assert ((row, col) ∈ allSquares) as Hin by (by apply on_board_allSquares).
  destruct (find (λ sq, isKingOf c (getSq b sq.1 sq.2)) allSquares)
    as [[r k]|] eqn:Hfind.
  - apply find_first in Hfind as (l1 & l2 & Hsplit & Hl1 & Hrk).
    cbn [fst snd] in Hrk.
    rewrite Hsplit in Hin. apply elem_of_app in Hin as [Hin|Hin].
    + rewrite Forall_forall in Hl1. specialize (Hl1 _ Hin).
      cbn [fst snd] in Hl1. congruence.
    + apply elem_of_cons in Hin as [Heq|Hin]; [by rewrite Heq|].
      exfalso. pose proof allSquares_sorted as Hs. rewrite Hsplit in Hs.
      apply StronglySorted_app_1_r in Hs.
      apply StronglySorted_inv in Hs as [_ Hall].
      rewrite Forall_forall in Hall. specialize (Hall _ Hin).
      cbn [fst snd] in Hall. rewrite (Hfirst r k Hall) in Hrk. done.
  - exfalso. apply list_elem_of_In in Hin.
    pose proof (find_none _ _ Hfind (row, col) Hin) as Hn.
    cbn [fst snd] in Hn. congruence.
Qed.

Lemma isSquareAttackedN_iff (n : nat) (g : Game) (row col : Z) (by_ : Color)
    (v : bool) :
  wf_board (board g) → on_board row col →
  isSquareAttackedN (S (S n)) row col by_ g = Some (v, g) →
  (v = true ↔
   ∃ fromRow fromCol p,
     getSq (board g) fromRow fromCol = Some p ∧ pcolor p = by_ ∧
     isPieceMovementValid (S n) (ptype p) fromRow fromCol row col g
     = Some (true, g)).
Proof.
  intros Hwf Hon Hv.
  destruct (existsM_spec (attackFrom (isSquareAttackedN (S n)) row col by_)
              allSquares g) as (v' & Hv' & Hiff).
  { intros from _.
    destruct (attackFromN_steady g row col by_ from Hwf Hon) as [b Hb].
    exists b. apply Hb. }
  change (isSquareAttackedN (S (S n)) row col by_ g = Some (v', g)) in Hv'.
  rewrite Hv in Hv'. apply result_inj in Hv' as <-.
  rewrite Hiff. split.
  - intros ([fr fc] & _ & Hatt). unfold attackFrom, bind, readBoard, ask in Hatt.
    cbn [fst snd] in Hatt.
    destruct (getSq (board g) fr fc) as [p|] eqn:Hp; [|done].
    destruct (Color_eqb (pcolor p) by_) eqn:Hc; [|done].
    exists fr, fc, p. split; [done|].
    split; [by destruct (pcolor p), by_|done].
  - intros (fr & fc & p & Hp & Hc & Hmove). exists (fr, fc). split.
    + apply on_board_allSquares. by eapply getSq_Some_on_board.
    + unfold attackFrom, bind, readBoard, ask. cbn [fst snd].
      rewrite Hp, Hc, Color_eqb_refl. done.
Qed.

(** C9. isInCheck(c) returns false, and throws nothing, when no square of
    the board holds a king of color c.  On an 8x8 board, when a square
    holds a king of color c and no square before it in the order of the
    loops does, isInCheck(c) returns, with the game unchanged and for
    every bound of at least one on the nesting, one answer, and the
    answer is true exactly when some square holds a piece of the other
    color for which isPieceMovementValid accepts the move onto the
    king's square.  On every 8x8 board isInCheck(c) returns, with the
    game unchanged. *)
Theorem isInCheck_without_king (n : nat) (g : Game) (c : Color) :
  ((∀ row col, on_board row col →
      isKingOf c (getSq (board g) row col) = false) →
   isInCheck n c g = Some (false, g))
  ∧
  (wf_board (board g) →
   ∀ row col p,
     getSq (board g) row col = Some p → ptype p = king → pcolor p = c →
     (∀ r k q, r < row ∨ (r = row ∧ k < col) →
        getSq (board g) r k = Some q → ptype q = king → pcolor q ≠ c) →
     ∃ answer,
       (∀ k, isInCheck (S k) c g = Some (answer, g)) ∧
       (answer = true ↔
        ∃ fromRow fromCol q,
          getSq (board g) fromRow fromCol = Some q ∧ pcolor q ≠ c ∧
          isPieceMovementValid (S n) (ptype q) fromRow fromCol row col g
          = Some (true, g)))
  ∧
  (wf_board (board g) → ∃ answer, ∀ k, isInCheck (S k) c g = Some (answer, g)).
Proof.
  split; [|split; [|apply isInCheckN_steady]].
  - intros Hno. unfold isInCheck, isInCheckWith, bind, ask.
    destruct (findKing (board g) c) as [[r k]|] eqn:Hk; [|done].
    exfalso. unfold findKing in Hk. apply find_some in Hk as [Hin Hk].
    simpl in Hk. apply list_elem_of_In, allSquares_on_board in Hin.
    rewrite Hno in Hk; done.
  - intros Hwf row col p Hp Hking Hcol Hfirst.
    pose proof (getSq_Some_on_board _ _ _ _ Hwf Hp) as Hon.
    assert (findKing (board g) c = Some (row, col)) as Hk.
    { apply findKing_first; [done| |].
      - unfold isKingOf. rewrite Hp, Hking, Hcol. apply Color_eqb_refl.
      - intros r k Hbefore. unfold isKingOf.
        destruct (getSq (board g) r k) as [q|] eqn:Hq; [|done].
        destruct (ptype q) eqn:Ht; try done. cbn [PieceType_eqb andb].
        destruct (Color_eqb (pcolor q) c) eqn:Hc; [|done].
        exfalso. apply (Hfirst r k q Hbefore Hq Ht).
        by destruct (pcolor q), c. }
    destruct (isSquareAttackedN_king g row col (opposite c) p Hwf Hp Hking)
      as [answer Hanswer].
    exists answer. split.
    + intros k. unfold isInCheck, isInCheckWith, bind, ask. rewrite Hk.
      apply Hanswer.
    + rewrite (isSquareAttackedN_iff n g row col (opposite c) answer Hwf Hon
                 (Hanswer (S n))).
      split; intros (fr & fc & q & Hq & Hc & Hmove); exists fr, fc, q;
        (split; [done|split; [|done]]).
      * rewrite Hc. by destruct c.
      * by destruct (pcolor q), c.
Qed.

Lemma forall_allSquares (P : Z → Z → bool) :
  forallb (λ sq, P sq.1 sq.2) allSquares = true →
  ∀ row col, on_board row col → P row col = true.
Proof.
  intros H row col Hon. rewrite forallb_forall in H.
  apply (H (row, col)). by apply list_elem_of_In, on_board_allSquares.
Qed.

Lemma isInCheck_without_king_witness :
  isInCheck 1 white (withBoard initialGame (replicate 8 emptyRank))
  = Some (false, withBoard initialGame (replicate 8 emptyRank))
  ∧ (getSq (board (theGame foolsMate)) 7 4 = Some (mkPiece king white false) ∧
     getSq (board (theGame foolsMate)) 4 7 = Some (mkPiece queen black true) ∧
     ∀ k, isInCheck (S k) white (theGame foolsMate)
          = Some (true, theGame foolsMate))
  ∧ (∀ k, isInCheck (S k) white initialGame = Some (false, initialGame)).
Proof.
  assert (wf_board (board (theGame foolsMate))) as Hwf.
  { split; [reflexivity|]. vm_compute. repeat constructor. }
  split; [|split].
  - apply (isInCheck_without_king 1
             (withBoard initialGame (replicate 8 emptyRank)) white).
    intros row col Hon.
    apply (forall_allSquares
             (λ r k, negb (isKingOf white
                (getSq (board (withBoard initialGame (replicate 8 emptyRank)))
                       r k)))) in Hon.
    + by apply negb_true_iff in Hon.
    + vm_compute. reflexivity.
  - split; [vm_compute; reflexivity|]. split; [vm_compute; reflexivity|].
    destruct (proj1 (proj2 (isInCheck_without_king 0 (theGame foolsMate) white))
                Hwf 7 4 (mkPiece king white false))
      as (answer & Hrun & Hiff).
    + vm_compute. reflexivity.
    + reflexivity.
    + reflexivity.
    + intros r k q Hbefore Hq Hking Hcol.
      pose proof (getSq_Some_on_board _ _ _ _ Hwf Hq) as Hon.
      apply (forall_allSquares
               (λ r k, implb ((r <? 7) || ((r =? 7) && (k <? 4)))
                         (negb (isKingOf white
                                  (getSq (board (theGame foolsMate)) r k)))))
        in Hon; [|vm_compute; reflexivity].
      cbv beta in Hon.
      assert ((r <? 7) || ((r =? 7) && (k <? 4)) = true) as Hb.
      { destruct Hbefore as [Hr|[Hr Hk]].
        - apply orb_true_intro. left. by apply Z.ltb_lt.
        - apply orb_true_intro. right. apply andb_true_intro.
          split; [by apply Z.eqb_eq|by apply Z.ltb_lt]. }
      rewrite Hb, Hq in Hon. unfold isKingOf in Hon.
      rewrite Hking, Hcol in Hon. discriminate Hon.
    + assert (answer = true) as ->.
      { apply Hiff. exists 4, 7, (mkPiece queen black true).
        split; [vm_compute; reflexivity|]. split; [discriminate|].
        vm_compute. reflexivity. }
      exact Hrun.
  - destruct (proj2 (proj2 (isInCheck_without_king 0 initialGame white)))
      as [answer Hrun].
    + split; [reflexivity|]. repeat constructor.
    + assert (isInCheck 1 white initialGame = Some (false, initialGame))
        as Hfalse by (vm_compute; reflexivity).
      rewrite Hrun in Hfalse. apply result_inj in Hfalse as ->.
      exact Hrun.
Defined.

(** ** Castling *)

(** X5. canCastle, called as isKingMoveValid calls it, returns true when
    the moving piece has not moved, the corner of that side holds a rook
    that has not moved, the castling right of that side is true, every
    square strictly between king and corner is empty, isInCheck finds
    the king not attacked, and wouldBeInCheck finds it not attacked on
    either of the two squares it crosses. *)
Theorem canCastle_accepts (n : nat) (g : Game)
    (fromRow fromCol toRow toCol : Z) (piece rookPiece : Piece) :
  wf_board (board g) →
  getSq (board g) fromRow fromCol = Some piece →
  0 <= toCol <= 7 → Z.abs (toCol - fromCol) = 2 →
  let isKingside := toCol >? fromCol in
  let rookCol := if isKingside then 7 else 0 in
  let step := if isKingside then 1 else -1 in
  hasMoved piece = false →
  getSq (board g) fromRow rookCol = Some rookPiece →
  ptype rookPiece = rook → hasMoved rookPiece = false →
  castlingRight g (pcolor piece) isKingside = true →
  (∀ col, Z.min fromCol rookCol < col < Z.max fromCol rookCol →
          getSq (board g) fromRow col = None) →
  isInCheck (S n) (pcolor piece) g = Some (false, g) →
  wouldBeInCheck (S n) (pcolor piece) fromRow (fromCol + step) g
  = Some (false, g) →
  wouldBeInCheck (S n) (pcolor piece) fromRow (fromCol + 2 * step) g
  = Some (false, g) →
  canCastle (S n) fromRow fromCol toRow toCol g = Some (true, g).
Proof.
  intros Hwf Hpc Htc Hd isKingside rookCol step
         Hmoved Hrook Hrt Hrm Hright Hpath Hchk Hw1 Hw2.
  unfold isInCheck in Hchk. unfold wouldBeInCheck in Hw1, Hw2.
  unfold canCastle, canCastleWith.
  unfold bind at 1. unfold readBoard at 1, ask. cbv beta iota. rewrite Hpc.
  rewrite Hmoved.
  unfold bind at 1. unfold readBoard at 1, ask. cbv beta iota.
  fold isKingside. fold rookCol. rewrite Hrook.
  unfold rookReady. rewrite Hrt, Hrm. cbn [PieceType_eqb negb andb].
  unfold bind at 1. cbv beta iota. rewrite Hright.
  cbn [negb].
  unfold bind at 1. rewrite existsM_occupied.
  assert (existsb (λ col, occupied (getSq (board g) fromRow col))
            (seqZ (Z.min fromCol rookCol + 1)
                  (Z.max fromCol rookCol - (Z.min fromCol rookCol + 1)))
          = false) as ->.
  { apply not_true_is_false. intros Hex.
    apply existsb_exists in Hex as (col & Hin & Hocc).
    apply list_elem_of_In, elem_of_seqZ in Hin.
    rewrite Hpath in Hocc by lia. done. }
  unfold bind at 1. rewrite Hchk.
  unfold bind at 1. change (seqZ 1 2) with [1; 2]. cbn [existsM].
  unfold bind at 1. fold step.
  replace (fromCol + 1 * step) with (fromCol + step) by lia.
  rewrite Hw1.
  unfold bind at 1. rewrite Hw2. done.
Qed.

Lemma canCastle_accepts_witness :
  canCastle 1 7 4 7 6 (theGame readyToCastle)
  = Some (true, theGame readyToCastle).
Proof.
  apply (canCastle_accepts 0 (theGame readyToCastle) 7 4 7 6
           (mkPiece king white false) (mkPiece rook white false)).
  - split; [reflexivity|]. vm_compute. repeat constructor.
  - vm_compute. reflexivity.
  - lia.
  - reflexivity.
  - reflexivity.
  - vm_compute. reflexivity.
  - reflexivity.
  - reflexivity.
  - vm_compute. reflexivity.
  - intros col Hcol. simpl in Hcol.
    assert (col = 5 ∨ col = 6) as [-> | ->] by lia; vm_compute; reflexivity.
  - vm_compute. reflexivity.
  - vm_compute. reflexivity.
  - vm_compute. reflexivity.
Defined.

(** ** What isValidMove accepts *)

Lemma isValidMove_inv (n : nat) (g : Game)
    (fromRow fromCol toRow toCol : Z) :
  wf_board (board g) →
  isValidMove (S n) fromRow fromCol toRow toCol g = Some (true, g) →
  ∃ piece,
    getSq (board g) fromRow fromCol = Some piece ∧
    pcolor piece = currentPlayer g ∧
    on_board toRow toCol ∧
    (fromRow ≠ toRow ∨ fromCol ≠ toCol) ∧
    hasColor (getSq (board g) toRow toCol) (pcolor piece) = false ∧
    isPieceMovementValid (S n) (ptype piece) fromRow fromCol toRow toCol g
    = Some (true, g) ∧
    isInCheck (S n) (pcolor piece) (simulated g fromRow fromCol toRow toCol)
    = Some (false, simulated g fromRow fromCol toRow toCol).
Proof.
  intros Hwf H.
  destruct (isValidMove_simulation_safe n g _ _ _ _ Hwf H)
    as (piece & Hpc & Hcol & Hon & Hsafe).
  exists piece. split; [done|]. split; [done|]. split; [done|].
  unfold isValidMove, isValidMoveWith in H.
  bind_inv H. bind_inv H. rewrite Hpc in H.
  rewrite Hcol, Color_eqb_refl in H. cbn [negb] in H.
  destruct ((toRow <? 0) || (toRow >? 7) || (toCol <? 0) || (toCol >? 7));
    [done|].
  bind_inv H.
  destruct (hasColor (getSq (board g) toRow toCol) (currentPlayer g)) eqn:Hown;
    [done|].
  apply bind_Some in H as (ok & g1 & Hshape & H).
  destruct (isPieceMovementValid_steady (λ k, isSquareAttackedN (S k))
              g (ptype piece) fromRow fromCol toRow toCol piece Hpc) as [b Hb].
  { intros _ _ Hd. destruct Hon as [_ Hc].
    eapply (canCastle_steady (λ k, isSquareAttackedN (S k))); [|done..].
    intros. by eapply isSquareAttackedN_king. }
  rewrite (Hb n) in Hshape. injection Hshape as <- <-.
  destruct b; [|done].
  split; [|split; [by rewrite Hcol|split; [apply Hb|]]].
  - destruct (decide (fromRow = toRow)) as [->|?]; [|by left].
    destruct (decide (fromCol = toCol)) as [->|?]; [|by right].
    rewrite Hpc in Hown. cbn [hasColor] in Hown.
    rewrite Hcol, Color_eqb_refl in Hown. done.
  - unfold simulated. rewrite Hpc. apply Hsafe.
Qed.

(** X6. On an 8x8 board, a move that isValidMove accepts starts on a
    square holding a piece of the player to move, ends on a different
    square of the board that holds no piece of that player, passes
    isPieceMovementValid for the type of the piece, and leaves the
    mover's king not attacked on the board with the piece set on the
    destination and the origin emptied. *)
Theorem isValidMove_accepts_only (n : nat) (g : Game)
    (fromRow fromCol toRow toCol : Z) :
  wf_board (board g) →
  isValidMove (S n) fromRow fromCol toRow toCol g = Some (true, g) →
  ∃ piece,
    getSq (board g) fromRow fromCol = Some piece ∧
    pcolor piece = currentPlayer g ∧
    on_board toRow toCol ∧
    (fromRow ≠ toRow ∨ fromCol ≠ toCol) ∧
    hasColor (getSq (board g) toRow toCol) (pcolor piece) = false ∧
    isPieceMovementValid (S n) (ptype piece) fromRow fromCol toRow toCol g
    = Some (true, g) ∧
    isInCheck (S n) (pcolor piece) (simulated g fromRow fromCol toRow toCol)
    = Some (false, simulated g fromRow fromCol toRow toCol).
Proof. apply isValidMove_inv. Qed.

Lemma isValidMove_accepts_only_witness :
  ∃ piece,
    getSq (board initialGame) 6 4 = Some piece ∧
    pcolor piece = currentPlayer initialGame ∧
    on_board 4 4 ∧
    (6 ≠ 4 ∨ 4 ≠ 4) ∧
    hasColor (getSq (board initialGame) 4 4) (pcolor piece) = false ∧
    isPieceMovementValid 1 (ptype piece) 6 4 4 4 initialGame
    = Some (true, initialGame) ∧
    isInCheck 1 (pcolor piece) (simulated initialGame 6 4 4 4)
    = Some (false, simulated initialGame 6 4 4 4).
Proof.
  apply (isValidMove_accepts_only 0 initialGame 6 4 4 4).
  - split; [reflexivity|]. repeat constructor.
  - vm_compute. reflexivity.
Defined.

(** ** The lists of valid moves *)

Lemma filterM_spec {X} (test : X → M bool) (l : list X) (g : Game) :
  (∀ y, y ∈ l → ∃ b, test y g = Some (b, g)) →
  ∃ res, filterM test l g = Some (res, g) ∧
         ∀ x, x ∈ res ↔ x ∈ l ∧ test x g = Some (true, g).
Proof.
  induction l as [|y l IH]; intros Hall.
  - exists []. split; [done|]. intros x. split; [inversion 1|].
    intros [Hx _]. inversion Hx.
  - destruct (Hall y) as [b Hb]; [left|].
    destruct IH as (res & Hres & Hiff); [intros z Hz; apply Hall; by right|].
    exists (if b then y :: res else res). split.
    + cbn [filterM]. unfold bind. by rewrite Hb, Hres.
    + intros x. destruct b.
      * rewrite !elem_of_cons, Hiff. split.
        -- intros [->|[Hx Ht]]; [split; [by left|done]|split; [by right|done]].
        -- intros [[->|Hx] Ht]; [by left|right; by split].
      * rewrite elem_of_cons, Hiff. split.
        -- intros [Hx Ht]. split; [by right|done].
        -- intros [[->|Hx] Ht]; [congruence|by split].
Qed.

Lemma getValidMoves_members (n : nat) (g : Game) (row col : Z) :
  wf_board (board g) →
  ∃ res, (∀ k, getValidMoves (S k) row col g = Some (res, g)) ∧
         ∀ toRow toCol,
           (toRow, toCol) ∈ res ↔
           on_board toRow toCol ∧
           isValidMove (S n) row col toRow toCol g = Some (true, g).
Proof.
  intros Hwf.
  destruct (getValidMoves_steady g row col Hwf) as [res Hres].
  exists res. split; [done|]. intros toRow toCol.
  specialize (Hres n). unfold getValidMoves, bind, readBoard, ask in Hres.
  destruct (getSq (board g) row col) as [p|] eqn:Hp.
  - destruct (filterM_spec (λ to, isValidMove (S n) row col to.1 to.2)
                allSquares g) as (res' & Hres' & Hiff).
    { intros to _.
      destruct (isValidMoveN_steady g row col to.1 to.2 Hwf) as [b Hb].
      exists b. apply Hb. }
    rewrite Hres' in Hres. injection Hres as <-.
    rewrite Hiff. cbn [fst snd]. split.
    + intros [Hin Hv]. split; [|done]. by apply allSquares_on_board in Hin.
    + intros [Hon Hv]. split; [|done]. by apply on_board_allSquares.
  - unfold ret in Hres. injection Hres as <-. split; [inversion 1|].
    intros [_ Hv]. unfold isValidMove, isValidMoveWith, bind, readBoard, ask
      in Hv. rewrite Hp in Hv. done.
Qed.

(** X7. On an 8x8 board and for a row of the board,
    getValidMoves(row, col) returns, leaves the game unchanged, and lists
    exactly the squares of the board that isValidMove accepts as
    destinations from (row, col). *)
Theorem getValidMoves_spec (n : nat) (g : Game) (row col : Z) :
  wf_board (board g) → 0 <= row <= 7 →
  ∃ res, (∀ k, getValidMoves (S k) row col g = Some (res, g)) ∧
         ∀ toRow toCol,
           (toRow, toCol) ∈ res ↔
           on_board toRow toCol ∧
           isValidMove (S n) row col toRow toCol g = Some (true, g).
Proof. intros Hwf _. by apply getValidMoves_members. Qed.

Lemma getValidMoves_spec_witness :
  ∃ res, (∀ k, getValidMoves (S k) 6 4 initialGame = Some (res, initialGame)) ∧
         ∀ toRow toCol,
           (toRow, toCol) ∈ res ↔
           on_board toRow toCol ∧
           isValidMove 1 6 4 toRow toCol initialGame = Some (true, initialGame).
Proof.
  apply (getValidMoves_spec 0 initialGame 6 4).
  - split; [reflexivity|]. repeat constructor.
  - lia.
Defined.

Lemma collectMoves_spec (n : nat) (g : Game) (c : Color) (l : list Square) :
  wf_board (board g) →
  ∃ res, (∀ k, collectMoves (S k) c l g = Some (res, g)) ∧
         ∀ m, m ∈ res ↔
              mvFrom m ∈ l ∧
              hasColor (getSq (board g) (mvFrom m).1 (mvFrom m).2) c = true ∧
              on_board (mvTo m).1 (mvTo m).2 ∧
              isValidMove (S n) (mvFrom m).1 (mvFrom m).2
                          (mvTo m).1 (mvTo m).2 g = Some (true, g).
Proof.
  intros Hwf. induction l as [|from rest IH].
  - exists []. split; [done|]. intros m. split; [inversion 1|].
    intros [Hin _]. inversion Hin.
  - destruct IH as (res' & Hres' & Hiff').
    destruct (getValidMoves_members n g from.1 from.2 Hwf) as (vm & Hvm & Hiffv).
    destruct (hasColor (getSq (board g) from.1 from.2) c) eqn:Hcol.
    + exists (map (mkMove from) vm ++ res'). split.
      * intros k. cbn [collectMoves].
        unfold bind at 1. unfold readBoard, ask. cbv beta iota.
        rewrite Hcol. unfold bind at 1. unfold bind at 1. rewrite Hvm.
        unfold ret at 1. cbv beta iota. unfold bind. by rewrite Hres'.
      * intros m. rewrite elem_of_app, Hiff'. split.
        -- intros [Hm|(Hin & Hrest)].
           ++ apply list_elem_of_In, in_map_iff in Hm as ([tr tc] & <- & Hto).
              apply list_elem_of_In, Hiffv in Hto as [Hon Hv].
              cbn [mvFrom mvTo fst snd].
              destruct from as [fr fc]. split; [left|done].
           ++ split; [by right|done].
        -- intros (Hin & Hc & Hon & Hv).
           apply elem_of_cons in Hin as [Hfrom|Hin]; [|by right].
           left. apply list_elem_of_In, in_map_iff.
           exists (mvTo m). split; [destruct m; simpl in *; congruence|].
           apply list_elem_of_In.
           destruct (mvTo m) as [tr tc] eqn:Hto. apply Hiffv.
           rewrite Hfrom in Hv. done.
    + exists res'. split.
      * intros k. cbn [collectMoves].
        unfold bind at 1. unfold readBoard, ask. cbv beta iota.
        rewrite Hcol. unfold bind at 1. unfold ret at 1. cbv beta iota.
        unfold bind. by rewrite Hres'.
      * intros m. rewrite Hiff'. split.
        -- intros (Hin & Hrest). split; [by right|done].
        -- intros (Hin & Hc & Hrest).
           apply elem_of_cons in Hin as [Hfrom|Hin]; [|done].
           rewrite Hfrom in Hc. congruence.
Qed.

(** X8. On an 8x8 board getAllValidMoves(color) returns, leaves the game
    unchanged, and lists exactly the moves from a square holding a piece
    of that color to a square of the board that isValidMove accepts; the
    list is empty when the color is not the player to move. *)
Theorem getAllValidMoves_spec (n : nat) (g : Game) (c : Color) :
  wf_board (board g) →
  ∃ res, (∀ k, getAllValidMoves (S k) c g = Some (res, g)) ∧
         (∀ m, m ∈ res ↔
               hasColor (getSq (board g) (mvFrom m).1 (mvFrom m).2) c = true ∧
               on_board (mvTo m).1 (mvTo m).2 ∧
               isValidMove (S n) (mvFrom m).1 (mvFrom m).2
                           (mvTo m).1 (mvTo m).2 g = Some (true, g)) ∧
         (c ≠ currentPlayer g → res = []).
Proof.
  intros Hwf.
  destruct (collectMoves_spec n g c allSquares Hwf) as (res & Hres & Hiff).
  exists res. split; [done|]. split.
  - intros m. rewrite Hiff. split; [by intros (_ & ?)|].
    intros (Hc & Hrest). split; [|done].
    destruct (mvFrom m) as [fr fc]. apply on_board_allSquares.
    cbn [fst snd] in Hc.
    destruct (getSq (board g) fr fc) as [p|] eqn:Hp; [|done].
    by eapply getSq_Some_on_board.
  - intros Hne. destruct res as [|m res]; [done|]. exfalso.
    assert (m ∈ m :: res) as Hm by left.
    apply Hiff in Hm as (_ & Hc & _ & Hv).
    apply (isValidMove_simulation_safe n g _ _ _ _ Hwf) in Hv
      as (piece & Hpc & Hcol & _).
    rewrite Hpc in Hc. cbn [hasColor] in Hc. rewrite Hcol in Hc.
    destruct (currentPlayer g), c; done.
Qed.

Lemma getAllValidMoves_spec_witness :
  ∃ res, (∀ k, getAllValidMoves (S k) black initialGame
               = Some (res, initialGame)) ∧
         (∀ m, m ∈ res ↔
               hasColor (getSq (board initialGame) (mvFrom m).1 (mvFrom m).2)
                        black = true ∧
               on_board (mvTo m).1 (mvTo m).2 ∧
               isValidMove 1 (mvFrom m).1 (mvFrom m).2
                           (mvTo m).1 (mvTo m).2 initialGame
               = Some (true, initialGame)) ∧
         (black ≠ currentPlayer initialGame → res = []).
Proof.
  apply (getAllValidMoves_spec 0 initialGame black).
  split; [reflexivity|]. repeat constructor.
Defined.



(** ** What makeMove does to the board *)

Lemma getSq_setSq (b : Board) r c v r' c' :
  wf_board b → on_board r c →
  getSq (setSq b r c v) r' c'
  = if bool_decide (r = r' ∧ c = c') then v else getSq b r' c'.
Proof.
  intros Hwf Hon. case_bool_decide as Heq.
  - destruct Heq as [<- <-]. by apply getSq_setSq_same.
  - apply getSq_setSq_other.
    destruct (decide (r = r')); [right|left]; naive_solver.
Qed.

Lemma bind_run {A B} (m : M A) (k : A → M B) g a g1 :
  m g = Some (a, g1) → bind m k g = k a g1.
Proof. intros H. unfold bind. by rewrite H. Qed.

(** The later steps of makeMove do not throw. *)
Lemma makeMove_after_special (g g3 : Game) fr fc tr tc piece :
  getSq (board g) fr fc = Some piece →
  handleSpecialMoves fr fc tr tc g = Some (tt, g3) →
  ∃ g', makeMove fr fc tr tc g = Some (tt, g').
Proof.
  intros Hpc Hsp. unfold makeMove.
  rewrite (bind_run _ _ g (Some piece) g) by (unfold readBoard, ask; by rewrite Hpc).
  rewrite (bind_run _ _ g (getSq (board g) tr tc) g) by done.
  rewrite (bind_run _ _ g tt g3) by done.
  assert (∃ g4, match getSq (board g) tr tc with
                | Some p => capturePiece p
                | None => ret tt
                end g3 = Some (tt, g4)) as [g4 H4].
  { destruct (getSq (board g) tr tc); eexists; reflexivity. }
  rewrite (bind_run _ _ g3 tt g4) by done.
  unfold bind, writeBoard, updateCastlingRights, ask, pushHistory,
    updateEnPassantTarget, modify. eauto.
Qed.

(** The special moves do nothing for a piece that neither castles nor
    lands on the en-passant target. *)
Lemma handleSpecialMoves_skip (g : Game) fr fc tr tc piece :
  getSq (board g) fr fc = Some piece →
  PieceType_eqb (ptype piece) king && (Z.abs (tc - fc) =? 2) = false →
  PieceType_eqb (ptype piece) pawn && isEnPassantTarget g tr tc = false →
  handleSpecialMoves fr fc tr tc g = Some (tt, g).
Proof.
  intros Hpc Hk Hp. unfold handleSpecialMoves, bind, readBoard, ask.
  rewrite Hpc, Hk. unfold ret. by rewrite Hp.
Qed.

Lemma capture_tally (g g' : Game) (cell : option Piece) :
  match cell with
  | Some p => capturePiece p g = Some (tt, g')
  | None => g' = g
  end →
  board g' = board g ∧
  match cell with
  | Some q =>
      byColor (capturedPieces g') (opposite (pcolor q))
      = byColor (capturedPieces g) (opposite (pcolor q)) ++ [q] ∧
      byColor (scores g') (opposite (pcolor q))
      = byColor (scores g) (opposite (pcolor q)) + pieceValues (ptype q) ∧
      byColor (capturedPieces g') (pcolor q)
      = byColor (capturedPieces g) (pcolor q) ∧
      byColor (scores g') (pcolor q) = byColor (scores g) (pcolor q)
  | None => capturedPieces g' = capturedPieces g ∧ scores g' = scores g
  end.
Proof.
  destruct cell as [q|]; [|by intros ->].
  unfold capturePiece, modify. intros H. injection H as <-.
  split; [done|]. cbn [capturedPieces scores].
  by destruct (pcolor q).
Qed.

Lemma makeMove_ordinary_effect (g : Game) (fromRow fromCol toRow toCol : Z)
    (piece : Piece) :
  wf_board (board g) →
  getSq (board g) fromRow fromCol = Some piece →
  on_board toRow toCol →
  (fromRow ≠ toRow ∨ fromCol ≠ toCol) →
  (ptype piece = king → Z.abs (toCol - fromCol) ≠ 2) →
  (ptype piece = pawn → isEnPassantTarget g toRow toCol = false) →
  ∃ g', makeMove fromRow fromCol toRow toCol g = Some (tt, g') ∧
    getSq (board g') toRow toCol = Some (markMoved piece) ∧
    getSq (board g') fromRow fromCol = None ∧
    (∀ r c, (r ≠ fromRow ∨ c ≠ fromCol) → (r ≠ toRow ∨ c ≠ toCol) →
            getSq (board g') r c = getSq (board g) r c) ∧
    match getSq (board g) toRow toCol with
    | Some q =>
        byColor (capturedPieces g') (opposite (pcolor q))
        = byColor (capturedPieces g) (opposite (pcolor q)) ++ [q] ∧
        byColor (scores g') (opposite (pcolor q))
        = byColor (scores g) (opposite (pcolor q)) + pieceValues (ptype q) ∧
        byColor (capturedPieces g') (pcolor q)
        = byColor (capturedPieces g) (pcolor q) ∧
        byColor (scores g') (pcolor q) = byColor (scores g) (pcolor q)
    | None => capturedPieces g' = capturedPieces g ∧ scores g' = scores g
    end.
Proof.
  intros Hwf Hpc Hto Hne Hking Hpawn.
  pose proof (getSq_Some_on_board _ _ _ _ Hwf Hpc) as Hfrom.
  assert (handleSpecialMoves fromRow fromCol toRow toCol g = Some (tt, g))
    as Hsp.
  { apply (handleSpecialMoves_skip g _ _ _ _ piece Hpc).
    - destruct (ptype piece) eqn:Ht; cbn [PieceType_eqb andb]; try done.
      specialize (Hking eq_refl). lia.
    - destruct (ptype piece) eqn:Ht; cbn [PieceType_eqb andb]; try done.
      by apply Hpawn. }
  destruct (makeMove_after_special g g _ _ _ _ piece Hpc Hsp) as [g' Hm].
  exists g'. split; [done|].
  apply makeMove_inv in Hm
    as (piece' & g3 & g4 & Hpc' & Hsp' & Htake & Hb & Hs & Hc & _).
  rewrite Hpc in Hpc'. injection Hpc' as <-.
  rewrite Hsp in Hsp'. injection Hsp' as <-.
  destruct (capture_tally g g4 (getSq (board g) toRow toCol) Htake)
    as [Hb4 Htally].
  rewrite Hb, Hb4, Hs, Hc.
  split; [|split; [|split; [|done]]].
  - rewrite getSq_setSq by (by try apply wf_setSq).
    rewrite bool_decide_eq_false_2
      by (intros [? ?]; destruct Hne; congruence).
    by apply getSq_setSq_same.
  - apply getSq_setSq_same; [by apply wf_setSq|done].
  - intros r c H1 H2.
    rewrite getSq_setSq_other by (destruct H1; [left|right]; congruence).
    rewrite getSq_setSq_other by (destruct H2; [left|right]; congruence).
    done.
Qed.

(** X10. On an 8x8 board, makeMove of a piece to a different square of
    the board, for a move that is neither a king's two-column move nor a
    pawn's move onto the en-passant target, returns; afterwards the
    destination holds the piece with hasMoved set, the origin is empty,
    every other square is as before, and a piece that stood on the
    destination has been appended to the captured list, and its value
    added to the score, of the color opposite to its own, the other list
    and score being as before. *)
Theorem makeMove_ordinary (g : Game) (fromRow fromCol toRow toCol : Z)
    (piece : Piece) :
  wf_board (board g) →
  getSq (board g) fromRow fromCol = Some piece →
  on_board toRow toCol →
  (fromRow ≠ toRow ∨ fromCol ≠ toCol) →
  (ptype piece = king → Z.abs (toCol - fromCol) ≠ 2) →
  (ptype piece = pawn → isEnPassantTarget g toRow toCol = false) →
  ∃ g', makeMove fromRow fromCol toRow toCol g = Some (tt, g') ∧
    getSq (board g') toRow toCol = Some (markMoved piece) ∧
    getSq (board g') fromRow fromCol = None ∧
    (∀ r c, (r ≠ fromRow ∨ c ≠ fromCol) → (r ≠ toRow ∨ c ≠ toCol) →
            getSq (board g') r c = getSq (board g) r c) ∧
    match getSq (board g) toRow toCol with
    | Some q =>
        byColor (capturedPieces g') (opposite (pcolor q))
        = byColor (capturedPieces g) (opposite (pcolor q)) ++ [q] ∧
        byColor (scores g') (opposite (pcolor q))
        = byColor (scores g) (opposite (pcolor q)) + pieceValues (ptype q) ∧
        byColor (capturedPieces g') (pcolor q)
        = byColor (capturedPieces g) (pcolor q) ∧
        byColor (scores g') (pcolor q) = byColor (scores g) (pcolor q)
    | None => capturedPieces g' = capturedPieces g ∧ scores g' = scores g
    end.
Proof. apply makeMove_ordinary_effect. Qed.

Lemma makeMove_ordinary_witness :
  ∃ g', makeMove 4 4 3 3 (theGame [mv 6 4 4 4; mv 1 3 3 3]) = Some (tt, g') ∧
    getSq (board g') 3 3 = Some (markMoved (mkPiece pawn white true)) ∧
    getSq (board g') 4 4 = None ∧
    (∀ r c, (r ≠ 4 ∨ c ≠ 4) → (r ≠ 3 ∨ c ≠ 3) →
            getSq (board g') r c
            = getSq (board (theGame [mv 6 4 4 4; mv 1 3 3 3])) r c) ∧
    match getSq (board (theGame [mv 6 4 4 4; mv 1 3 3 3])) 3 3 with
    | Some q =>
        byColor (capturedPieces g') (opposite (pcolor q))
        = byColor (capturedPieces (theGame [mv 6 4 4 4; mv 1 3 3 3]))
                  (opposite (pcolor q)) ++ [q] ∧
        byColor (scores g') (opposite (pcolor q))
        = byColor (scores (theGame [mv 6 4 4 4; mv 1 3 3 3]))
                  (opposite (pcolor q)) + pieceValues (ptype q) ∧
        byColor (capturedPieces g') (pcolor q)
        = byColor (capturedPieces (theGame [mv 6 4 4 4; mv 1 3 3 3]))
                  (pcolor q) ∧
        byColor (scores g') (pcolor q)
        = byColor (scores (theGame [mv 6 4 4 4; mv 1 3 3 3])) (pcolor q)
    | None => capturedPieces g'
              = capturedPieces (theGame [mv 6 4 4 4; mv 1 3 3 3])
              ∧ scores g' = scores (theGame [mv 6 4 4 4; mv 1 3 3 3])
    end.
Proof.
  apply (makeMove_ordinary (theGame [mv 6 4 4 4; mv 1 3 3 3]) 4 4 3 3
           (mkPiece pawn white true)).
  - split; [reflexivity|]. vm_compute. repeat constructor.
  - vm_compute. reflexivity.
  - unfold on_board. lia.
  - left. lia.
  - discriminate.
  - intros _. vm_compute. reflexivity.
Defined.

(** ** En passant and castling as makeMove plays them *)

Lemma handleSpecialMoves_ep (g : Game) fr fc tr tc piece passed :
  getSq (board g) fr fc = Some piece → ptype piece = pawn →
  isEnPassantTarget g tr tc = true →
  getSq (board g)
        (match pcolor piece with white => tr + 1 | black => tr - 1 end) tc
  = Some passed →
  ∃ gc, capturePiece passed g = Some (tt, gc) ∧
        handleSpecialMoves fr fc tr tc g
        = Some (tt, withBoard gc
                      (setSq (board gc)
                         (match pcolor piece with
                          | white => tr + 1 | black => tr - 1 end) tc None)).
Proof.
  intros Hpc Hpawn Hep Hpassed.
  eexists. split; [reflexivity|].
  unfold handleSpecialMoves.
  rewrite (bind_run _ _ g (Some piece) g)
    by (unfold readBoard, ask; by rewrite Hpc).
  rewrite Hpawn. cbn [PieceType_eqb andb].
  rewrite (bind_run _ _ g tt g) by done.
  rewrite (bind_run _ _ g true g) by (unfold ask; by rewrite Hep).
  cbn [andb].
  rewrite (bind_run _ _ g (Some passed) g)
    by (unfold readBoard, ask; by rewrite Hpassed).
  unfold bind, capturePiece, modify, writeBoard. done.
Qed.

(** X11. On an 8x8 board, makeMove of a pawn from another column to the
    en-passant target, when that square is empty and the square behind
    it (one row back from the mover's side) holds a piece, returns; afterwards the pawn
    stands on the target with hasMoved set, the origin and the square
    behind the target are empty, every other square is as before, and
    the piece removed has been appended to the captured list, and its
    value added to the score, of the color opposite to its own. *)
Theorem makeMove_enPassant (g : Game) (fromRow fromCol toRow toCol : Z)
    (piece passed : Piece) :
  wf_board (board g) →
  getSq (board g) fromRow fromCol = Some piece → ptype piece = pawn →
  isEnPassantTarget g toRow toCol = true →
  on_board toRow toCol →
  fromCol ≠ toCol →
  getSq (board g) toRow toCol = None →
  let passedRow :=
    match pcolor piece with white => toRow + 1 | black => toRow - 1 end in
  getSq (board g) passedRow toCol = Some passed →
  ∃ g', makeMove fromRow fromCol toRow toCol g = Some (tt, g') ∧
    getSq (board g') toRow toCol = Some (markMoved piece) ∧
    getSq (board g') fromRow fromCol = None ∧
    getSq (board g') passedRow toCol = None ∧
    (∀ r c, (r ≠ fromRow ∨ c ≠ fromCol) → (r ≠ toRow ∨ c ≠ toCol) →
            (r ≠ passedRow ∨ c ≠ toCol) →
            getSq (board g') r c = getSq (board g) r c) ∧
    byColor (capturedPieces g') (opposite (pcolor passed))
    = byColor (capturedPieces g) (opposite (pcolor passed)) ++ [passed] ∧
    byColor (scores g') (opposite (pcolor passed))
    = byColor (scores g) (opposite (pcolor passed))
      + pieceValues (ptype passed) ∧
    byColor (capturedPieces g') (pcolor passed)
    = byColor (capturedPieces g) (pcolor passed) ∧
    byColor (scores g') (pcolor passed) = byColor (scores g) (pcolor passed).
Proof.
  intros Hwf Hpc Hpawn Hep Hto _ Hempty passedRow Hpassed.
  pose proof (getSq_Some_on_board _ _ _ _ Hwf Hpc) as Hfrom.
  pose proof (getSq_Some_on_board _ _ _ _ Hwf Hpassed) as Hpon.
  assert (fromRow ≠ toRow ∨ fromCol ≠ toCol) as Hne.
  { destruct (decide (fromRow = toRow)) as [->|?]; [|by left].
    destruct (decide (fromCol = toCol)) as [->|?]; [|by right].
    congruence. }
  assert (passedRow ≠ toRow) as Hprow
    by (subst passedRow; destruct (pcolor piece); lia).
  destruct (handleSpecialMoves_ep g _ _ _ _ piece passed Hpc Hpawn Hep Hpassed)
    as (gc & Hcap & Hsp). fold passedRow in Hsp.
  destruct (makeMove_after_special g _ _ _ _ _ piece Hpc Hsp) as [g' Hm].
  exists g'. split; [done|].
  apply makeMove_inv in Hm
    as (piece' & g3 & g4 & Hpc' & Hsp' & Htake & Hb & Hs & Hc & _).
  rewrite Hpc in Hpc'. injection Hpc' as <-.
  rewrite Hsp in Hsp'. injection Hsp' as <-.
  rewrite Hempty in Htake. subst g4.
  destruct (capture_tally g gc (Some passed) Hcap) as [Hbc Htally].
  cbn [board withBoard capturedPieces scores] in Hb, Hs, Hc.
  rewrite Hb, Hbc, Hs, Hc.
  assert (wf_board (setSq (board g) passedRow toCol None)) as Hwf1
    by (by apply wf_setSq).
  split; [|split; [|split; [|split; [|done]]]].
  - rewrite getSq_setSq_other by (destruct Hne; [left|right]; congruence).
    by apply getSq_setSq_same.
  - apply getSq_setSq_same; [by apply wf_setSq|done].
  - rewrite getSq_setSq by (by try apply wf_setSq).
    case_bool_decide; [done|].
    rewrite getSq_setSq_other by (left; congruence).
    by apply getSq_setSq_same.
  - intros r c H1 H2 H3.
    rewrite getSq_setSq_other by (destruct H1; [left|right]; congruence).
    rewrite getSq_setSq_other by (destruct H2; [left|right]; congruence).
    rewrite getSq_setSq_other by (destruct H3; [left|right]; congruence).
    done.
Qed.

Lemma makeMove_enPassant_witness :
  ∃ g', makeMove 3 4 2 3 (theGame plainEnPassant) = Some (tt, g') ∧
    getSq (board g') 2 3 = Some (markMoved (mkPiece pawn white true)) ∧
    getSq (board g') 3 4 = None ∧
    getSq (board g') (2 + 1) 3 = None ∧
    (∀ r c, (r ≠ 3 ∨ c ≠ 4) → (r ≠ 2 ∨ c ≠ 3) → (r ≠ 2 + 1 ∨ c ≠ 3) →
            getSq (board g') r c = getSq (board (theGame plainEnPassant)) r c) ∧
    byColor (capturedPieces g') (opposite black)
    = byColor (capturedPieces (theGame plainEnPassant)) (opposite black)
      ++ [mkPiece pawn black true] ∧
    byColor (scores g') (opposite black)
    = byColor (scores (theGame plainEnPassant)) (opposite black)
      + pieceValues pawn ∧
    byColor (capturedPieces g') black
    = byColor (capturedPieces (theGame plainEnPassant)) black ∧
    byColor (scores g') black = byColor (scores (theGame plainEnPassant)) black.
Proof.
  apply (makeMove_enPassant (theGame plainEnPassant) 3 4 2 3
           (mkPiece pawn white true) (mkPiece pawn black true)).
  - split; [reflexivity|]. vm_compute. repeat constructor.
  - vm_compute. reflexivity.
  - reflexivity.
  - vm_compute. reflexivity.
  - unfold on_board. lia.
  - lia.
  - vm_compute. reflexivity.
  - vm_compute. reflexivity.
Defined.

Lemma canCastle_true_inv att (g gx : Game) fr fc tr tc :
  canCastleWith att fr fc tr tc g = Some (true, gx) →
  ∃ piece r,
    getSq (board g) fr fc = Some piece ∧ hasMoved piece = false ∧
    getSq (board g) fr (if tc >? fc then 7 else 0) = Some r ∧
    ptype r = rook ∧ hasMoved r = false ∧
    castlingRight g (pcolor piece) (tc >? fc) = true ∧
    ∀ col, Z.min fc (if tc >? fc then 7 else 0) < col
           < Z.max fc (if tc >? fc then 7 else 0) →
           getSq (board g) fr col = None.
Proof.
  intros H. unfold canCastleWith in H.
  bind_inv H.
  destruct (getSq (board g) fr fc) as [piece|] eqn:Hpc; [|done].
  destruct (hasMoved piece) eqn:Hmoved; [done|].
  bind_inv H.
  destruct (getSq (board g) fr (if tc >? fc then 7 else 0)) as [r|] eqn:Hr;
    [|done].
  cbn [rookReady] in H.
  destruct (PieceType_eqb (ptype r) rook) eqn:Ht; [|done].
  destruct (hasMoved r) eqn:Hrm; [done|]. cbn [negb andb] in H.
  bind_inv H.
  destruct (castlingRight g (pcolor piece) (tc >? fc)) eqn:Hright; [|done].
  cbn [negb] in H.
  apply bind_Some in H as (blocked & g1 & Hblocked & H).
  rewrite existsM_occupied in Hblocked. injection Hblocked as <- <-.
  match type of H with (if ?b then _ else _) _ = _ =>
    destruct b eqn:Hex end; [done|].
  exists piece, r. split; [done|]. split; [done|]. split; [done|].
  split; [by destruct (ptype r)|]. split; [done|]. split; [done|].
  intros col Hcol.
  destruct (getSq (board g) fr col) as [q|] eqn:Hq; [|done].
  exfalso. apply not_true_iff_false in Hex. apply Hex.
  apply existsb_exists. exists col. split.
  - apply list_elem_of_In, elem_of_seqZ. lia.
  - by rewrite Hq.
Qed.

Lemma handleSpecialMoves_castle (g : Game) fr fc tr tc piece r :
  getSq (board g) fr fc = Some piece → ptype piece = king →
  Z.abs (tc - fc) = 2 →
  getSq (board g) fr (if tc >? fc then 7 else 0) = Some r →
  handleSpecialMoves fr fc tr tc g
  = Some (tt, withBoard g
                (setSq (setSq (setSq (board g) fr (if tc >? fc then 5 else 3)
                                     (Some r))
                              fr (if tc >? fc then 7 else 0) None)
                       fr (if tc >? fc then 5 else 3) (Some (markMoved r)))).
Proof.
  intros Hpc Hking Hd Hr. unfold handleSpecialMoves.
  rewrite (bind_run _ _ g (Some piece) g)
    by (unfold readBoard, ask; by rewrite Hpc).
  rewrite Hking. cbn [PieceType_eqb andb].
  replace (Z.abs (tc - fc) =? 2) with true by lia.
  unfold bind, readBoard, writeBoard, ask, ret. cbn [board withBoard].
  rewrite Hr. by rewrite !withBoard_withBoard.
Qed.

(** X12. On an 8x8 board, when isValidMove accepts a two-column move of
    a king that stands in column 4, the move stays in the king's row,
    the corner of that side holds a rook, and makeMove returns;
    afterwards the king stands on the destination and the rook on the
    square the king crossed, both with hasMoved set, the king's square
    and the corner are empty, every other square is as before, and the
    captured lists and scores are unchanged. *)
Theorem makeMove_castling (n : nat) (g : Game) (fromRow toRow toCol : Z)
    (piece : Piece) :
  wf_board (board g) →
  getSq (board g) fromRow 4 = Some piece → ptype piece = king →
  toCol = 6 ∨ toCol = 2 →
  isValidMove (S n) fromRow 4 toRow toCol g = Some (true, g) →
  let corner := if toCol >? 4 then 7 else 0 in
  let crossed := if toCol >? 4 then 5 else 3 in
  ∃ g' r, makeMove fromRow 4 toRow toCol g = Some (tt, g') ∧
    toRow = fromRow ∧
    getSq (board g) fromRow corner = Some r ∧ ptype r = rook ∧
    getSq (board g') fromRow toCol = Some (markMoved piece) ∧
    getSq (board g') fromRow crossed = Some (markMoved r) ∧
    getSq (board g') fromRow 4 = None ∧
    getSq (board g') fromRow corner = None ∧
    (∀ row col,
       row ≠ fromRow ∨ (col ≠ 4 ∧ col ≠ toCol ∧ col ≠ corner ∧ col ≠ crossed) →
       getSq (board g') row col = getSq (board g) row col) ∧
    capturedPieces g' = capturedPieces g ∧ scores g' = scores g.
Proof.
  intros Hwf Hpc Hking Htc Hvalid corner crossed.
  destruct (getSq_Some_on_board _ _ _ _ Hwf Hpc) as [Hfr _].
  destruct (isValidMove_inv n g _ _ _ _ Hwf Hvalid)
    as (piece' & Hpc' & _ & _ & _ & _ & Hshape & _).
  rewrite Hpc in Hpc'. injection Hpc' as <-.
  unfold isPieceMovementValid, isPieceMovementValidWith in Hshape.
  rewrite Hking in Hshape. unfold isKingMoveValidWith in Hshape.
  assert (Z.abs (toCol - 4) = 2) as Hd by lia.
  replace (Z.abs (toCol - 4) <=? 1) with false in Hshape by lia.
  rewrite andb_false_r in Hshape.
  destruct ((Z.abs (toRow - fromRow) =? 0) && (Z.abs (toCol - 4) =? 2)) eqn:Hrow;
    [|done].
  assert (toRow = fromRow) as -> by lia.
  apply canCastle_true_inv in Hshape
    as (piece' & r & Hpc' & _ & Hr & Hrook & _ & _ & Hpath).
  fold corner in Hr, Hpath.
  assert (getSq (board g) fromRow toCol = None) as Hdest
    by (apply Hpath; subst corner; destruct Htc; subst toCol; simpl; lia).
  pose proof (handleSpecialMoves_castle g fromRow 4 fromRow toCol piece r
                Hpc Hking Hd Hr) as Hsp.
  fold corner crossed in Hsp.
  destruct (makeMove_after_special g _ _ _ _ _ piece Hpc Hsp) as [g' Hm].
  exists g', r. split; [done|]. split; [done|]. split; [done|].
  split; [done|].
  apply makeMove_inv in Hm
    as (piece2 & g3 & g4 & Hpc2 & Hsp' & Htake & Hb & Hs & Hc & _).
  rewrite Hpc in Hpc2. injection Hpc2 as <-.
  rewrite Hsp in Hsp'. injection Hsp' as <-.
  rewrite Hdest in Htake. subst g4.
  cbn [board withBoard capturedPieces scores] in Hb, Hs, Hc.
  rewrite Hb, Hs, Hc.
  assert (on_board fromRow 4 ∧ on_board fromRow toCol ∧
          on_board fromRow corner ∧ on_board fromRow crossed)
    as (Hon4 & Hont & Honc & Honx).
  { unfold on_board. subst corner crossed.
    destruct Htc; subst toCol; simpl; lia. }
  assert (4 ≠ toCol ∧ 4 ≠ corner ∧ 4 ≠ crossed ∧ toCol ≠ corner ∧
          toCol ≠ crossed ∧ corner ≠ crossed) as (N1 & N2 & N3 & N4 & N5 & N6).
  { subst corner crossed. destruct Htc; subst toCol; simpl; lia. }
  split; [|split; [|split; [|split; [|split; [|done]]]]].
  - rewrite getSq_setSq_other by (right; congruence).
    apply getSq_setSq_same; [by repeat apply wf_setSq|done].
  - rewrite getSq_setSq_other by (right; congruence).
    rewrite getSq_setSq_other by (right; congruence).
    apply getSq_setSq_same; [by repeat apply wf_setSq|done].
  - apply getSq_setSq_same; [by repeat apply wf_setSq|done].
  - rewrite getSq_setSq_other by (right; congruence).
    rewrite getSq_setSq_other by (right; congruence).
    rewrite getSq_setSq_other by (right; congruence).
    apply getSq_setSq_same; [by repeat apply wf_setSq|done].
  - intros row col Hother.
    rewrite !getSq_setSq_other
      by (destruct Hother as [?|(? & ? & ? & ?)]; [left|right]; congruence).
    done.
Qed.

Lemma makeMove_castling_witness :
  ∃ g' r, makeMove 7 4 7 6 (theGame readyToCastle) = Some (tt, g') ∧
    7 = 7 ∧
    getSq (board (theGame readyToCastle)) 7 7 = Some r ∧ ptype r = rook ∧
    getSq (board g') 7 6 = Some (markMoved (mkPiece king white false)) ∧
    getSq (board g') 7 5 = Some (markMoved r) ∧
    getSq (board g') 7 4 = None ∧
    getSq (board g') 7 7 = None ∧
    (∀ row col,
       row ≠ 7 ∨ (col ≠ 4 ∧ col ≠ 6 ∧ col ≠ 7 ∧ col ≠ 5) →
       getSq (board g') row col = getSq (board (theGame readyToCastle)) row col) ∧
    capturedPieces g' = capturedPieces (theGame readyToCastle) ∧
    scores g' = scores (theGame readyToCastle).
Proof.
  apply (makeMove_castling 0 (theGame readyToCastle) 7 7 6
           (mkPiece king white false)).
  - split; [reflexivity|]. vm_compute. repeat constructor.
  - vm_compute. reflexivity.
  - reflexivity.
  - by left.
  - vm_compute. reflexivity.
Defined.

(** ** Castling rights *)

Lemma capturePiece_rights (g g' : Game) p :
  capturePiece p g = Some (tt, g') → castlingRights g' = castlingRights g.
Proof. unfold capturePiece, modify. intros H. by injection H as <-. Qed.

Lemma handleSpecialMoves_rights (g g' : Game) fr fc tr tc :
  handleSpecialMoves fr fc tr tc g = Some (tt, g') →
  castlingRights g' = castlingRights g.
Proof.
  intros H. unfold handleSpecialMoves in H.
  bind_inv H.
  destruct (getSq (board g) fr fc) as [piece|]; [|done].
  apply bind_Some in H as ([] & g1 & Hcastle & H).
  assert (castlingRights g1 = castlingRights g) as H1.
  { destruct (PieceType_eqb (ptype piece) king && (Z.abs (tc - fc) =? 2)).
    - bind_inv Hcastle. bind_inv Hcastle. bind_inv Hcastle.
      destruct (getSq (board g) fr _) as [r|]; [|done].
      unfold writeBoard in Hcastle. by injection Hcastle as <-.
    - unfold ret in Hcastle. by injection Hcastle as <-. }
  bind_inv H.
  destruct (PieceType_eqb (ptype piece) pawn && isEnPassantTarget g1 tr tc).
  - bind_inv H.
    destruct (getSq (board g1) _ tc) as [p|]; [|done].
    apply bind_Some in H as ([] & g2 & Hcap & H).
    unfold writeBoard in H. injection H as <-.
    apply capturePiece_rights in Hcap. cbn [castlingRights withBoard].
    congruence.
  - unfold ret in H. injection H as <-. done.
Qed.

Lemma makeMove_rights (g g' : Game) fr fc tr tc :
  makeMove fr fc tr tc g = Some (tt, g') →
  ∃ piece,
    getSq (board g) fr fc = Some piece ∧
    castlingRights g' =
      setByColor (castlingRights g) (pcolor piece)
        (match ptype piece with
         | king => mkSides false false
         | rook =>
             if fc =? 0
             then mkSides (kingside (byColor (castlingRights g) (pcolor piece)))
                          false
             else if fc =? 7
             then mkSides false
                          (queenside (byColor (castlingRights g) (pcolor piece)))
             else byColor (castlingRights g) (pcolor piece)
         | _ => byColor (castlingRights g) (pcolor piece)
         end).
Proof.
  intros H. unfold makeMove in H.
  bind_inv H. bind_inv H.
  apply bind_Some in H as ([] & g3 & Hspecial & H).
  apply handleSpecialMoves_rights in Hspecial.
  destruct (getSq (board g) fr fc) as [piece|]; [|done].
  apply bind_Some in H as ([] & g4 & Htake & H).
  assert (castlingRights g4 = castlingRights g) as H4.
  { destruct (getSq (board g) tr tc).
    - apply capturePiece_rights in Htake. congruence.
    - unfold ret in Htake. injection Htake as <-. done. }
  exists piece. split; [done|].
  bind_inv H. bind_inv H.
  apply bind_Some in H as ([] & g7 & Hrights & H).
  unfold updateCastlingRights, modify in Hrights. injection Hrights as <-.
  bind_inv H.
  apply bind_Some in H as ([] & g8 & Hpush & H).
  unfold pushHistory, modify in Hpush. injection Hpush as <-.
  unfold updateEnPassantTarget, modify in H. injection H as <-.
  cbn [castlingRights withBoard]. by rewrite H4.
Qed.

(** X13. After a makeMove that returns, with [piece] the piece that
    stood on the origin: no castling right has changed from false to
    true and the rights of the other color are as before; both rights of
    the mover are false when [piece] is a king; the queen-side right is
    false when [piece] is a rook that left column 0 and the king-side
    right is false when it left column 7. *)
Theorem makeMove_castlingRights (g g' : Game)
    (fromRow fromCol toRow toCol : Z) :
  on_board toRow toCol →
  makeMove fromRow fromCol toRow toCol g = Some (tt, g') →
  ∃ piece,
    getSq (board g) fromRow fromCol = Some piece ∧
    (∀ c side, castlingRight g' c side = true → castlingRight g c side = true) ∧
    (∀ side, castlingRight g' (opposite (pcolor piece)) side
             = castlingRight g (opposite (pcolor piece)) side) ∧
    (ptype piece = king →
     ∀ side, castlingRight g' (pcolor piece) side = false) ∧
    (ptype piece = rook → fromCol = 0 →
     castlingRight g' (pcolor piece) false = false) ∧
    (ptype piece = rook → fromCol = 7 →
     castlingRight g' (pcolor piece) true = false).
Proof.
  intros _ H. apply makeMove_rights in H as (piece & Hpc & Hr).
  exists piece. split; [done|]. unfold castlingRight. rewrite Hr.
  split; [|split; [|split; [|split]]].
  - intros c side.
    destruct (pcolor piece), c, (ptype piece), side;
      cbn [setByColor byColor ofWhite ofBlack kingside queenside];
      repeat case_match; cbn [kingside queenside]; done.
  - intros side.
    by destruct (pcolor piece);
      cbn [opposite setByColor byColor ofWhite ofBlack].
  - intros -> side.
    by destruct (pcolor piece), side;
      cbn [setByColor byColor ofWhite ofBlack kingside queenside].
  - intros -> ->.
    by destruct (pcolor piece);
      cbn [setByColor byColor ofWhite ofBlack kingside queenside Z.eqb].
  - intros -> ->.
    by destruct (pcolor piece);
      cbn [setByColor byColor ofWhite ofBlack kingside queenside Z.eqb].
Qed.

Lemma makeMove_castlingRights_witness :
  ∃ piece,
    getSq (board (theGame readyToCastle)) 7 7 = Some piece ∧
    (∀ c side,
       castlingRight (execute (makeMove 7 7 7 6) (theGame readyToCastle)) c side
       = true →
       castlingRight (theGame readyToCastle) c side = true) ∧
    (∀ side,
       castlingRight (execute (makeMove 7 7 7 6) (theGame readyToCastle))
                     (opposite (pcolor piece)) side
       = castlingRight (theGame readyToCastle) (opposite (pcolor piece)) side) ∧
    (ptype piece = king →
     ∀ side,
       castlingRight (execute (makeMove 7 7 7 6) (theGame readyToCastle))
                     (pcolor piece) side = false) ∧
    (ptype piece = rook → 7 = 0 →
     castlingRight (execute (makeMove 7 7 7 6) (theGame readyToCastle))
                   (pcolor piece) false = false) ∧
    (ptype piece = rook → 7 = 7 →
     castlingRight (execute (makeMove 7 7 7 6) (theGame readyToCastle))
                   (pcolor piece) true = false).
Proof.
  apply (makeMove_castlingRights (theGame readyToCastle) _ 7 7 7 6).
  - unfold on_board. lia.
  - vm_compute. reflexivity.
Defined.

(** ** The king after an ordinary move *)

Lemma cellShape_None (x y : option Piece) :
  cellShape x = cellShape y → x = None → y = None.
Proof. destruct x, y; done. Qed.

Lemma isPathClear_loop_shape (k : nat) (b b' : Board) rs cs tr tc :
  sameShape b b' →
  ∀ cr cc, isPathClear_loop k b rs cs tr tc cr cc
           = isPathClear_loop k b' rs cs tr tc cr cc.
Proof.
  intros Hsame. induction k as [|k IH]; intros cr cc; simpl; [done|].
  destruct (negb (cr =? tr) || negb (cc =? tc)); [|done].
  specialize (Hsame cr cc).
  destruct (getSq b cr cc), (getSq b' cr cc); first [done|apply IH].
Qed.

Lemma isRookMoveValid_shape (b b' : Board) fr fc tr tc :
  sameShape b b' →
  isRookMoveValid b fr fc tr tc = isRookMoveValid b' fr fc tr tc.
Proof.
  intros Hsame. unfold isRookMoveValid, isPathClear.
  by rewrite (isPathClear_loop_shape _ b b').
Qed.

Lemma isBishopMoveValid_shape (b b' : Board) fr fc tr tc :
  sameShape b b' →
  isBishopMoveValid b fr fc tr tc = isBishopMoveValid b' fr fc tr tc.
Proof.
  intros Hsame. unfold isBishopMoveValid, isPathClear.
  by rewrite (isPathClear_loop_shape _ b b').
Qed.

Lemma find_ext {X} (f f' : X → bool) (l : list X) :
  (∀ x, f x = f' x) → find f l = find f' l.
Proof.
  intros H. induction l as [|x l IH]; simpl; [done|]. by rewrite H, IH.
Qed.

Lemma findKing_shape (b b' : Board) c :
  sameShape b b' → findKing b c = findKing b' c.
Proof.
  intros Hsame. unfold findKing. apply find_ext. intros [r k]. cbn [fst snd].
  specialize (Hsame r k). unfold isKingOf.
  destruct (getSq b r k) as [p|], (getSq b' r k) as [p'|]; try done.
  cbn [cellShape] in Hsame. by injection Hsame as -> ->.
Qed.

(** On a square that holds a piece of the other color, the test of a
    pawn is the diagonal step alone. *)
Lemma isPawnMoveValid_on_enemy (g : Game) fr fc tr tc pc p :
  getSq (board g) fr fc = Some pc →
  getSq (board g) tr tc = Some p → pcolor p ≠ pcolor pc →
  isPawnMoveValid g fr fc tr tc
  = Some ((Z.abs (tc - fc) =? 1) && (tr - fr =? pawnDirection (pcolor pc))).
Proof.
  intros Hpc Hp Hne. unfold isPawnMoveValid. rewrite Hpc, Hp.
  cbn [occupied negb]. rewrite !andb_false_r.
  destruct ((Z.abs (tc - fc) =? 1) && (tr - fr =? pawnDirection (pcolor pc)));
    [|done].
  by destruct (pcolor p), (pcolor pc).
Qed.

Lemma attackFrom_king_shape (g g' : Game) row col by_ p from :
  wf_board (board g) → wf_board (board g') →
  sameShape (board g) (board g') →
  getSq (board g) row col = Some p → ptype p = king → pcolor p ≠ by_ →
  ∃ v, (∀ att, attackFrom att row col by_ from g = Some (v, g)) ∧
       (∀ att, attackFrom att row col by_ from g' = Some (v, g')).
Proof.
  intros Hwf Hwf' Hsame Hp Hking Hcol.
  pose proof (Hsame row col) as Htarget. rewrite Hp in Htarget.
  destruct (getSq (board g') row col) as [p'|] eqn:Hp'; [|done].
  cbn [cellShape] in Htarget. injection Htarget as Hkt Hkc.
  destruct from as [fr fc]. unfold attackFrom, bind, readBoard, ask.
  cbn [fst snd].
  pose proof (Hsame fr fc) as Hfrom.
  destruct (getSq (board g) fr fc) as [pc|] eqn:Hpc;
    destruct (getSq (board g') fr fc) as [pc'|] eqn:Hpc'; try done.
  2: { by exists false. }
  cbn [cellShape] in Hfrom. injection Hfrom as Hft Hfc.
  rewrite <- Hfc.
  destruct (Color_eqb (pcolor pc) by_) eqn:Hby; [|by exists false].
  assert (pcolor pc = by_) as Hpcby by (by destruct (pcolor pc), by_).
  rewrite <- Hft. unfold isPieceMovementValidWith.
  destruct (ptype pc) eqn:Ht.
  - eexists. unfold askOpt. cbv beta.
    rewrite (isPawnMoveValid_on_enemy g fr fc row col pc p) by congruence.
    rewrite (isPawnMoveValid_on_enemy g' fr fc row col pc' p') by congruence.
    rewrite Hfc. done.
  - by eexists.
  - destruct (isBishopMoveValid_Some (board g) fr fc row col) as [v Hv].
    exists v. unfold askOpt. cbv beta.
    rewrite <- (isBishopMoveValid_shape (board g) (board g') fr fc row col Hsame), Hv. done.
  - destruct (isRookMoveValid_Some (board g) fr fc row col) as [v Hv].
    exists v. unfold askOpt. cbv beta.
    rewrite <- (isRookMoveValid_shape (board g) (board g') fr fc row col Hsame), Hv. done.
  - destruct (isRookMoveValid_Some (board g) fr fc row col) as [v Hv].
    destruct (isBishopMoveValid_Some (board g) fr fc row col) as [w Hw].
    exists (if v then true else w). unfold askOpt, bind. cbv beta.
    rewrite <- (isRookMoveValid_shape (board g) (board g') fr fc row col Hsame), Hv.
    destruct v; [done|]. unfold askOpt. cbv beta.
    rewrite <- (isBishopMoveValid_shape (board g) (board g') fr fc row col Hsame), Hw.
    done.
  - unfold isKingMoveValidWith.
    destruct ((Z.abs (row - fr) <=? 1) && (Z.abs (col - fc) <=? 1));
      [by exists true|].
    destruct ((Z.abs (row - fr) =? 0) && (Z.abs (col - fc) =? 2)) eqn:Hc;
      [|by exists false].
    assert (row = fr) as -> by lia.
    exists false. split; intros att.
    + eapply canCastle_king_target; eauto. lia.
    + eapply canCastle_king_target; eauto; [congruence|lia].
Qed.

Lemma existsM_agree {X} (test test' : X → M bool) (l : list X) (g g' : Game) :
  (∀ x, x ∈ l → ∃ b, test x g = Some (b, g) ∧ test' x g' = Some (b, g')) →
  ∃ v, existsM test l g = Some (v, g) ∧ existsM test' l g' = Some (v, g').
Proof.
  induction l as [|x l IH]; intros Hall.
  - by exists false.
  - destruct (Hall x) as (b & Hb & Hb'); [left|].
    destruct IH as (v & Hv & Hv'); [intros y Hy; apply Hall; by right|].
    cbn [existsM]. unfold bind. rewrite Hb, Hb'.
    destruct b; [by exists true|by exists v].
Qed.

(** isInCheck looks only at the types and colors on the board. *)
Lemma isInCheck_shape (n : nat) (g g' : Game) (c : Color) :
  wf_board (board g) → wf_board (board g') →
  sameShape (board g) (board g') →
  ∃ v, isInCheck (S n) c g = Some (v, g) ∧ isInCheck (S n) c g' = Some (v, g').
Proof.
  intros Hwf Hwf' Hsame. unfold isInCheck, isInCheckWith, bind, ask.
  rewrite <- (findKing_shape _ _ c Hsame).
  destruct (findKing (board g) c) as [[r k]|] eqn:Hk; [|by exists false].
  destruct (findKing_Some _ _ _ _ Hk) as (p & Hp & Hking & Hcol).
  cbn [isSquareAttackedN]. unfold isSquareAttackedBody.
  apply existsM_agree. intros from _.
  destruct (attackFrom_king_shape g g' r k (opposite c) p from)
    as (v & Hv & Hv'); try done.
  - rewrite Hcol. by destruct c.
  - exists v. split; [apply Hv|apply Hv'].
Qed.

Lemma ordinary_move_king_safe (n : nat) (g : Game)
    (fromRow fromCol toRow toCol : Z) (piece : Piece) :
  wf_board (board g) →
  getSq (board g) fromRow fromCol = Some piece →
  isValidMove (S n) fromRow fromCol toRow toCol g = Some (true, g) →
  (ptype piece = king → Z.abs (toCol - fromCol) ≠ 2) →
  (ptype piece = pawn → isEnPassantTarget g toRow toCol = false) →
  ∃ g', makeMove fromRow fromCol toRow toCol g = Some (tt, g') ∧
        isInCheck (S n) (pcolor piece) g' = Some (false, g').
Proof.
  intros Hwf Hpc Hvalid Hking Hpawn.
  destruct (isValidMove_inv n g _ _ _ _ Hwf Hvalid)
    as (piece' & Hpc' & _ & Hto & Hne & _ & _ & Hsafe).
  rewrite Hpc in Hpc'. injection Hpc' as <-.
  pose proof (getSq_Some_on_board _ _ _ _ Hwf Hpc) as Hfrom.
  destruct (makeMove_ordinary_effect g _ _ _ _ piece Hwf Hpc Hto Hne Hking Hpawn)
    as (g' & Hm & Hdest & Horig & Hother & _).
  exists g'. split; [done|].
  pose proof (makeMove_wf _ _ _ _ _ _ Hwf Hm) as Hwf'.
  set (sim := simulated g fromRow fromCol toRow toCol) in *.
  assert (wf_board (board sim)) as Hwfs.
  { unfold sim, simulated. cbn [board withBoard]. by do 2 apply wf_setSq. }
  destruct (isInCheck_shape n sim g' (pcolor piece) Hwfs Hwf') as (v & Hv & Hv').
  - intros r c. unfold sim, simulated. cbn [board withBoard]. rewrite Hpc.
    destruct (decide (r = fromRow ∧ c = fromCol)) as [[-> ->]|Hnf].
    + rewrite getSq_setSq_same by (by try apply wf_setSq). by rewrite Horig.
    + assert (r ≠ fromRow ∨ c ≠ fromCol) as Hnf'.
      { destruct (decide (r = fromRow)) as [->|]; [right|by left].
        intros ->. by apply Hnf. }
      rewrite getSq_setSq_other by (destruct Hnf'; [left|right]; congruence).
      destruct (decide (r = toRow ∧ c = toCol)) as [[-> ->]|Hnt].
      * rewrite getSq_setSq_same by done. by rewrite Hdest.
      * assert (r ≠ toRow ∨ c ≠ toCol) as Hnt'.
        { destruct (decide (r = toRow)) as [->|]; [right|by left].
          intros ->. by apply Hnt. }
        rewrite getSq_setSq_other by (destruct Hnt'; [left|right]; congruence).
        by rewrite Hother.
  - rewrite Hsafe in Hv. by injection Hv as <-.
Qed.

(** X14. On an 8x8 board, when isValidMove accepts a move that is
    neither a king's two-column move nor a pawn's move onto the
    en-passant target, makeMove returns and in the game it leaves the
    mover's king is not attacked: isInCheck of the mover's color returns
    false. *)
Theorem ordinary_move_keeps_king_safe (n : nat) (g : Game)
    (fromRow fromCol toRow toCol : Z) (piece : Piece) :
  wf_board (board g) →
  getSq (board g) fromRow fromCol = Some piece →
  isValidMove (S n) fromRow fromCol toRow toCol g = Some (true, g) →
  (ptype piece = king → Z.abs (toCol - fromCol) ≠ 2) →
  (ptype piece = pawn → isEnPassantTarget g toRow toCol = false) →
  ∃ g', makeMove fromRow fromCol toRow toCol g = Some (tt, g') ∧
        isInCheck (S n) (pcolor piece) g' = Some (false, g').
Proof. apply ordinary_move_king_safe. Qed.

Lemma ordinary_move_keeps_king_safe_witness :
  ∃ g', makeMove 4 4 3 3 (theGame [mv 6 4 4 4; mv 1 3 3 3]) = Some (tt, g') ∧
        isInCheck 1 (pcolor (mkPiece pawn white true)) g' = Some (false, g').
Proof.
  apply (ordinary_move_keeps_king_safe 0
           (theGame [mv 6 4 4 4; mv 1 3 3 3]) 4 4 3 3 (mkPiece pawn white true)).
  - split; [reflexivity|]. vm_compute. repeat constructor.
  - vm_compute. reflexivity.
  - vm_compute. reflexivity.
  - discriminate.
  - intros _. vm_compute. reflexivity.
Defined.

(** ** The end-of-game test after a move *)

Lemma capturePiece_player (g g' : Game) p :
  capturePiece p g = Some (tt, g') → currentPlayer g' = currentPlayer g.
Proof. unfold capturePiece, modify. intros H. by injection H as <-. Qed.

Lemma handleSpecialMoves_player (g g' : Game) fr fc tr tc :
  handleSpecialMoves fr fc tr tc g = Some (tt, g') →
  currentPlayer g' = currentPlayer g.
Proof.
  intros H. unfold handleSpecialMoves in H.
  bind_inv H.
  destruct (getSq (board g) fr fc) as [piece|]; [|done].
  apply bind_Some in H as ([] & g1 & Hcastle & H).
  assert (currentPlayer g1 = currentPlayer g) as H1.
  { destruct (PieceType_eqb (ptype piece) king && (Z.abs (tc - fc) =? 2)).
    - bind_inv Hcastle. bind_inv Hcastle. bind_inv Hcastle.
      destruct (getSq (board g) fr _) as [r|]; [|done].
      unfold writeBoard in Hcastle. by injection Hcastle as <-.
    - unfold ret in Hcastle. by injection Hcastle as <-. }
  bind_inv H.
  destruct (PieceType_eqb (ptype piece) pawn && isEnPassantTarget g1 tr tc).
  - bind_inv H.
    destruct (getSq (board g1) _ tc) as [p|]; [|done].
    apply bind_Some in H as ([] & g2 & Hcap & H).
    unfold writeBoard in H. injection H as <-.
    apply capturePiece_player in Hcap. cbn [currentPlayer withBoard].
    congruence.
  - unfold ret in H. injection H as <-. done.
Qed.

Lemma makeMove_player (g g' : Game) fr fc tr tc :
  makeMove fr fc tr tc g = Some (tt, g') → currentPlayer g' = currentPlayer g.
Proof.
  intros H. unfold makeMove in H.
  bind_inv H. bind_inv H.
  apply bind_Some in H as ([] & g3 & Hspecial & H).
  apply handleSpecialMoves_player in Hspecial.
  destruct (getSq (board g) fr fc) as [piece|]; [|done].
  apply bind_Some in H as ([] & g4 & Htake & H).
  assert (currentPlayer g4 = currentPlayer g) as H4.
  { destruct (getSq (board g) tr tc).
    - apply capturePiece_player in Htake. congruence.
    - unfold ret in Htake. injection Htake as <-. done. }
  bind_inv H. bind_inv H.
  apply bind_Some in H as ([] & g7 & Hrights & H).
  unfold updateCastlingRights, modify in Hrights. injection Hrights as <-.
  bind_inv H.
  apply bind_Some in H as ([] & g8 & Hpush & H).
  unfold pushHistory, modify in Hpush. injection Hpush as <-.
  unfold updateEnPassantTarget, modify in H. injection H as <-.
  cbn [currentPlayer withBoard]. by rewrite H4.
Qed.

(** X15. The test for the end of the game that handleSquareClick and
    makeBotMove make after makeMove asks about this.currentPlayer, which
    is still the mover.  On an 8x8 board, after a move accepted by
    isValidMove that is neither a king's two-column move, nor a pawn's
    move onto the en-passant target, nor a pawn's move to row 0 or 7
    (after which makeBotMove makes the pawn a queen before the test),
    makeMove leaves the player to move as it was, isCheckmate of that
    player is false, and the test ends the game exactly when isStalemate
    of that player is true. *)
Theorem no_checkmate_after_ordinary_move (n : nat) (g : Game)
    (fromRow fromCol toRow toCol : Z) (piece : Piece) :
  wf_board (board g) →
  getSq (board g) fromRow fromCol = Some piece →
  isValidMove (S n) fromRow fromCol toRow toCol g = Some (true, g) →
  (ptype piece = king → Z.abs (toCol - fromCol) ≠ 2) →
  (ptype piece = pawn → isEnPassantTarget g toRow toCol = false) →
  (ptype piece = pawn → toRow ≠ 0 ∧ toRow ≠ 7) →
  ∃ g' over,
    makeMove fromRow fromCol toRow toCol g = Some (tt, g') ∧
    currentPlayer g' = currentPlayer g ∧
    currentPlayer g' = pcolor piece ∧
    (∀ k, isInCheck (S k) (currentPlayer g') g' = Some (false, g')) ∧
    (∀ k, isCheckmate (S k) (currentPlayer g') g' = Some (false, g')) ∧
    (∀ k, isStalemate (S k) (currentPlayer g') g' = Some (over, g')) ∧
    (∀ k, endsGame (S k) g' = Some (over, g')).
Proof.
  intros Hwf Hpc Hvalid Hking Hpawn _.
  destruct (ordinary_move_king_safe n g _ _ _ _ piece Hwf Hpc Hvalid Hking Hpawn)
    as (g' & Hm & Hsafe).
  destruct (isValidMove_inv n g _ _ _ _ Hwf Hvalid) as (piece' & Hpc' & Hcol & _).
  rewrite Hpc in Hpc'. injection Hpc' as <-.
  pose proof (makeMove_player _ _ _ _ _ _ Hm) as Hplayer.
  pose proof (makeMove_wf _ _ _ _ _ _ Hwf Hm) as Hwf'.
  assert (currentPlayer g' = pcolor piece) as Hmover by congruence.
  assert (∀ k, isInCheck (S k) (currentPlayer g') g' = Some (false, g')) as Hchk.
  { destruct (isInCheckN_steady g' (currentPlayer g') Hwf') as [v Hv].
    rewrite Hmover in Hv. rewrite (Hv n) in Hsafe. injection Hsafe as ->.
    by rewrite Hmover. }
  destruct (moves_scan g' (currentPlayer g') allSquares Hwf')
    as (some & ms & Hsome & _).
  assert (∀ k, isStalemate (S k) (currentPlayer g') g'
               = Some (negb some, g')) as Hstale.
  { intros k. unfold isStalemate, bind. rewrite Hchk, Hsome. by destruct some. }
  exists g', (negb some).
  split; [done|]. split; [done|]. split; [done|]. split; [done|].
  split; [|split; [done|]].
  - intros k. unfold isCheckmate, bind. by rewrite Hchk.
  - intros k. unfold endsGame, bind at 1, ask.
    unfold bind at 1. rewrite Hchk. apply Hstale.
Qed.

Lemma no_checkmate_after_ordinary_move_witness :
  ∃ g' over,
    makeMove 4 4 3 3 (theGame [mv 6 4 4 4; mv 1 3 3 3]) = Some (tt, g') ∧
    currentPlayer g' = currentPlayer (theGame [mv 6 4 4 4; mv 1 3 3 3]) ∧
    currentPlayer g' = pcolor (mkPiece pawn white true) ∧
    (∀ k, isInCheck (S k) (currentPlayer g') g' = Some (false, g')) ∧
    (∀ k, isCheckmate (S k) (currentPlayer g') g' = Some (false, g')) ∧
    (∀ k, isStalemate (S k) (currentPlayer g') g' = Some (over, g')) ∧
    (∀ k, endsGame (S k) g' = Some (over, g')).
Proof.
  apply (no_checkmate_after_ordinary_move 0
           (theGame [mv 6 4 4 4; mv 1 3 3 3]) 4 4 3 3 (mkPiece pawn white true)).
  - split; [reflexivity|]. vm_compute. repeat constructor.
  - vm_compute. reflexivity.
  - vm_compute. reflexivity.
  - discriminate.
  - intros _. vm_compute. reflexivity.
  - intros _. lia.
Defined.

(** ** The three bots *)

Lemma afterMove_wf (g : Game) (m : Move) :
  wf_board (board g) → wf_board (board (afterMove g m)).
Proof.
  intros Hwf. unfold afterMove, simulated. cbn [board withBoard].
  by do 2 apply wf_setSq.
Qed.

Lemma givesCheck_run (g : Game) (m : Move) (n : nat) :
  wf_board (board g) →
  isInCheck (S n) white (afterMove g m) = Some (givesCheck g m, afterMove g m).
Proof.
  intros Hwf.
  destruct (isInCheckN_steady (afterMove g m) white) as [v Hv].
  { by apply afterMove_wf. }
  unfold givesCheck. by rewrite (Hv 0%nat), Hv.
Qed.

(** The loop of getMediumMove and getHardMove: the captures are the
    moves with an occupied destination, the checks the other moves after
    which isInCheck('white') is true, both in the order of the
    candidates; the board is restored. *)
Lemma classifyMoves_exact (g : Game) (moves : list Move) :
  wf_board (board g) →
  ∀ captures checks n,
    classifyMoves (S n) moves captures checks g
    = Some ((captures ++ List.filter (isCapture g) moves,
             checks ++ List.filter
                         (λ m, negb (isCapture g m) && givesCheck g m) moves),
            g).
Proof.
  intros Hwf. induction moves as [|move rest IH]; intros captures checks n.
  - cbn [classifyMoves List.filter]. by rewrite !app_nil_r.
  - cbn [List.filter].
    destruct (isCapture g move) eqn:Hocc; unfold isCapture in Hocc;
      cbn [negb andb].
    + cbn [classifyMoves].
      unfold bind at 1. unfold readBoard at 1, ask. cbv beta iota.
      rewrite Hocc. rewrite IH. by rewrite <- app_assoc.
    + set (fr := (mvFrom move).1). set (fc := (mvFrom move).2).
      set (tr := (mvTo move).1) in *. set (tc := (mvTo move).2) in *.
      set (g2 := withBoard g (setSq (setSq (board g) tr tc (getSq (board g) fr fc))
                                    fr fc None)).
      assert (isInCheck (S n) white g2 = Some (givesCheck g move, g2)) as Hgives
        by apply (givesCheck_run g move n Hwf).
      cbn [classifyMoves].
      unfold bind at 1. unfold readBoard at 1, ask. cbv beta iota.
      fold tr tc. rewrite Hocc.
      unfold bind at 1. unfold readBoard at 1, ask. cbv beta iota.
      unfold bind at 1. unfold readBoard at 1, ask. cbv beta iota.
      unfold bind at 1. unfold writeBoard at 1. cbv beta iota.
      unfold bind at 1. unfold writeBoard at 1. cbv beta iota.
      cbn [board withBoard]. rewrite withBoard_withBoard.
      fold fr fc tr tc. fold g2.
      unfold bind at 1. rewrite Hgives.
      unfold bind at 1. unfold writeBoard at 1. cbv beta iota.
      unfold bind at 1. unfold writeBoard at 1. cbv beta iota.
      unfold g2. cbn [board withBoard]. rewrite !withBoard_withBoard.
      rewrite restore_move, withBoard_board. rewrite IH.
      destruct (givesCheck g move); [|done]. by rewrite <- app_assoc.
Qed.

Lemma getHardMove_run (g : Game) (moves : list Move) (n random : nat) :
  wf_board (board g) →
  getHardMove (S n) random moves g
  = let captures := List.filter (isCapture g) moves in
    let checks :=
      List.filter (λ m, negb (isCapture g m) && givesCheck g m) moves in
    if 0 <? Z.of_nat (length captures) then
      match sortBy (compareCaptures g) captures with
      | Some sorted => Some (head sorted, g)
      | None => None
      end
    else if 0 <? Z.of_nat (length checks) then Some (head checks, g)
    else Some (moves !! (random mod length moves)%nat, g).
Proof.
  intros Hwf. unfold getHardMove. unfold bind at 1.
  rewrite (classifyMoves_exact g moves Hwf). cbn [fst snd app]. cbv zeta.
  destruct (0 <? Z.of_nat (length (List.filter (isCapture g) moves))).
  - unfold bind, askOpt. by destruct (sortBy _ _).
  - by destruct (0 <? _).
Qed.

Lemma getMediumMove_run (g : Game) (moves : list Move)
    (takeCapture takeCheck : bool) (n draw : nat) :
  wf_board (board g) →
  getMediumMove (S n) takeCapture takeCheck draw moves g
  = let captures := List.filter (isCapture g) moves in
    let checks :=
      List.filter (λ m, negb (isCapture g m) && givesCheck g m) moves in
    if (0 <? Z.of_nat (length captures)) && takeCapture then
      match sortBy (compareCaptures g) captures with
      | Some sorted => Some (head sorted, g)
      | None => None
      end
    else if (0 <? Z.of_nat (length checks)) && takeCheck
    then Some (checks !! (draw mod length checks)%nat, g)
    else Some (moves !! (draw mod length moves)%nat, g).
Proof.
  intros Hwf. unfold getMediumMove. unfold bind at 1.
  rewrite (classifyMoves_exact g moves Hwf). cbn [fst snd app]. cbv zeta.
  destruct ((0 <? Z.of_nat (length (List.filter (isCapture g) moves)))
            && takeCapture).
  - unfold bind, askOpt. by destruct (sortBy _ _).
  - by destruct (_ && takeCheck).
Qed.

Lemma elem_of_filter_bool {A} (f : A → bool) (l : list A) (x : A) :
  x ∈ List.filter f l ↔ x ∈ l ∧ f x = true.
Proof. by rewrite !list_elem_of_In, filter_In. Qed.

Lemma lookup_mod_member {A} (l : list A) (d : nat) :
  l ≠ [] → ∃ x, l !! (d mod length l)%nat = Some x ∧ x ∈ l.
Proof.
  intros Hne.
  assert (d mod length l < length l)%nat as Hlt.
  { apply Nat.mod_upper_bound. by destruct l. }
  apply lookup_lt_is_Some_2 in Hlt as [x Hx].
  exists x. split; [done|]. by eapply list_elem_of_lookup_2.
Qed.

Lemma length_pos_nonempty {A} (l : list A) :
  (0 <? Z.of_nat (length l)) = negb (bool_decide (l = [])).
Proof. by destruct l. Qed.

(** The sorted captures start with a capture of the greatest value. *)
Lemma sorted_captures_head (g : Game) (moves : list Move) :
  List.filter (isCapture g) moves ≠ [] →
  ∃ sorted best,
    sortBy (compareCaptures g) (List.filter (isCapture g) moves) = Some sorted ∧
    head sorted = Some best ∧ best ∈ moves ∧ isCapture g best = true ∧
    ∀ m, m ∈ moves → isCapture g m = true → captureKey g m <= captureKey g best.
Proof.
  intros Hne. set (captures := List.filter (isCapture g) moves) in *.
  assert (Forall (λ m, isCapture g m = true) captures) as Hcaps.
  { apply Forall_forall. intros m Hm. by apply elem_of_filter_bool in Hm as [_ Hm]. }
  destruct (sortBy_head (captureKey g) (compareCaptures g)
              (λ m, isCapture g m = true) (compareCaptures_key g) captures Hcaps)
    as (sorted & Hsort & _ & Hhead).
  destruct (firstMax_Some (captureKey g) captures Hne) as [best Hbest].
  destruct (firstMax_split (captureKey g) captures best Hbest)
    as (c1 & c2 & Hsplit & Hlt & Hle).
  assert (best ∈ captures) as Hin.
  { rewrite Hsplit. apply elem_of_app. right. left. }
  apply elem_of_filter_bool in Hin as [Hin Hcap].
  exists sorted, best. split; [done|]. split; [congruence|].
  split; [done|]. split; [done|].
  intros m Hm Hc.
  assert (m ∈ captures) as Hmc by (by apply elem_of_filter_bool).
  rewrite Hsplit in Hmc. apply elem_of_app in Hmc as [Hmc|Hmc].
  - specialize (Hlt m Hmc). lia.
  - apply elem_of_cons in Hmc as [->|Hmc]; [lia|by apply Hle].
Qed.

Lemma getRandomMove_member (g : Game) (moves : list Move)
    (prefer : bool) (draw : nat) :
  moves ≠ [] →
  ∃ m, getRandomMove prefer draw moves g = Some (Some m, g) ∧ m ∈ moves.
Proof.
  intros Hne. unfold getRandomMove, bind, ask.
  rewrite length_pos_nonempty.
  case_bool_decide as Hcap; cbn [negb andb].
  - destruct (lookup_mod_member moves draw Hne) as (m & Hm & Hin).
    exists m. unfold ret. by rewrite Hm.
  - destruct prefer.
    + destruct (lookup_mod_member _ draw Hcap) as (m & Hm & Hin).
      exists m. unfold ret. rewrite Hm. split; [done|].
      by apply elem_of_filter_bool in Hin as [Hin _].
    + destruct (lookup_mod_member moves draw Hne) as (m & Hm & Hin).
      exists m. unfold ret. by rewrite Hm.
Qed.

Lemma getMediumMove_member (g : Game) (moves : list Move)
    (takeCapture takeCheck : bool) (n draw : nat) :
  wf_board (board g) → moves ≠ [] →
  ∃ m, getMediumMove (S n) takeCapture takeCheck draw moves g
       = Some (Some m, g) ∧ m ∈ moves.
Proof.
  intros Hwf Hne. rewrite getMediumMove_run by done. cbv zeta.
  rewrite !length_pos_nonempty.
  assert (∃ m, Some (moves !! (draw mod length moves)%nat, g)
               = Some (Some m, g) ∧ m ∈ moves) as Hlast.
  { destruct (lookup_mod_member moves draw Hne) as (m & Hm & Hin).
    exists m. by rewrite Hm. }
  assert (∀ checks : list Move,
            checks = List.filter
                       (λ m, negb (isCapture g m) && givesCheck g m) moves →
            ∃ m, (if negb (bool_decide (checks = [])) && takeCheck
                  then Some (checks !! (draw mod length checks)%nat, g)
                  else Some (moves !! (draw mod length moves)%nat, g))
                 = Some (Some m, g) ∧ m ∈ moves) as Hchecks.
  { intros checks Heq. case_bool_decide as Hchk; cbn [negb andb]; [done|].
    destruct takeCheck; [|done].
    destruct (lookup_mod_member checks draw Hchk) as (m & Hm & Hin).
    exists m. rewrite Hm. split; [done|]. subst checks.
    by apply elem_of_filter_bool in Hin as [Hin _]. }
  case_bool_decide as Hcap; cbn [negb andb]; [by apply Hchecks|].
  destruct takeCapture; [|by apply Hchecks].
  destruct (sorted_captures_head g moves Hcap)
    as (sorted & best & -> & -> & Hin & _).
  by exists best.
Qed.

Lemma getHardMove_member (g : Game) (moves : list Move) (n random : nat) :
  wf_board (board g) → moves ≠ [] →
  ∃ m, getHardMove (S n) random moves g = Some (Some m, g) ∧ m ∈ moves.
Proof.
  intros Hwf Hne. rewrite getHardMove_run by done. cbv zeta.
  rewrite !length_pos_nonempty.
  case_bool_decide as Hcap; cbn [negb].
  - case_bool_decide as Hchk; cbn [negb].
    + destruct (lookup_mod_member moves random Hne) as (m & Hm & Hin).
      exists m. by rewrite Hm.
    + destruct (List.filter (λ m, negb (isCapture g m) && givesCheck g m) moves)
        as [|m checks] eqn:Heq; [done|].
      exists m. split; [done|].
      assert (m ∈ m :: checks) as Hin by left.
      rewrite <- Heq in Hin. by apply elem_of_filter_bool in Hin as [Hin _].
  - destruct (sorted_captures_head g moves Hcap)
      as (sorted & best & -> & -> & Hin & _).
    by exists best.
Qed.

Lemma filter_none {A} (f : A → bool) (l : list A) :
  (∀ x, x ∈ l → f x = false) → List.filter f l = [].
Proof.
  intros H. destruct (List.filter f l) as [|x rest] eqn:Heq; [done|].
  assert (x ∈ List.filter f l) as Hin by (rewrite Heq; left).
  apply elem_of_filter_bool in Hin as [Hin Hx]. rewrite H in Hx; done.
Qed.

Lemma isCapture_false (g : Game) (m : Move) :
  getSq (board g) (mvTo m).1 (mvTo m).2 = None → isCapture g m = false.
Proof. unfold isCapture. by intros ->. Qed.

Lemma isCapture_true (g : Game) (m : Move) :
  isCapture g m = true → ∃ p, getSq (board g) (mvTo m).1 (mvTo m).2 = Some p.
Proof.
  unfold isCapture. destruct (getSq _ _ _) as [p|]; [eauto|done].
Qed.

(** X16. On an 8x8 board and for candidate moves between squares of the
    board, each of getRandomMove, getMediumMove and getHardMove returns,
    whatever the random numbers, and leaves the game as it was; the
    result is one of the candidates, and it is undefined only when the
    list of candidates is empty. *)
Theorem bot_returns_candidate (g : Game) (moves : list Move) :
  wf_board (board g) →
  Forall (λ m, on_board (mvFrom m).1 (mvFrom m).2
               ∧ on_board (mvTo m).1 (mvTo m).2) moves →
  (∀ prefer draw, ∃ r,
     getRandomMove prefer draw moves g = Some (r, g) ∧
     match r with Some m => m ∈ moves | None => moves = [] end) ∧
  (∀ n takeCapture takeCheck draw, ∃ r,
     getMediumMove (S n) takeCapture takeCheck draw moves g = Some (r, g) ∧
     match r with Some m => m ∈ moves | None => moves = [] end) ∧
  (∀ n random, ∃ r,
     getHardMove (S n) random moves g = Some (r, g) ∧
     match r with Some m => m ∈ moves | None => moves = [] end).
Proof.
  intros Hwf _. destruct (decide (moves = [])) as [->|Hne].
  - split; [|split].
    + intros prefer draw. exists None. split; [|done].
      unfold getRandomMove, bind, ask. cbn [List.filter length].
      by destruct prefer.
    + intros n takeCapture takeCheck draw. exists None. split; [|done].
      rewrite getMediumMove_run by done. done.
    + intros n random. exists None. split; [|done].
      rewrite getHardMove_run by done. done.
  - split; [|split].
    + intros prefer draw.
      destruct (getRandomMove_member g moves prefer draw Hne) as (m & Hm & Hin).
      by exists (Some m).
    + intros n takeCapture takeCheck draw.
      destruct (getMediumMove_member g moves takeCapture takeCheck n draw
                  Hwf Hne) as (m & Hm & Hin).
      by exists (Some m).
    + intros n random.
      destruct (getHardMove_member g moves n random Hwf Hne) as (m & Hm & Hin).
      by exists (Some m).
Qed.

Lemma bot_returns_candidate_witness :
  (∀ prefer draw, ∃ r,
     getRandomMove prefer draw [mv 1 0 2 0; mv 1 1 3 1] (theGame [mv 6 4 4 4])
     = Some (r, theGame [mv 6 4 4 4]) ∧
     match r with
     | Some m => m ∈ [mv 1 0 2 0; mv 1 1 3 1]
     | None => [mv 1 0 2 0; mv 1 1 3 1] = []
     end) ∧
  (∀ n takeCapture takeCheck draw, ∃ r,
     getMediumMove (S n) takeCapture takeCheck draw
                   [mv 1 0 2 0; mv 1 1 3 1] (theGame [mv 6 4 4 4])
     = Some (r, theGame [mv 6 4 4 4]) ∧
     match r with
     | Some m => m ∈ [mv 1 0 2 0; mv 1 1 3 1]
     | None => [mv 1 0 2 0; mv 1 1 3 1] = []
     end) ∧
  (∀ n random, ∃ r,
     getHardMove (S n) random [mv 1 0 2 0; mv 1 1 3 1] (theGame [mv 6 4 4 4])
     = Some (r, theGame [mv 6 4 4 4]) ∧
     match r with
     | Some m => m ∈ [mv 1 0 2 0; mv 1 1 3 1]
     | None => [mv 1 0 2 0; mv 1 1 3 1] = []
     end).
Proof.
  apply (bot_returns_candidate (theGame [mv 6 4 4 4]) [mv 1 0 2 0; mv 1 1 3 1]).
  - split; [reflexivity|]. vm_compute. repeat constructor.
  - repeat constructor; simpl; lia.
Defined.

(** X17. The moves the bot chooses from are those of
    getAllValidMoves('black').  On an 8x8 board that list is returned
    with the game unchanged, and each of getRandomMove, getMediumMove and
    getHardMove returns from it, whatever the random numbers, a move that
    starts on a black piece and that isValidMove accepts; the result is
    undefined only when the list is empty. *)
Theorem bot_plays_valid_move (g : Game) :
  wf_board (board g) →
  ∃ moves,
    (∀ k, getAllValidMoves (S k) black g = Some (moves, g)) ∧
    (∀ prefer draw, ∃ r,
       getRandomMove prefer draw moves g = Some (r, g) ∧
       match r with
       | Some m =>
           hasColor (getSq (board g) (mvFrom m).1 (mvFrom m).2) black = true ∧
           ∀ k, isValidMove (S k) (mvFrom m).1 (mvFrom m).2
                            (mvTo m).1 (mvTo m).2 g = Some (true, g)
       | None => moves = []
       end) ∧
    (∀ n takeCapture takeCheck draw, ∃ r,
       getMediumMove (S n) takeCapture takeCheck draw moves g = Some (r, g) ∧
       match r with
       | Some m =>
           hasColor (getSq (board g) (mvFrom m).1 (mvFrom m).2) black = true ∧
           ∀ k, isValidMove (S k) (mvFrom m).1 (mvFrom m).2
                            (mvTo m).1 (mvTo m).2 g = Some (true, g)
       | None => moves = []
       end) ∧
    (∀ n random, ∃ r,
       getHardMove (S n) random moves g = Some (r, g) ∧
       match r with
       | Some m =>
           hasColor (getSq (board g) (mvFrom m).1 (mvFrom m).2) black = true ∧
           ∀ k, isValidMove (S k) (mvFrom m).1 (mvFrom m).2
                            (mvTo m).1 (mvTo m).2 g = Some (true, g)
       | None => moves = []
       end).
Proof.
  intros Hwf.
  destruct (collectMoves_spec 0 g black allSquares Hwf) as (moves & Hres & Hiff).
  exists moves. split; [done|].
  assert (∀ m, m ∈ moves →
            hasColor (getSq (board g) (mvFrom m).1 (mvFrom m).2) black = true ∧
            ∀ k, isValidMove (S k) (mvFrom m).1 (mvFrom m).2
                             (mvTo m).1 (mvTo m).2 g = Some (true, g)) as Hok.
  { intros m Hm. apply Hiff in Hm as (_ & Hcol & _ & Hv). split; [done|].
    intros k.
    destruct (isValidMoveN_steady g (mvFrom m).1 (mvFrom m).2
                (mvTo m).1 (mvTo m).2 Hwf) as [b Hb].
    rewrite (Hb 0%nat) in Hv. injection Hv as ->. apply Hb. }
  destruct (decide (moves = [])) as [->|Hne].
  - split; [|split].
    + intros prefer draw. exists None. split; [|done].
      unfold getRandomMove, bind, ask. cbn [List.filter length].
      by destruct prefer.
    + intros n takeCapture takeCheck draw. exists None. split; [|done].
      rewrite getMediumMove_run by done. done.
    + intros n random. exists None. split; [|done].
      rewrite getHardMove_run by done. done.
  - split; [|split].
    + intros prefer draw.
      destruct (getRandomMove_member g moves prefer draw Hne) as (m & Hm & Hin).
      exists (Some m). split; [done|]. by apply Hok.
    + intros n takeCapture takeCheck draw.
      destruct (getMediumMove_member g moves takeCapture takeCheck n draw
                  Hwf Hne) as (m & Hm & Hin).
      exists (Some m). split; [done|]. by apply Hok.
    + intros n random.
      destruct (getHardMove_member g moves n random Hwf Hne) as (m & Hm & Hin).
      exists (Some m). split; [done|]. by apply Hok.
Qed.

Lemma bot_plays_valid_move_witness :
  ∃ moves,
    (∀ k, getAllValidMoves (S k) black (theGame [mv 6 4 4 4])
          = Some (moves, theGame [mv 6 4 4 4])) ∧
    (∀ prefer draw, ∃ r,
       getRandomMove prefer draw moves (theGame [mv 6 4 4 4])
       = Some (r, theGame [mv 6 4 4 4]) ∧
       match r with
       | Some m =>
           hasColor (getSq (board (theGame [mv 6 4 4 4]))
                           (mvFrom m).1 (mvFrom m).2) black = true ∧
           ∀ k, isValidMove (S k) (mvFrom m).1 (mvFrom m).2
                            (mvTo m).1 (mvTo m).2 (theGame [mv 6 4 4 4])
                = Some (true, theGame [mv 6 4 4 4])
       | None => moves = []
       end) ∧
    (∀ n takeCapture takeCheck draw, ∃ r,
       getMediumMove (S n) takeCapture takeCheck draw moves
                     (theGame [mv 6 4 4 4])
       = Some (r, theGame [mv 6 4 4 4]) ∧
       match r with
       | Some m =>
           hasColor (getSq (board (theGame [mv 6 4 4 4]))
                           (mvFrom m).1 (mvFrom m).2) black = true ∧
           ∀ k, isValidMove (S k) (mvFrom m).1 (mvFrom m).2
                            (mvTo m).1 (mvTo m).2 (theGame [mv 6 4 4 4])
                = Some (true, theGame [mv 6 4 4 4])
       | None => moves = []
       end) ∧
    (∀ n random, ∃ r,
       getHardMove (S n) random moves (theGame [mv 6 4 4 4])
       = Some (r, theGame [mv 6 4 4 4]) ∧
       match r with
       | Some m =>
           hasColor (getSq (board (theGame [mv 6 4 4 4]))
                           (mvFrom m).1 (mvFrom m).2) black = true ∧
           ∀ k, isValidMove (S k) (mvFrom m).1 (mvFrom m).2
                            (mvTo m).1 (mvTo m).2 (theGame [mv 6 4 4 4])
                = Some (true, theGame [mv 6 4 4 4])
       | None => moves = []
       end).
Proof.
  apply (bot_plays_valid_move (theGame [mv 6 4 4 4])).
  split; [reflexivity|]. vm_compute. repeat constructor.
Defined.

(** X18. On an 8x8 board and for candidate moves between squares of the
    board, when some candidate has an occupied destination: getHardMove,
    and getMediumMove when its first random number exceeds 0.2, return
    one and the same candidate [best], whatever the other random numbers,
    and leave the game as it was; [best] has an occupied destination, and
    no candidate takes a piece of greater value, where the values are
    pawn 1, knight 3, bishop 3, rook 5 and queen 9. *)
Theorem medium_capture_as_hard (g : Game) (moves : list Move) :
  wf_board (board g) →
  Forall (λ m, on_board (mvFrom m).1 (mvFrom m).2
               ∧ on_board (mvTo m).1 (mvTo m).2) moves →
  (∃ m, m ∈ moves ∧ occupied (getSq (board g) (mvTo m).1 (mvTo m).2) = true) →
  ∃ best p,
    best ∈ moves ∧
    getSq (board g) (mvTo best).1 (mvTo best).2 = Some p ∧
    (∀ m q, m ∈ moves → getSq (board g) (mvTo m).1 (mvTo m).2 = Some q →
            pieceValues (ptype q) <= pieceValues (ptype p)) ∧
    (pieceValues pawn = 1 ∧ pieceValues knight = 3 ∧ pieceValues bishop = 3 ∧
     pieceValues rook = 5 ∧ pieceValues queen = 9) ∧
    (∀ n random, getHardMove (S n) random moves g = Some (Some best, g)) ∧
    (∀ n takeCheck draw,
       getMediumMove (S n) true takeCheck draw moves g = Some (Some best, g)).
Proof.
  intros Hwf _ (m0 & Hm0 & Hocc0).
  assert (List.filter (isCapture g) moves ≠ []) as Hne.
  { intros Hnil. assert (m0 ∈ List.filter (isCapture g) moves) as Hin
      by (by apply elem_of_filter_bool).
    rewrite Hnil in Hin. inversion Hin. }
  destruct (sorted_captures_head g moves Hne)
    as (sorted & best & Hsort & Hhead & Hin & Hcap & Hmax).
  destruct (isCapture_true g best Hcap) as [p Hp].
  exists best, p. split; [done|]. split; [done|].
  assert ((0 <? Z.of_nat (length (List.filter (isCapture g) moves))) = true)
    as Hpos.
  { rewrite length_pos_nonempty. by rewrite bool_decide_eq_false_2. }
  split; [|split; [done|split]].
  - intros m q Hm Hq.
    assert (isCapture g m = true) as Hc by (unfold isCapture; by rewrite Hq).
    specialize (Hmax m Hm Hc). unfold captureKey, capturedValue in Hmax.
    by rewrite Hq, Hp in Hmax.
  - intros n random. rewrite getHardMove_run by done. cbv zeta.
    by rewrite Hpos, Hsort, Hhead.
  - intros n takeCheck draw. rewrite getMediumMove_run by done. cbv zeta.
    rewrite Hpos. cbn [andb]. by rewrite Hsort, Hhead.
Qed.

Lemma medium_capture_as_hard_witness :
  getSq (board (theGame captureChoice)) 3 6 = Some (mkPiece pawn white true) ∧
  getSq (board (theGame captureChoice)) 4 2 = Some (mkPiece bishop white true) ∧
  getSq (board (theGame captureChoice)) 4 4 = Some (mkPiece knight white true) ∧
  ∃ p,
    mv 3 3 4 2 ∈ captureCandidates ∧
    getSq (board (theGame captureChoice)) 4 2 = Some p ∧
    (∀ m q, m ∈ captureCandidates →
            getSq (board (theGame captureChoice)) (mvTo m).1 (mvTo m).2 = Some q →
            pieceValues (ptype q) <= pieceValues (ptype p)) ∧
    (pieceValues pawn = 1 ∧ pieceValues knight = 3 ∧ pieceValues bishop = 3 ∧
     pieceValues rook = 5 ∧ pieceValues queen = 9) ∧
    (∀ n random,
       getHardMove (S n) random captureCandidates (theGame captureChoice)
       = Some (Some (mv 3 3 4 2), theGame captureChoice)) ∧
    (∀ n takeCheck draw,
       getMediumMove (S n) true takeCheck draw captureCandidates
                     (theGame captureChoice)
       = Some (Some (mv 3 3 4 2), theGame captureChoice)).
Proof.
  split; [vm_compute; reflexivity|].
  split; [vm_compute; reflexivity|].
  split; [vm_compute; reflexivity|].
  destruct (medium_capture_as_hard (theGame captureChoice) captureCandidates)
    as (best & p & Hin & Hp & Hmax & Hvalues & Hhard & Hmedium).
  { split; [reflexivity|]. vm_compute. repeat constructor. }
  { unfold captureCandidates. repeat constructor; simpl; lia. }
  { exists (mv 2 7 3 6). split; [right; left|vm_compute; reflexivity]. }
  assert (getMediumMove 1 true false 0 captureCandidates (theGame captureChoice)
          = Some (Some (mv 3 3 4 2), theGame captureChoice)) as Hbest
    by (vm_compute; reflexivity).
  rewrite Hmedium in Hbest. apply result_inj in Hbest. injection Hbest as ->.
  exists p.
  split; [exact Hin|]. split; [exact Hp|]. split; [exact Hmax|].
  split; [exact Hvalues|]. split; [exact Hhard|exact Hmedium].
Defined.

(** X19. On an 8x8 board and for candidate moves between squares of the
    board, when no candidate has an occupied destination and after some
    candidate isInCheck('white') is true on the board with the piece set
    on the destination and the origin emptied: getHardMove returns the
    first such candidate, whatever the random number, and leaves the game
    as it was. *)
Theorem getHardMove_first_check (g : Game) (moves : list Move) :
  wf_board (board g) →
  Forall (λ m, on_board (mvFrom m).1 (mvFrom m).2
               ∧ on_board (mvTo m).1 (mvTo m).2) moves →
  (∀ m, m ∈ moves → getSq (board g) (mvTo m).1 (mvTo m).2 = None) →
  (∃ m k, m ∈ moves ∧
          isInCheck (S k) white (afterMove g m) = Some (true, afterMove g m)) →
  ∃ best before after,
    moves = before ++ best :: after ∧
    (∀ k, isInCheck (S k) white (afterMove g best)
          = Some (true, afterMove g best)) ∧
    (∀ m k, m ∈ before →
            isInCheck (S k) white (afterMove g m)
            = Some (false, afterMove g m)) ∧
    ∀ n random, getHardMove (S n) random moves g = Some (Some best, g).
Proof.
  intros Hwf _ Hquiet (m0 & k0 & Hm0 & Hchk0).
  assert (List.filter (isCapture g) moves = []) as Hcaps.
  { apply filter_none. intros m Hm. by apply isCapture_false, Hquiet. }
  rewrite givesCheck_run in Hchk0 by done. injection Hchk0 as Hg0.
  set (quiet := λ m, negb (isCapture g m) && givesCheck g m).
  destruct (List.filter quiet moves) as [|best rest] eqn:Hchecks.
  { assert (m0 ∈ List.filter quiet moves) as Hin.
    { apply elem_of_filter_bool. split; [done|]. unfold quiet.
      by rewrite isCapture_false, Hg0 by (by apply Hquiet). }
    rewrite Hchecks in Hin. inversion Hin. }
  destruct (filter_split quiet moves [] rest best Hchecks)
    as (before & after & Hsplit & Hbefore & _).
  assert (quiet best = true) as Hbest.
  { assert (best ∈ List.filter quiet moves) as Hin
      by (rewrite Hchecks; left).
    by apply elem_of_filter_bool in Hin as [_ Hin]. }
  exists best, before, after. split; [done|]. split; [|split].
  - intros k. rewrite givesCheck_run by done.
    unfold quiet in Hbest. apply andb_true_iff in Hbest as [_ ->]. done.
  - intros m k Hm. rewrite givesCheck_run by done.
    assert (quiet m = false) as Hq.
    { destruct (quiet m) eqn:Hq; [|done].
      assert (m ∈ List.filter quiet before) as Hin
        by (by apply elem_of_filter_bool).
      rewrite Hbefore in Hin. inversion Hin. }
    unfold quiet in Hq. rewrite isCapture_false in Hq.
    + cbn [negb andb] in Hq. by rewrite Hq.
    + apply Hquiet. rewrite Hsplit. apply elem_of_app. by left.
  - intros n random. rewrite getHardMove_run by done. cbv zeta.
    fold quiet. by rewrite Hcaps, Hchecks.
Qed.

Lemma getHardMove_first_check_witness :
  ∃ best before after,
    [mv 1 0 2 0; mv 0 3 4 7; mv 1 1 2 1] = before ++ best :: after ∧
    (∀ k, isInCheck (S k) white (afterMove (theGame openKingside) best)
          = Some (true, afterMove (theGame openKingside) best)) ∧
    (∀ m k, m ∈ before →
            isInCheck (S k) white (afterMove (theGame openKingside) m)
            = Some (false, afterMove (theGame openKingside) m)) ∧
    ∀ n random,
      getHardMove (S n) random [mv 1 0 2 0; mv 0 3 4 7; mv 1 1 2 1]
                  (theGame openKingside)
      = Some (Some best, theGame openKingside).
Proof.
  apply (getHardMove_first_check (theGame openKingside)).
  - split; [reflexivity|]. vm_compute. repeat constructor.
  - repeat constructor; simpl; lia.
  - intros m Hm.
    apply elem_of_cons in Hm as [->|Hm]; [vm_compute; reflexivity|].
    apply elem_of_cons in Hm as [->|Hm]; [vm_compute; reflexivity|].
    apply elem_of_cons in Hm as [->|Hm]; [vm_compute; reflexivity|].
    inversion Hm.
  - exists (mv 0 3 4 7), 0%nat. split; [right; left|vm_compute; reflexivity].
Defined.

(** X20. On an 8x8 board and for candidate moves between squares of the
    board, when some candidate has an occupied destination and the first
    random number of getRandomMove exceeds 0.3, the move it returns is a
    candidate with an occupied destination, and the game is as it was. *)
Theorem getRandomMove_prefers_capture (g : Game) (moves : list Move)
    (draw : nat) :
  wf_board (board g) →
  Forall (λ m, on_board (mvFrom m).1 (mvFrom m).2
               ∧ on_board (mvTo m).1 (mvTo m).2) moves →
  (∃ m, m ∈ moves ∧ occupied (getSq (board g) (mvTo m).1 (mvTo m).2) = true) →
  ∃ m p,
    getRandomMove true draw moves g = Some (Some m, g) ∧
    m ∈ moves ∧ getSq (board g) (mvTo m).1 (mvTo m).2 = Some p.
Proof.
  intros Hwf _ (m0 & Hm0 & Hocc0).
  assert (List.filter (isCapture g) moves ≠ []) as Hne.
  { intros Hnil. assert (m0 ∈ List.filter (isCapture g) moves) as Hin
      by (by apply elem_of_filter_bool).
    rewrite Hnil in Hin. inversion Hin. }
  destruct (lookup_mod_member _ draw Hne) as (m & Hm & Hin).
  apply elem_of_filter_bool in Hin as [Hin Hcap].
  destruct (isCapture_true g m Hcap) as [p Hp].
  exists m, p. split; [|done].
  unfold getRandomMove, bind, ask. rewrite length_pos_nonempty.
  rewrite bool_decide_eq_false_2 by done. cbn [negb andb].
  unfold ret. by rewrite Hm.
Qed.

Lemma getRandomMove_prefers_capture_witness :
  ∃ m p,
    getRandomMove true 5 [mv 1 0 2 0; mv 0 3 3 3; mv 1 1 2 1]
                  (theGame pawnTrade)
    = Some (Some m, theGame pawnTrade) ∧
    m ∈ [mv 1 0 2 0; mv 0 3 3 3; mv 1 1 2 1] ∧
    getSq (board (theGame pawnTrade)) (mvTo m).1 (mvTo m).2 = Some p.
Proof.
  apply (getRandomMove_prefers_capture (theGame pawnTrade)).
  - split; [reflexivity|]. vm_compute. repeat constructor.
  - repeat constructor; simpl; lia.
  - exists (mv 0 3 3 3). split; [right; left|vm_compute; reflexivity].
Defined.

(** X21. On an 8x8 board and for candidate moves between squares of the
    board: when getMediumMove does not take a capture (its first random
    number is at most 0.2, or no candidate has an occupied destination),
    some candidate with an empty destination leaves isInCheck('white')
    true on the board with the piece set on the destination and the
    origin emptied, and the second random number exceeds 0.4, the move it
    returns is such a candidate, and the game is as it was. *)
Theorem getMediumMove_takes_check (g : Game) (moves : list Move)
    (takeCapture : bool) (n draw : nat) :
  wf_board (board g) →
  Forall (λ m, on_board (mvFrom m).1 (mvFrom m).2
               ∧ on_board (mvTo m).1 (mvTo m).2) moves →
  (takeCapture = false ∨
   ∀ m, m ∈ moves → getSq (board g) (mvTo m).1 (mvTo m).2 = None) →
  (∃ m k, m ∈ moves ∧ getSq (board g) (mvTo m).1 (mvTo m).2 = None ∧
          isInCheck (S k) white (afterMove g m) = Some (true, afterMove g m)) →
  ∃ m,
    getMediumMove (S n) takeCapture true draw moves g = Some (Some m, g) ∧
    m ∈ moves ∧ getSq (board g) (mvTo m).1 (mvTo m).2 = None ∧
    ∀ k, isInCheck (S k) white (afterMove g m) = Some (true, afterMove g m).
Proof.
  intros Hwf _ Hno (m0 & k0 & Hm0 & Hempty0 & Hchk0).
  rewrite givesCheck_run in Hchk0 by done. injection Hchk0 as Hg0.
  set (quiet := λ m, negb (isCapture g m) && givesCheck g m).
  assert (List.filter quiet moves ≠ []) as Hne.
  { intros Hnil. assert (m0 ∈ List.filter quiet moves) as Hin.
    { apply elem_of_filter_bool. split; [done|]. unfold quiet.
      by rewrite isCapture_false, Hg0. }
    rewrite Hnil in Hin. inversion Hin. }
  destruct (lookup_mod_member _ draw Hne) as (m & Hm & Hin).
  apply elem_of_filter_bool in Hin as [Hin Hq].
  unfold quiet in Hq. apply andb_true_iff in Hq as [Hnc Hgives].
  exists m. split; [|split; [done|split]].
  - rewrite getMediumMove_run by done. cbv zeta. fold quiet.
    assert ((0 <? Z.of_nat (length (List.filter (isCapture g) moves)))
            && takeCapture = false) as ->.
    { destruct Hno as [->|Hnone]; [apply andb_false_r|].
      rewrite filter_none; [done|].
      intros x Hx. by apply isCapture_false, Hnone. }
    rewrite length_pos_nonempty, bool_decide_eq_false_2 by done.
    cbn [negb andb]. by rewrite Hm.
  - unfold isCapture in Hnc.
    by destruct (getSq (board g) (mvTo m).1 (mvTo m).2).
  - intros k. rewrite givesCheck_run by done. by rewrite Hgives.
Qed.

Lemma getMediumMove_takes_check_witness :
  ∃ m,
    getMediumMove 1 false true 3 [mv 1 0 2 0; mv 0 3 4 7; mv 0 3 3 6]
                  (theGame openKingside)
    = Some (Some m, theGame openKingside) ∧
    m ∈ [mv 1 0 2 0; mv 0 3 4 7; mv 0 3 3 6] ∧
    getSq (board (theGame openKingside)) (mvTo m).1 (mvTo m).2 = None ∧
    ∀ k, isInCheck (S k) white (afterMove (theGame openKingside) m)
         = Some (true, afterMove (theGame openKingside) m).
Proof.
  apply (getMediumMove_takes_check (theGame openKingside)).
  - split; [reflexivity|]. vm_compute. repeat constructor.
  - repeat constructor; simpl; lia.
  - by left.
  - exists (mv 0 3 4 7), 0%nat.
    split; [right; left|]. split; vm_compute; reflexivity.
Defined.

(** ** Tests on a board changed for the time of the test *)

(** X4. On an 8x8 board and for a square of the board,
    wouldBeInCheck(color, kingRow, kingCol) returns, for every bound of
    at least one on the nesting, what isSquareAttacked answers for that
    square and the other color on the board with a king of [color] that
    has not moved written on the square, and it leaves the game as it
    was: the piece that stood on the square is back. *)
Theorem wouldBeInCheck_spec (g : Game) (color : Color) (kingRow kingCol : Z) :
  wf_board (board g) → on_board kingRow kingCol →
  ∃ v,
    (∀ n, isSquareAttackedN (S n) kingRow kingCol (opposite color)
            (withBoard g (setSq (board g) kingRow kingCol
                            (Some (mkPiece king color false))))
          = Some (v, withBoard g (setSq (board g) kingRow kingCol
                                    (Some (mkPiece king color false))))) ∧
    (∀ n, wouldBeInCheck (S n) color kingRow kingCol g = Some (v, g)).
Proof.
  intros Hwf Hon.
  set (g1 := withBoard g (setSq (board g) kingRow kingCol
                            (Some (mkPiece king color false)))).
  destruct (isSquareAttackedN_king g1 kingRow kingCol (opposite color)
              (mkPiece king color false)) as [v Hv].
  - cbn [g1 board withBoard]. by apply wf_setSq.
  - cbn [g1 board withBoard]. by apply getSq_setSq_same.
  - done.
  - exists v. split; [done|]. intros n.
    unfold wouldBeInCheck, wouldBeInCheckWith.
    unfold bind at 1. unfold readBoard at 1, ask. cbv beta iota.
    unfold bind at 1. unfold writeBoard at 1. cbv beta iota.
    fold g1. unfold bind at 1. rewrite Hv.
    unfold bind, writeBoard, ret. unfold g1. cbn [board withBoard].
    by rewrite withBoard_withBoard, setSq_setSq, setSq_getSq, withBoard_board.
Qed.

Lemma wouldBeInCheck_spec_witness :
  ∃ v,
    (∀ n, isSquareAttackedN (S n) 5 4 (opposite white)
            (withBoard initialGame
               (setSq (board initialGame) 5 4 (Some (mkPiece king white false))))
          = Some (v, withBoard initialGame
                       (setSq (board initialGame) 5 4
                          (Some (mkPiece king white false))))) ∧
    (∀ n, wouldBeInCheck (S n) white 5 4 initialGame = Some (v, initialGame)).
Proof.
  apply (wouldBeInCheck_spec initialGame white 5 4).
  - split; [reflexivity|]. repeat constructor.
  - unfold on_board. lia.
Defined.

(** X22. On an 8x8 board, for an origin that holds a piece and a
    destination on the board, wouldLeaveKingInCheck returns, for every
    bound of at least one on the nesting, what isInCheck answers for the
    color of the piece on the board with the piece set on the
    destination and the origin emptied, and it leaves the game as it
    was: both squares are restored. *)
Theorem wouldLeaveKingInCheck_spec (g : Game)
    (fromRow fromCol toRow toCol : Z) (piece : Piece) :
  wf_board (board g) →
  getSq (board g) fromRow fromCol = Some piece →
  on_board toRow toCol →
  ∃ v,
    (∀ n, isInCheck (S n) (pcolor piece)
            (simulated g fromRow fromCol toRow toCol)
          = Some (v, simulated g fromRow fromCol toRow toCol)) ∧
    (∀ n, wouldLeaveKingInCheck (S n) fromRow fromCol toRow toCol g
          = Some (v, g)).
Proof.
  intros Hwf Hpc _.
  set (g2 := simulated g fromRow fromCol toRow toCol).
  destruct (isInCheckN_steady g2 (pcolor piece)) as [v Hv].
  { unfold g2, simulated. cbn [board withBoard]. by do 2 apply wf_setSq. }
  exists v. split; [done|]. intros n.
  unfold wouldLeaveKingInCheck, wouldLeaveKingInCheckWith.
  unfold bind at 1. unfold readBoard at 1, ask. cbv beta iota.
  unfold bind at 1. unfold readBoard at 1, ask. cbv beta iota.
  unfold bind at 1. unfold writeBoard at 1. cbv beta iota.
  unfold bind at 1. unfold writeBoard at 1. cbv beta iota.
  cbn [board withBoard]. rewrite withBoard_withBoard.
  fold (simulated g fromRow fromCol toRow toCol). fold g2.
  rewrite Hpc. unfold bind at 1.
  pose proof (Hv n) as Hn. unfold isInCheck in Hn. rewrite Hn.
  unfold bind, writeBoard, ret. unfold g2, simulated. cbn [board withBoard].
  rewrite !withBoard_withBoard. rewrite <- Hpc.
  by rewrite restore_move, withBoard_board.
Qed.

Lemma wouldLeaveKingInCheck_spec_witness :
  ∃ v,
    (∀ n, isInCheck (S n) (pcolor (mkPiece pawn white false))
            (simulated initialGame 6 4 4 4)
          = Some (v, simulated initialGame 6 4 4 4)) ∧
    (∀ n, wouldLeaveKingInCheck (S n) 6 4 4 4 initialGame
          = Some (v, initialGame)).
Proof.
  apply (wouldLeaveKingInCheck_spec initialGame 6 4 4 4
           (mkPiece pawn white false)).
  - split; [reflexivity|]. repeat constructor.
  - reflexivity.
  - unfold on_board. lia.
Defined.
